(** * Quick-view widget (assets/custom.js): a shallow embedding and its properties

    The script is one closure holding a dozen functions: a money formatter,
    the variant resolver, the picker builder, the modal open/close pair, the
    cart gateway, the upsell lookup and the two document-level listeners.
    Each of them is transcribed below, in source order, over

    - a model of the JavaScript built-ins the script calls ([Module JS]):
      binary64 numbers (the [spec_float] of the kernel's float
      specification), [Number(...)] on strings, [Number.prototype.toString]
      and [toFixed], [toLowerCase], [includes];
    - a record [world] for the part of the page the script reads and
      writes, with a trace of what leaves the page (requests, alerts,
      console output, navigation);
    - a type [task] of script fragments, with reads and writes of the page,
      exceptions, and explicit waits on the two endpoints.

    A task has two readings.  [exec] runs it without interruption, taking
    each reply from the platform at once.  [turn] is one turn of the event
    loop: a shopper's action or a network reply runs some task up to its
    next request, where it is parked until that reply comes, other turns
    running in between.

    Modelling choices.  Strings are ASCII text.  Object property reads and
    writes are on own properties (names inherited from [Object.prototype]
    are not option names).  A request and the reading of its body are one
    wait.  The formatter of [Intl] and the replies of the network are left
    to the platform, so every statement holds for each of its behaviours. *)

From Stdlib Require Import ZArith NArith Bool List Ascii String DecimalString.
From Stdlib Require Import Floats.SpecFloat.
From Stdlib Require Import DecimalFacts DecimalPos DecimalN.
From stdpp Require Import base option list strings gmap.

Local Open Scope string_scope.
Local Open Scope Z_scope.

(* ===================================================================== *)
(** * The JavaScript built-ins used by the script *)
(* ===================================================================== *)

Module JS.

(** ** Numbers: IEEE 754 binary64 *)

Definition prec : Z := 53.
Definition emax : Z := 1024.

Abbreviation number := spec_float.

Definition nan : number := S754_nan.

(** The double nearest to an integer (how a JSON integer literal is read). *)
Definition of_Z (z : Z) : number := binary_normalize prec emax z 0 false.

(** [x / y] *)
Definition div (x y : number) : number := SFdiv prec emax x y.

(** [x === y] on numbers: NaN differs from itself, +0 equals -0. *)
Definition num_eq (x y : number) : bool := SFeqb x y.

(** ToBoolean on numbers: only NaN, +0 and -0 are falsy. *)
Definition num_truthy (x : number) : bool :=
  match x with
  | S754_zero _ | S754_nan => false
  | S754_infinity _ | S754_finite _ _ _ => true
  end.

#[global] Instance number_eq_dec : EqDecision number.
Proof. solve_decision. Defined.

(** The double nearest to [(-1)^neg * m * 10^e], ties to even. *)
Definition of_decimal (neg : bool) (m : N) (e : Z) : number :=
  match m with
  | N0 => S754_zero neg
  | Npos p =>
      if 0 <=? e
      then binary_normalize prec emax (cond_Zopp neg (Zpos p * 10 ^ e)) 0 neg
      else
        let '(q, e', l) :=
          SFdiv_core_binary prec emax (Zpos p) 0 (10 ^ (- e)) 0 in
        binary_round_aux prec emax neg q e' l
  end.

(** ** Strings *)

Definition code (c : ascii) : Z := Z.of_N (N_of_ascii c).

(** [String.prototype.toLowerCase], on ASCII text. *)
Definition lower_char (c : ascii) : ascii :=
  if (65 <=? code c) && (code c <=? 90)
  then ascii_of_N (N_of_ascii c + 32) else c.

Fixpoint toLowerCase (s : string) : string :=
  match s with
  | EmptyString => EmptyString
  | String c s' => String (lower_char c) (toLowerCase s')
  end.

(** [s.includes(pat)]: [pat] occurs in [s] as a contiguous substring. *)
Fixpoint includes (s pat : string) : bool :=
  String.prefix pat s ||
  match s with
  | EmptyString => false
  | String _ s' => includes s' pat
  end.

(** ToBoolean on strings: only the empty string is falsy. *)
Definition str_truthy (s : string) : bool :=
  match s with EmptyString => false | String _ _ => true end.

Definition is_white (c : ascii) : bool :=
  ((9 <=? code c) && (code c <=? 13)) || (code c =? 32).

Fixpoint trim_start (s : string) : string :=
  match s with
  | EmptyString => EmptyString
  | String c s' => if is_white c then trim_start s' else s
  end.

Fixpoint trim_end (s : string) : string :=
  match s with
  | EmptyString => EmptyString
  | String c s' =>
      match trim_end s' with
      | EmptyString => if is_white c then EmptyString else String c EmptyString
      | r => String c r
      end
  end.

Definition trim (s : string) : string := trim_end (trim_start s).

Definition zeros (n : Z) : string :=
  string_of_list_ascii (repeat "0"%char (Z.to_nat n)).

Definition digits (n : Z) : string :=
  NilZero.string_of_uint (N.to_uint (Z.to_N n)).

Definition strlen (s : string) : Z := Z.of_nat (String.length s).

Definition take (n : Z) (s : string) : string :=
  String.substring 0 (Z.to_nat n) s.

Definition drop (n : Z) (s : string) : string :=
  String.substring (Z.to_nat n) (String.length s - Z.to_nat n) s.

(** ** [Number(s)] on a string: the StringNumericLiteral grammar *)

Definition digit_val (c : ascii) : option Z :=
  let n := code c in
  if (48 <=? n) && (n <=? 57) then Some (n - 48)
  else if (97 <=? n) && (n <=? 102) then Some (n - 87)
  else if (65 <=? n) && (n <=? 70) then Some (n - 55)
  else None.

Definition is_digit (radix : Z) (c : ascii) : bool :=
  match digit_val c with Some d => d <? radix | None => false end.

(** The longest prefix of digits, and what follows it. *)
Fixpoint span_digits (radix : Z) (s : string) : string * string :=
  match s with
  | EmptyString => (EmptyString, EmptyString)
  | String c s' =>
      if is_digit radix c
      then let '(d, r) := span_digits radix s' in (String c d, r)
      else (EmptyString, s)
  end.

Fixpoint digits_value (radix : Z) (s : string) (acc : Z) : Z :=
  match s with
  | EmptyString => acc
  | String c s' =>
      digits_value radix s' (acc * radix + default 0 (digit_val c))
  end.

(** NonDecimalIntegerLiteral after its two-character prefix. *)
Definition non_decimal (radix : Z) (s : string) : number :=
  match span_digits radix s with
  | (String _ _ as d, EmptyString) => of_Z (digits_value radix d 0)
  | _ => nan
  end.

(** ExponentPart, or nothing. *)
Definition exponent_part (s : string) : option Z :=
  match s with
  | EmptyString => Some 0
  | String c r =>
      if (code c =? 101) || (code c =? 69) then
        let '(neg, r') :=
          match r with
          | String "-" t => (true, t)
          | String "+" t => (false, t)
          | _ => (false, r)
          end in
        match span_digits 10 r' with
        | (String _ _ as d, EmptyString) =>
            Some (cond_Zopp neg (digits_value 10 d 0))
        | _ => None
        end
      else None
  end.

(** StrUnsignedDecimalLiteral under a sign. *)
Definition unsigned_decimal (neg : bool) (s : string) : number :=
  if String.eqb s "Infinity" then S754_infinity neg
  else
    let '(ip, r1) := span_digits 10 s in
    let '(fp, r2) :=
      match r1 with
      | String "." r => span_digits 10 r
      | _ => (EmptyString, r1)
      end in
    if str_truthy ip || str_truthy fp then
      match exponent_part r2 with
      | Some e =>
          of_decimal neg (Z.to_N (digits_value 10 (ip ++ fp) 0)) (e - strlen fp)
      | None => nan
      end
    else nan.

Definition StringToNumber (s : string) : number :=
  match trim s with
  | EmptyString => S754_zero false
  | String "0" (String ("x" | "X") r) => non_decimal 16 r
  | String "0" (String ("o" | "O") r) => non_decimal 8 r
  | String "0" (String ("b" | "B") r) => non_decimal 2 r
  | String "-" r => unsigned_decimal true r
  | String "+" r => unsigned_decimal false r
  | t => unsigned_decimal false t
  end.

(** ** [Number.prototype.toString] (radix 10) and [toFixed] *)

(** A positive finite double as an exact fraction [(p, q)]. *)
Definition fraction_of (m : positive) (e : Z) : Z * Z :=
  if 0 <=? e then (Zpos m * 2 ^ e, 1) else (Zpos m, 2 ^ (- e)).

(** The least [j >= 1] with [q <= p * 10^j], searched upwards. *)
Fixpoint scale_up (fuel : nat) (p q j : Z) : Z :=
  match fuel with
  | O => j
  | S fuel' => if q <=? p * 10 ^ j then j else scale_up fuel' p q (j + 1)
  end.

(** The [n] with [10^(n-1) <= p/q < 10^n]. *)
Definition decimal_exponent (p q : Z) : Z :=
  if q <=? p then strlen (digits (p / q))
  else 1 - scale_up (String.length (digits q)) p q 1.

(** The [k]-digit decimals next to [p/q], with the one that reads back as
    [x] (the nearer one when both do, the even one on a tie). *)
Definition candidate (x : number) (p q n k : Z) : option Z :=
  let num := if 0 <=? k - n then p * 10 ^ (k - n) else p in
  let den := if 0 <=? k - n then q else q * 10 ^ (n - k) in
  let lo := num / den in
  let r := num mod den in
  let hi := lo + 1 in
  let ok s := bool_decide (of_decimal false (Z.to_N s) (n - k) = x) in
  let ok_hi := (hi <? 10 ^ k) && ok hi in
  match ok lo, ok_hi with
  | true, true =>
      match 2 * r ?= den with
      | Lt => Some lo
      | Gt => Some hi
      | Eq => Some (if Z.even lo then lo else hi)
      end
  | true, false => Some lo
  | false, true => Some hi
  | false, false => None
  end.

(** The shortest digit string: the first [k] in [ks] with a candidate. *)
Fixpoint shortest (x : number) (p q n : Z) (ks : list Z) : Z * Z :=
  match ks with
  | [] => (17, p * 10 ^ 17 / (q * 10 ^ n))
  | k :: ks' =>
      match candidate x p q n k with
      | Some s => (k, s)
      | None => shortest x p q n ks'
      end
  end.

(** Number::toString on a positive finite double [m * 2^e]. *)
Definition positive_toString (m : positive) (e : Z) : string :=
  let x := S754_finite false m e in
  let '(p, q) := fraction_of m e in
  let n0 := decimal_exponent p q in
  let '(n, (k, s)) :=
    if bool_decide (of_decimal false 1 n0 = x) then (n0 + 1, (1, 1))
    else (n0, shortest x p q n0 (map Z.of_nat (seq 1 17))) in
  let d := digits s in
  if (k <=? n) && (n <=? 21) then d ++ zeros (n - k)
  else if (0 <? n) && (n <=? 21) then take n d ++ "." ++ drop n d
  else if (-6 <? n) && (n <=? 0) then "0." ++ zeros (- n) ++ d
  else
    let ex := (if n - 1 <? 0 then "-" else "+") ++ digits (Z.abs (n - 1)) in
    if k =? 1 then d ++ "e" ++ ex
    else take 1 d ++ "." ++ drop 1 d ++ "e" ++ ex.

Definition toString (x : number) : string :=
  match x with
  | S754_nan => "NaN"
  | S754_zero _ => "0"
  | S754_infinity neg => (if neg then "-" else "") ++ "Infinity"
  | S754_finite neg m e => (if neg then "-" else "") ++ positive_toString m e
  end.

(** [x.toFixed(f)] for [0 <= f <= 100], where the built-in returns. *)
Definition toFixed (x : number) (f : Z) : string :=
  match x with
  | S754_zero _ => "0" ++ (if f =? 0 then "" else "." ++ zeros f)
  | S754_finite neg m e =>
      let '(p, q) := fraction_of m e in
      (if neg then "-" else "") ++
      if q * 10 ^ 21 <=? p then positive_toString m e
      else
        (* the integer nearest to x * 10^f, the larger one on a tie *)
        let n := (2 * p * 10 ^ f + q) / (2 * q) in
        let d := digits n in
        let d := if strlen d <=? f then zeros (f + 1 - strlen d) ++ d else d in
        if f =? 0 then d
        else take (strlen d - f) d ++ "." ++ drop (strlen d - f) d
  | _ => toString x
  end.

End JS.

(* ===================================================================== *)
(** * Data model: products, variants, the page *)
(* ===================================================================== *)

(** A JSON slot that holds a string or nothing: a variant's option value or
    title, a product's description.  [Undefined] is a missing property. *)
Inductive optval := Undefined | Null | Str (s : string).

#[global] Instance optval_eq_dec : EqDecision optval.
Proof. solve_decision. Defined.

(** ToBoolean *)
Definition truthy (v : optval) : bool :=
  match v with Str s => JS.str_truthy s | _ => false end.

(** [a === b] *)
Definition strict_eq (a b : optval) : bool := bool_decide (a = b).

(** [String(v)], as [setAttribute] and [CSS.escape] apply it. *)
Definition String_of (v : optval) : string :=
  match v with Undefined => "undefined" | Null => "null" | Str s => s end.

Record variant := {
  id : JS.number;
  title : optval;
  price : JS.number;
  available : bool;
  option1 : optval;
  option2 : optval;
  option3 : optval
}.

Record product := {
  product_title : string;
  description : optval;
  images : list string;
  featured_image : optval;
  options : list string;
  variants : list variant
}.

(** [v['option' + (idx + 1)]] *)
Definition variant_option (v : variant) (idx : nat) : optval :=
  match idx with
  | 0%nat => option1 v
  | 1%nat => option2 v
  | 2%nat => option3 v
  | _ => Undefined
  end.

(** The selection object, by its own properties: a property read of an
    absent key is [undefined]. *)
Abbreviation selection := (gmap string optval).

Definition sel_get (selections : selection) (optName : string) : optval :=
  default Undefined (selections !! optName).

(** [Array.prototype.every] with the index passed to the callback. *)
Fixpoint every_from {A} (f : A -> nat -> bool) (i : nat) (l : list A) : bool :=
  match l with
  | [] => true
  | x :: l' => f x i && every_from f (S i) l'
  end.

Definition every {A} (f : A -> nat -> bool) (l : list A) : bool :=
  every_from f 0 l.

(** ** Variant Resolver (custom.js, findVariant) *)

Definition findVariant (p : product) (selections : selection) : option variant :=
  find (fun v =>
    every (fun optName idx =>
      let want := sel_get selections optName in
      if negb (truthy want) then true
      else
        let got := variant_option v idx in
        strict_eq got want) (options p)) (variants p).

(** ** The page *)

(** A grid section element: its [data-upsell-variant] attribute
    ([None] when [getAttribute] gives null). *)
Record section_el := { data_upsell_variant : option string }.

(** A quick-view trigger: its [data-handle] attribute and the nearest
    ancestor matching [[data-section="custom-product-grid"]]. *)
Record quick_el := {
  data_handle : option string;
  closest_section : option section_el
}.

(** An option button: its two attributes, the value its listener closes
    over, and its pressed state. *)
Record button := {
  data_opt : string;
  data_val : string;
  val : optval;
  aria_pressed : bool
}.

(** A [.cqv-variant-group]: the title line and the row of buttons. *)
Record group := { group_title : string; buttons : list button }.

(** The [#custom-quickview] node.  [picker_product] and [selections] are
    what the option buttons' listeners close over, [onclick] what the add
    button's handler closes over. *)
Record modal_el := {
  open : bool;
  cqv_title : string;
  cqv_price : string;
  cqv_desc : string;
  img_src : string;
  img_alt : string;
  cqv_variants : list group;
  cqv_qty : string;
  add_disabled : bool;
  cqv_msg : string;
  variantId : option string;
  picker_product : option product;
  selections : selection;
  onclick : option (product * quick_el)
}.

(** The body of a cart-add request, [{id, quantity}]. *)
Record cart_line := { line_id : JS.number; quantity : JS.number }.

(** What a handler does to the outside, in order. *)
Inductive effect :=
| Fetch (url : string) (body : option cart_line)
| Alert (msg : string)
| ConsoleWarn (msg : string)
| ConsoleError (msg : string)
| Navigate (url : string).

Record world := {
  modal : option modal_el;
  no_scroll : bool;
  doc_section : option section_el;
  trace : list effect;
  fetches : nat
}.

Definition set_open (x : bool) (r : modal_el) : modal_el :=
  {| open := x; cqv_title := cqv_title r; cqv_price := cqv_price r;
     cqv_desc := cqv_desc r; img_src := img_src r; img_alt := img_alt r;
     cqv_variants := cqv_variants r; cqv_qty := cqv_qty r;
     add_disabled := add_disabled r; cqv_msg := cqv_msg r;
     variantId := variantId r; picker_product := picker_product r;
     selections := selections r; onclick := onclick r |}.
Definition set_cqv_title (x : string) (r : modal_el) : modal_el :=
  {| open := open r; cqv_title := x; cqv_price := cqv_price r;
     cqv_desc := cqv_desc r; img_src := img_src r; img_alt := img_alt r;
     cqv_variants := cqv_variants r; cqv_qty := cqv_qty r;
     add_disabled := add_disabled r; cqv_msg := cqv_msg r;
     variantId := variantId r; picker_product := picker_product r;
     selections := selections r; onclick := onclick r |}.
Definition set_cqv_price (x : string) (r : modal_el) : modal_el :=
  {| open := open r; cqv_title := cqv_title r; cqv_price := x;
     cqv_desc := cqv_desc r; img_src := img_src r; img_alt := img_alt r;
     cqv_variants := cqv_variants r; cqv_qty := cqv_qty r;
     add_disabled := add_disabled r; cqv_msg := cqv_msg r;
     variantId := variantId r; picker_product := picker_product r;
     selections := selections r; onclick := onclick r |}.
Definition set_cqv_desc (x : string) (r : modal_el) : modal_el :=
  {| open := open r; cqv_title := cqv_title r; cqv_price := cqv_price r;
     cqv_desc := x; img_src := img_src r; img_alt := img_alt r;
     cqv_variants := cqv_variants r; cqv_qty := cqv_qty r;
     add_disabled := add_disabled r; cqv_msg := cqv_msg r;
     variantId := variantId r; picker_product := picker_product r;
     selections := selections r; onclick := onclick r |}.
Definition set_img_src (x : string) (r : modal_el) : modal_el :=
  {| open := open r; cqv_title := cqv_title r; cqv_price := cqv_price r;
     cqv_desc := cqv_desc r; img_src := x; img_alt := img_alt r;
     cqv_variants := cqv_variants r; cqv_qty := cqv_qty r;
     add_disabled := add_disabled r; cqv_msg := cqv_msg r;
     variantId := variantId r; picker_product := picker_product r;
     selections := selections r; onclick := onclick r |}.
Definition set_img_alt (x : string) (r : modal_el) : modal_el :=
  {| open := open r; cqv_title := cqv_title r; cqv_price := cqv_price r;
     cqv_desc := cqv_desc r; img_src := img_src r; img_alt := x;
     cqv_variants := cqv_variants r; cqv_qty := cqv_qty r;
     add_disabled := add_disabled r; cqv_msg := cqv_msg r;
     variantId := variantId r; picker_product := picker_product r;
     selections := selections r; onclick := onclick r |}.
Definition set_cqv_variants (x : list group) (r : modal_el) : modal_el :=
  {| open := open r; cqv_title := cqv_title r; cqv_price := cqv_price r;
     cqv_desc := cqv_desc r; img_src := img_src r; img_alt := img_alt r;
     cqv_variants := x; cqv_qty := cqv_qty r; add_disabled := add_disabled r;
     cqv_msg := cqv_msg r; variantId := variantId r;
     picker_product := picker_product r; selections := selections r;
     onclick := onclick r |}.
Definition set_cqv_qty (x : string) (r : modal_el) : modal_el :=
  {| open := open r; cqv_title := cqv_title r; cqv_price := cqv_price r;
     cqv_desc := cqv_desc r; img_src := img_src r; img_alt := img_alt r;
     cqv_variants := cqv_variants r; cqv_qty := x;
     add_disabled := add_disabled r; cqv_msg := cqv_msg r;
     variantId := variantId r; picker_product := picker_product r;
     selections := selections r; onclick := onclick r |}.
Definition set_add_disabled (x : bool) (r : modal_el) : modal_el :=
  {| open := open r; cqv_title := cqv_title r; cqv_price := cqv_price r;
     cqv_desc := cqv_desc r; img_src := img_src r; img_alt := img_alt r;
     cqv_variants := cqv_variants r; cqv_qty := cqv_qty r; add_disabled := x;
     cqv_msg := cqv_msg r; variantId := variantId r;
     picker_product := picker_product r; selections := selections r;
     onclick := onclick r |}.
Definition set_cqv_msg (x : string) (r : modal_el) : modal_el :=
  {| open := open r; cqv_title := cqv_title r; cqv_price := cqv_price r;
     cqv_desc := cqv_desc r; img_src := img_src r; img_alt := img_alt r;
     cqv_variants := cqv_variants r; cqv_qty := cqv_qty r;
     add_disabled := add_disabled r; cqv_msg := x; variantId := variantId r;
     picker_product := picker_product r; selections := selections r;
     onclick := onclick r |}.
Definition set_variantId (x : option string) (r : modal_el) : modal_el :=
  {| open := open r; cqv_title := cqv_title r; cqv_price := cqv_price r;
     cqv_desc := cqv_desc r; img_src := img_src r; img_alt := img_alt r;
     cqv_variants := cqv_variants r; cqv_qty := cqv_qty r;
     add_disabled := add_disabled r; cqv_msg := cqv_msg r; variantId := x;
     picker_product := picker_product r; selections := selections r;
     onclick := onclick r |}.
Definition set_picker_product (x : option product) (r : modal_el) : modal_el :=
  {| open := open r; cqv_title := cqv_title r; cqv_price := cqv_price r;
     cqv_desc := cqv_desc r; img_src := img_src r; img_alt := img_alt r;
     cqv_variants := cqv_variants r; cqv_qty := cqv_qty r;
     add_disabled := add_disabled r; cqv_msg := cqv_msg r;
     variantId := variantId r; picker_product := x;
     selections := selections r; onclick := onclick r |}.
Definition set_selections (x : selection) (r : modal_el) : modal_el :=
  {| open := open r; cqv_title := cqv_title r; cqv_price := cqv_price r;
     cqv_desc := cqv_desc r; img_src := img_src r; img_alt := img_alt r;
     cqv_variants := cqv_variants r; cqv_qty := cqv_qty r;
     add_disabled := add_disabled r; cqv_msg := cqv_msg r;
     variantId := variantId r; picker_product := picker_product r;
     selections := x; onclick := onclick r |}.
Definition set_onclick (x : option (product * quick_el)) (r : modal_el) : modal_el :=
  {| open := open r; cqv_title := cqv_title r; cqv_price := cqv_price r;
     cqv_desc := cqv_desc r; img_src := img_src r; img_alt := img_alt r;
     cqv_variants := cqv_variants r; cqv_qty := cqv_qty r;
     add_disabled := add_disabled r; cqv_msg := cqv_msg r;
     variantId := variantId r; picker_product := picker_product r;
     selections := selections r; onclick := x |}.
Definition set_modal (x : option modal_el) (r : world) : world :=
  {| modal := x; no_scroll := no_scroll r; doc_section := doc_section r;
     trace := trace r; fetches := fetches r |}.
Definition set_no_scroll (x : bool) (r : world) : world :=
  {| modal := modal r; no_scroll := x; doc_section := doc_section r;
     trace := trace r; fetches := fetches r |}.
Definition set_trace (x : list effect) (r : world) : world :=
  {| modal := modal r; no_scroll := no_scroll r;
     doc_section := doc_section r; trace := x; fetches := fetches r |}.
Definition set_fetches (x : nat) (r : world) : world :=
  {| modal := modal r; no_scroll := no_scroll r;
     doc_section := doc_section r; trace := trace r; fetches := x |}.

(** The markup [ensureModal] writes. *)
Definition fresh_modal : modal_el :=
  {| open := false; cqv_title := ""; cqv_price := ""; cqv_desc := "";
     img_src := ""; img_alt := ""; cqv_variants := []; cqv_qty := "1";
     add_disabled := false; cqv_msg := ""; variantId := None;
     picker_product := None; selections := ∅; onclick := None |}.

(** A freshly loaded page. *)
Definition initial_world (sec : option section_el) : world :=
  {| modal := None; no_scroll := false; doc_section := sec;
     trace := []; fetches := 0 |}.

(** ** The platform: what the script cannot decide *)

(** A network reply: a transport failure, or a response with its [ok]
    flag and its body ([None] when the body is not JSON). *)
Inductive outcome (A : Type) :=
| NetworkError
| Response (ok : bool) (json : option A).
Arguments NetworkError {A}.
Arguments Response {A} ok json.

Record platform := {
  (** [Shopify.currency.active], when the chain of globals is there *)
  currency_active : option string;
  (** [new Intl.NumberFormat(undefined, {style, currency}).format(x)];
      [None] when either call throws *)
  intl_format : option string -> JS.number -> option string;
  (** the replies of [/products/<handle>.js] and [/cart/add.js] to the
      n-th request of the page *)
  products_js : nat -> string -> outcome product;
  cart_add_js : nat -> cart_line -> outcome unit
}.

(** ** Handlers as tasks *)

Inductive result (A : Type) := Ok (a : A) | Throw (e : string).
Arguments Ok {A} a.
Arguments Throw {A} e.

(** A piece of the script about to run.  It has returned or thrown, or it
    reads the page, or writes it, or has sent a request and awaits the
    reply; the page may change under it while it waits. *)
Inductive task (A : Type) : Type :=
| Done (r : result A)
| Get (k : world -> task A)
| Put (w : world) (k : task A)
| AwaitProduct (handle : string) (k : outcome product -> task A)
| AwaitCart (body : cart_line) (k : outcome unit -> task A).
Arguments Done {A} r.
Arguments Get {A} k.
Arguments Put {A} w k.
Arguments AwaitProduct {A} handle k.
Arguments AwaitCart {A} body k.

Fixpoint task_bind {A B} (f : A -> task B) (t : task A) : task B :=
  match t with
  | Done (Ok a) => f a
  | Done (Throw e) => Done (Throw e)
  | Get k => Get (fun w => task_bind f (k w))
  | Put w k => Put w (task_bind f k)
  | AwaitProduct handle k => AwaitProduct handle (fun o => task_bind f (k o))
  | AwaitCart body k => AwaitCart body (fun o => task_bind f (k o))
  end.

#[global] Instance task_ret : MRet task := fun A a => Done (Ok a).
#[global] Instance task_mbind : MBind task := @task_bind.

Definition throw {A} (e : string) : task A := Done (Throw e).

(** [try { body } catch (e) { handler }] *)
Fixpoint try_catch {A} (body : task A) (handler : string -> task A) : task A :=
  match body with
  | Done (Ok a) => Done (Ok a)
  | Done (Throw e) => handler e
  | Get k => Get (fun w => try_catch (k w) handler)
  | Put w k => Put w (try_catch k handler)
  | AwaitProduct handle k =>
      AwaitProduct handle (fun o => try_catch (k o) handler)
  | AwaitCart body k => AwaitCart body (fun o => try_catch (k o) handler)
  end.

Definition get_world : task world := Get (fun w => Done (Ok w)).
Definition modify (f : world -> world) : task unit :=
  Get (fun w => Put (f w) (Done (Ok tt))).
Definition emit (e : effect) : task unit :=
  modify (fun w => set_trace (trace w ++ [e]) w).

(** Property access on the modal node; on a null node it is a TypeError. *)
Definition the_modal : task modal_el :=
  Get (fun w =>
    match modal w with
    | Some m => Done (Ok m)
    | None => Done (Throw "TypeError")
    end).

Definition update_modal (f : modal_el -> modal_el) : task unit :=
  _ ← the_modal; modify (fun w => set_modal (f <$> modal w) w).

(** [await fetch('/products/' + handle + '.js')] and the reading of its
    body, and the same for a POST to [/cart/add.js]. *)
Definition fetch_product (handle : string) : task (outcome product) :=
  AwaitProduct handle (fun o => Done (Ok o)).

Definition fetch_cart_add (body : cart_line) : task (outcome unit) :=
  AwaitCart body (fun o => Done (Ok o)).

(** Running a listener from the event loop: an exception that escapes it
    is reported and goes no further. *)
Definition dispatch (h : task unit) : task unit :=
  try_catch h (fun _ => mret tt).

(** [forEach], with the index passed to the callback. *)
Fixpoint forEach_from {A} (f : A -> nat -> task unit) (i : nat) (l : list A) :
    task unit :=
  match l with
  | [] => mret tt
  | x :: l' => f x i;; forEach_from f (S i) l'
  end.

Definition forEach {A} (f : A -> nat -> task unit) (l : list A) : task unit :=
  forEach_from f 0 l.

(** [Array.from(new Set(l))]: duplicates dropped, first occurrences kept in
    order. *)
Fixpoint distinct_from (seen l : list optval) : list optval :=
  match l with
  | [] => []
  | x :: l' =>
      if bool_decide (x ∈ seen) then distinct_from seen l'
      else x :: distinct_from (x :: seen) l'
  end.

Definition distinct (l : list optval) : list optval := distinct_from [] l.

(** [s.replace(/<\/?[^>]+(>|$)/g, '')]: a match starts at a [<] followed by
    at least one character other than [>], and runs through the next [>]
    or to the end of the string. *)
Fixpoint strip_tags (s : string) : string :=
  match s with
  | EmptyString => EmptyString
  | String c s' =>
      if Ascii.eqb c "<" then
        match s' with
        | EmptyString => s
        | String d _ =>
            if Ascii.eqb d ">" then String c (strip_tags s')
            else strip_tags_after s'
        end
      else String c (strip_tags s')
  end
with strip_tags_after (s : string) : string :=
  match s with
  | EmptyString => EmptyString
  | String c s' => if Ascii.eqb c ">" then strip_tags s' else strip_tags_after s'
  end.

(** An argument of [Number(...)]: a string read from the page, or a number. *)
Inductive prim := PStr (s : string) | PNum (n : JS.number).

Definition Number (v : prim) : JS.number :=
  match v with
  | PStr s => JS.StringToNumber s
  | PNum n => n
  end.

(** What a click lands on: the nearest [[data-quick]] ancestor-or-self of
    the target, and whether it has a [[data-cqv-close]] one. *)
Record click_target := {
  closest_quick : option quick_el;
  closest_close : bool
}.

(** What the shopper can do to the page. *)
Inductive ui_event :=
| Click (ev : click_target)
| ClickOption (gi bi : nat)
| ClickAdd
| InputQty (s : string)
| KeyDown (key : string).

(* ===================================================================== *)
(** * The script *)
(* ===================================================================== *)

Section Script.

Variable env : platform.

(** ** Money Formatter *)

Definition formatMoney (cents : JS.number) : task string :=
  try_catch
    (let currency :=
       match currency_active env with
       | Some c => if JS.str_truthy c then Some c else None
       | None => None
       end in
     match intl_format env currency (JS.div cents (JS.of_Z 100)) with
     | Some text => mret text
     | None => throw "RangeError"
     end)
    (fun e => mret (JS.toFixed (JS.div cents (JS.of_Z 100)) 2)).

Definition findGridSection (el : quick_el) : task (option section_el) :=
  w ← get_world;
  mret (match closest_section el with
        | Some sec => Some sec
        | None => doc_section w
        end).

(** ** Modal Controller *)

Definition ensureModal : task unit :=
  w ← get_world;
  match modal w with
  | Some _ => mret tt
  | None => modify (set_modal (Some fresh_modal))
  end.

Definition openModal : task unit :=
  update_modal (set_open true);;
  modify (set_no_scroll true).

Definition closeModal : task unit :=
  update_modal (set_open false);;
  modify (set_no_scroll false).

(** ** Picker Builder *)

(** The group built for one option: a button per distinct value. *)
Definition render_group (p : product) (optName : string) (optIndex : nat) : group :=
  let values := distinct (map (fun v => variant_option v optIndex) (variants p)) in
  {| group_title := optName;
     buttons := map (fun v => {| data_opt := optName; data_val := String_of v;
                                 val := v; aria_pressed := false |}) values |}.

Definition set_pressed (b : bool) (btn : button) : button :=
  {| data_opt := data_opt btn; data_val := data_val btn; val := val btn;
     aria_pressed := b |}.

(** Every button of the row released, then button [bi] pressed. *)
Definition press (bi : nat) (g : group) : group :=
  {| group_title := group_title g;
     buttons := alter (set_pressed true) bi (map (set_pressed false) (buttons g)) |}.

(** The click listener of button [bi] of group [gi]. *)
Definition option_click (gi bi : nat) : task unit :=
  m ← the_modal;
  match cqv_variants m !! gi ≫= (fun g => buttons g !! bi), picker_product m with
  | Some btn, Some p =>
      update_modal (fun m => set_cqv_variants (alter (press bi) gi (cqv_variants m)) m);;
      update_modal (fun m => set_selections (<[data_opt btn := val btn]> (selections m)) m);;
      m ← the_modal;
      match findVariant p (selections m) with
      | Some v =>
          update_modal (set_variantId (Some (JS.toString (id v))));;
          text ← formatMoney (price v);
          update_modal (set_cqv_price text);;
          update_modal (set_cqv_title
            (product_title p ++
             (if truthy (title v) then " — " ++ String_of (title v) else "")))
      | None => mret tt
      end
  | _, _ => mret tt
  end.

(** [wrap.querySelector('.cqv-opt[data-opt="..."][data-val="..."]')]: the
    position of the first button, in document order, with both attributes. *)
Fixpoint querySelector_from (gi : nat) (gs : list group)
    (optName v : string) : option (nat * nat) :=
  match gs with
  | [] => None
  | g :: gs' =>
      match list_find (fun b => data_opt b = optName ∧ data_val b = v) (buttons g) with
      | Some (bi, _) => Some (gi, bi)
      | None => querySelector_from (S gi) gs' optName v
      end
  end.

Definition querySelector (gs : list group) (optName v : string) : option (nat * nat) :=
  querySelector_from 0 gs optName v.

(** One round of the pre-selection loop. *)
Definition preselect (initialVariant : variant) (optName : string) (idx : nat) : task unit :=
  let v := variant_option initialVariant idx in
  update_modal (fun m => set_selections (<[optName := v]> (selections m)) m);;
  m ← the_modal;
  match querySelector (cqv_variants m) optName (String_of v) with
  | Some (gi, bi) => dispatch (option_click gi bi)
  | None => mret tt
  end.

Definition buildVariantPickers (p : product) : task unit :=
  update_modal (set_cqv_variants []);;
  update_modal (fun m => set_selections ∅ (set_picker_product (Some p) m));;
  forEach (fun optName optIndex =>
    update_modal (fun m =>
      set_cqv_variants (cqv_variants m ++ [render_group p optName optIndex]) m))
    (options p);;
  let initialVariant :=
    match find available (variants p) with
    | Some v => Some v
    | None => head (variants p)
    end in
  match initialVariant with
  | Some iv =>
      forEach (preselect iv) (options p);;
      update_modal (set_variantId (Some (JS.toString (id iv))));;
      text ← formatMoney (price iv);
      update_modal (set_cqv_price text)
  | None => mret tt
  end.

(** ** Cart Gateway *)

Definition addToCart (variantId quantity : prim) : task unit :=
  res ← fetch_cart_add {| line_id := Number variantId;
                          quantity := Number quantity |};
  match res with
  | NetworkError => throw "TypeError: Failed to fetch"
  | Response ok json =>
      if negb ok then throw "Cart add failed"
      else match json with
           | Some _ => mret tt
           | None => throw "SyntaxError"
           end
  end.

(** ** Upsell configuration *)

Definition getUpsellVariantIdFromSection (button : quick_el) : task (option JS.number) :=
  section ← findGridSection button;
  match section with
  | None => mret None
  | Some sec =>
      match data_upsell_variant sec with
      | None => mret None
      | Some v =>
          if negb (JS.str_truthy v) then mret None
          else
            try_catch
              (let n := Number (PStr v) in
               mret (if JS.num_truthy n then Some n else None))
              (fun e => mret None)
      end
  end.

(** ** The add button's handler, for a product and the trigger it came from *)

Definition chosenVariant (p : product) (vid : string) : option variant :=
  find (fun v => JS.num_eq (Number (PNum (id v))) (Number (PStr vid))) (variants p).

Definition optionValues (chosen : option variant) : list string :=
  match chosen with
  | Some cv =>
      omap (fun o => if truthy o then Some (JS.toLowerCase (String_of o)) else None)
           [option1 cv; option2 cv; option3 cv]
  | None => []
  end.

Definition hasBlack (vs : list string) : bool :=
  existsb (fun v => JS.includes v "black") vs.

Definition hasMedium (vs : list string) : bool :=
  existsb (fun v => JS.includes v "medium") vs.

Definition add_onclick (p : product) (quick : quick_el) : task unit :=
  update_modal (set_add_disabled true);;
  update_modal (set_cqv_msg "Adding...");;
  m ← the_modal;
  let qty := if JS.str_truthy (cqv_qty m) then PStr (cqv_qty m)
             else PNum (JS.of_Z 1) in
  match variantId m with
  | Some (String _ _ as vid) =>
      try_catch
        (addToCart (PStr vid) qty;;
         let vs := optionValues (chosenVariant p vid) in
         upsellVariantId ← getUpsellVariantIdFromSection quick;
         match hasBlack vs && hasMedium vs, upsellVariantId with
         | true, Some upsell =>
             try_catch (addToCart (PNum upsell) (PNum (JS.of_Z 1)))
                       (fun e => emit (ConsoleWarn "Upsell add failed"))
         | _, _ => mret tt
         end;;
         emit (Navigate "/cart"))
        (fun err =>
           emit (ConsoleError err);;
           update_modal (set_cqv_msg "Could not add to cart. Try again.");;
           update_modal (set_add_disabled false))
  | _ =>
      update_modal (set_cqv_msg "Please select variant");;
      update_modal (set_add_disabled false)
  end.

(** ** Click/Key Dispatcher *)

Definition on_click (ev : click_target) : task unit :=
  match closest_quick ev with
  | Some quick =>
      match data_handle quick with
      | Some (String _ _ as handle) =>
          try_catch
            (res ← fetch_product handle;
             match res with
             | NetworkError => throw "TypeError: Failed to fetch"
             | Response ok json =>
                 if negb ok then throw "Product fetch failed"
                 else match json with
                      | None => throw "SyntaxError"
                      | Some p =>
                          ensureModal;;
                          update_modal (set_cqv_title (product_title p));;
                          update_modal (set_cqv_desc
                            (if truthy (description p)
                             then strip_tags (String_of (description p)) else ""));;
                          let imageUrl :=
                            match images p with
                            | u :: _ => Str u
                            | [] => featured_image p
                            end in
                          update_modal (set_img_src
                            (if truthy imageUrl then String_of imageUrl else ""));;
                          update_modal (set_img_alt (product_title p));;
                          buildVariantPickers p;;
                          update_modal (set_onclick (Some (p, quick)));;
                          openModal
                      end
             end)
            (fun err =>
               emit (ConsoleError err);;
               emit (Alert "Unable to load product."))
      | _ => emit (Alert "Product handle missing")
      end
  | None =>
      if closest_close ev then
        w ← get_world;
        match modal w with
        | Some _ => closeModal
        | None => mret tt
        end
      else mret tt
  end.

Definition on_keydown (key : string) : task unit :=
  if String.eqb key "Escape" then
    w ← get_world;
    match modal w with
    | Some m => if open m then closeModal else mret tt
    | None => mret tt
    end
  else mret tt.

(** ** What the shopper does *)

Definition handle (e : ui_event) : task unit :=
  match e with
  | Click ev => dispatch (on_click ev)
  | ClickOption gi bi => dispatch (option_click gi bi)
  | ClickAdd =>
      dispatch (m ← the_modal;
                match onclick m with
                | Some (p, quick) =>
                    if add_disabled m then mret tt else add_onclick p quick
                | None => mret tt
                end)
  | InputQty s => dispatch (update_modal (set_cqv_qty s))
  | KeyDown key => dispatch (on_keydown key)
  end.

(** ** Running tasks *)

Definition product_request (handle : string) : effect :=
  Fetch ("/products/" ++ handle ++ ".js") None.

Definition cart_request (body : cart_line) : effect :=
  Fetch "/cart/add.js" (Some body).

(** The page once a request has left it. *)
Definition sent (e : effect) (w : world) : world :=
  set_fetches (S (fetches w)) (set_trace (trace w ++ [e]) w).

(** A task run without interruption, every request answered by the
    platform as soon as it is sent. *)
Fixpoint exec {A} (t : task A) (w : world) : result A * world :=
  match t with
  | Done r => (r, w)
  | Get k => exec (k w) w
  | Put w' k => exec k w'
  | AwaitProduct handle k =>
      exec (k (products_js env (fetches w) handle))
           (sent (product_request handle) w)
  | AwaitCart body k =>
      exec (k (cart_add_js env (fetches w) body)) (sent (cart_request body) w)
  end.

Definition step (w : world) (e : ui_event) : world := snd (exec (handle e) w).

Definition run (w : world) (es : list ui_event) : world := foldl step w es.

(** ** The event loop *)

(** A task parked on a request. *)
Inductive parked :=
| OnProduct (k : outcome product -> task unit)
| OnCart (k : outcome unit -> task unit).

(** The page and the tasks parked on it, each under the number of the
    request it waits for. *)
Record page := { the_world : world; waiting : list (nat * parked) }.

(** Where a task stops when left to run: at its end, or at a request it
    is about to send. *)
Inductive stop (A : Type) :=
| Ended (r : result A)
| AtProduct (handle : string) (k : outcome product -> task A)
| AtCart (body : cart_line) (k : outcome unit -> task A).
#[global] Arguments Ended {A} r.
#[global] Arguments AtProduct {A} handle k.
#[global] Arguments AtCart {A} body k.

Fixpoint until_await {A} (t : task A) (w : world) : stop A * world :=
  match t with
  | Done r => (Ended r, w)
  | Get k => until_await (k w) w
  | Put w' k => until_await k w'
  | AwaitProduct handle k => (AtProduct handle k, w)
  | AwaitCart body k => (AtCart body k, w)
  end.

(** A task run until it ends or parks, its request sent. *)
Definition advance (t : task unit) (w : world) : world * option (nat * parked) :=
  match until_await t w with
  | (Ended _, w') => (w', None)
  | (AtProduct handle k, w') =>
      (sent (product_request handle) w', Some (fetches w', OnProduct k))
  | (AtCart body k, w') =>
      (sent (cart_request body) w', Some (fetches w', OnCart k))
  end.

(** What the event loop is given to do: something the shopper did, or
    the reply to request number [n]. *)
Inductive event :=
| Ui (e : ui_event)
| ProductReply (n : nat) (o : outcome product)
| CartReply (n : nat) (o : outcome unit).

Definition resume (pg : page) (t : task unit) (others : list (nat * parked)) : page :=
  let '(w, p) := advance t (the_world pg) in
  {| the_world := w; waiting := others ++ option_list p |}.

(** The task parked on request [n], taken out of the list. *)
Fixpoint unpark (n : nat) (l : list (nat * parked)) :
    option (parked * list (nat * parked)) :=
  match l with
  | [] => None
  | (m, k) :: l' =>
      if (m =? n)%nat then Some (k, l')
      else match unpark n l' with
           | Some (k', rest) => Some (k', (m, k) :: rest)
           | None => None
           end
  end.

(** One turn of the event loop. *)
Definition turn (pg : page) (ev : event) : page :=
  match ev with
  | Ui e => resume pg (handle e) (waiting pg)
  | ProductReply n o =>
      match unpark n (waiting pg) with
      | Some (OnProduct k, others) => resume pg (k o) others
      | _ => pg
      end
  | CartReply n o =>
      match unpark n (waiting pg) with
      | Some (OnCart k, others) => resume pg (k o) others
      | _ => pg
      end
  end.

Definition play (pg : page) (evs : list event) : page := foldl turn pg evs.

Definition initial_page (sec : option section_el) : page :=
  {| the_world := initial_world sec; waiting := [] |}.

End Script.

(* ===================================================================== *)
(** * Vocabulary of the specification *)
(* ===================================================================== *)

Local Open Scope list_scope.

(** ** Variant Resolver *)

(** The specification's matching rule: every option name of the product
    that has a non-empty entry in the selection map agrees with the
    variant's value in the aligned slot. *)
Definition matches (p : product) (selections : selection) (v : variant) : Prop :=
  forall idx optName want,
    options p !! idx = Some optName ->
    selections !! optName = Some want ->
    truthy want = true ->
    variant_option v idx = want.

(** The predicate [findVariant] passes to [find]. *)
Definition matches_b (p : product) (selections : selection) (v : variant) : bool :=
  every (fun optName idx =>
    let want := sel_get selections optName in
    if negb (truthy want) then true
    else strict_eq (variant_option v idx) want) (options p).

(** ** Money Formatter *)

(** The currency option the formatter is built with. *)
Definition currency_of (env : platform) : option string :=
  match currency_active env with
  | Some c => if JS.str_truthy c then Some c else None
  | None => None
  end.

(** A platform on which [Intl.NumberFormat] always throws. *)
Definition without_intl (env : platform) : platform :=
  {| currency_active := currency_active env;
     intl_format := fun _ _ => None;
     products_js := products_js env;
     cart_add_js := cart_add_js env |}.

(** What [formatMoney] returns, as a function of its input. *)
Definition money (env : platform) (cents : JS.number) : string :=
  match intl_format env (currency_of env) (JS.div cents (JS.of_Z 100)) with
  | Some text => text
  | None => JS.toFixed (JS.div cents (JS.of_Z 100)) 2
  end.

(** A non-negative amount of cents written with two decimals. *)
Definition two_decimals (c : Z) : string :=
  (JS.digits (c / 100) ++ "." ++
   (if (c mod 100 <? 10)%Z then "0" else "") ++ JS.digits (c mod 100))%string.

(** ** Upsell rule and cart requests *)

(** The section a trigger belongs to: the nearest marked ancestor, or else
    the first marked element of the document. *)
Definition enclosing_section (quick : quick_el) (w : world) : option section_el :=
  match closest_section quick with
  | Some sec => Some sec
  | None => doc_section w
  end.

(** The configured upsell id, as the script reads it. *)
Definition configured_upsell (quick : quick_el) (w : world) : option JS.number :=
  match enclosing_section quick w with
  | None => None
  | Some sec =>
      match data_upsell_variant sec with
      | None => None
      | Some v =>
          if JS.str_truthy v
          then (if JS.num_truthy (JS.StringToNumber v)
                then Some (JS.StringToNumber v) else None)
          else None
      end
  end.


(** A cart reply that makes [addToCart] resolve. *)
Definition cart_ok (o : outcome unit) : bool :=
  match o with
  | Response true (Some _) => true
  | _ => false
  end.

(** The exception [addToCart] raises on the other replies. *)
Definition cart_error (o : outcome unit) : string :=
  match o with
  | NetworkError => "TypeError: Failed to fetch"
  | Response false _ => "Cart add failed"
  | Response true _ => "SyntaxError"
  end.

(** The body of the primary request, from the session id and the quantity
    field as they stand when the button is clicked. *)
Definition primary_line (m : modal_el) (vid : string) : cart_line :=
  {| line_id := JS.StringToNumber vid;
     quantity := if JS.str_truthy (cqv_qty m)
                 then JS.StringToNumber (cqv_qty m) else JS.of_Z 1 |}.

Definition upsell_line (u : JS.number) : cart_line :=
  {| line_id := u; quantity := JS.of_Z 1 |}.

(** The option-value half of the upsell rule, for the variant the handler
    looks up under the session id. *)
Definition black_and_medium (p : product) (vid : string) : bool :=
  hasBlack (optionValues (chosenVariant p vid)) &&
  hasMedium (optionValues (chosenVariant p vid)).


(** The modal while the handler is at work. *)
Definition adding (m : modal_el) : modal_el :=
  set_cqv_msg "Adding..." (set_add_disabled true m).

(** The effects a handler added to the trace. *)
Definition effects_since (w w' : world) : list effect :=
  drop (length (trace w)) (trace w').

(** The bodies of the cart-add requests among some effects, in order. *)
Definition cart_adds (es : list effect) : list cart_line :=
  omap (fun e =>
    match e with
    | Fetch url (Some body) =>
        if String.eqb url "/cart/add.js" then Some body else None
    | _ => None
    end) es.

(** ** Scroll lock *)

(** The modal node exists and carries the [open] class. *)
Definition modal_open (w : world) : bool :=
  match modal w with
  | Some m => open m
  | None => false
  end.

(** The page scroll is locked exactly when the modal is open. *)
Definition lock_ok (w : world) : Prop := no_scroll w = modal_open w.

(** A task that, run from page [w], reaches its end or its next await
    with the lock in order, and does so again from wherever it is resumed,
    provided the lock is in order then. *)
Inductive sound_from {A} : task A -> world -> Prop :=
| sound_done r w : lock_ok w -> sound_from (Done r) w
| sound_get k w : sound_from (k w) w -> sound_from (Get k) w
| sound_put w' k w : sound_from k w' -> sound_from (Put w' k) w
| sound_await_product handle k w :
    lock_ok w ->
    (forall o w', lock_ok w' -> sound_from (k o) w') ->
    sound_from (AwaitProduct handle k) w
| sound_await_cart body k w :
    lock_ok w ->
    (forall o w', lock_ok w' -> sound_from (k o) w') ->
    sound_from (AwaitCart body k) w.

Definition sound {A} (t : task A) : Prop :=
  forall w, lock_ok w -> sound_from t w.

(** A parked task that is sound when resumed. *)
Definition sound_parked (p : parked) : Prop :=
  match p with
  | OnProduct k => forall o, sound (k o)
  | OnCart k => forall o, sound (k o)
  end.

(** The lock is in order and every parked task is sound. *)
Definition page_ok (pg : page) : Prop :=
  lock_ok (the_world pg) /\ Forall (fun nk => sound_parked nk.2) (waiting pg).

(** A click that lands on the close button or on the backdrop. *)
Definition close_click : click_target :=
  {| closest_quick := None; closest_close := true |}.

(** ** Pre-seeding against manual clicks *)

(** The variant the pickers are pre-seeded with. *)
Definition initialVariant (p : product) : option variant :=
  match find available (variants p) with
  | Some v => Some v
  | None => head (variants p)
  end.

(** [buildVariantPickers] up to, and without, the pre-selection: the old
    pickers are dropped and one group per option is rendered. *)
Definition render_pickers (p : product) : task unit :=
  update_modal (set_cqv_variants []);;
  update_modal (fun m => set_selections ∅ (set_picker_product (Some p) m));;
  forEach (fun optName optIndex =>
    update_modal (fun m =>
      set_cqv_variants (cqv_variants m ++ [render_group p optName optIndex]) m))
    (options p).

(** The shopper clicks, in the group of [optName], the button that shows
    the value variant [iv] has for that option. *)
Definition manual_click (env : platform) (iv : variant)
    (optName : string) (idx : nat) : task unit :=
  m ← the_modal;
  match querySelector (cqv_variants m) optName
          (String_of (variant_option iv idx)) with
  | Some (gi, bi) => handle env (ClickOption gi bi)
  | None => mret tt
  end.

(** The pickers rendered and then clicked through by hand, option by
    option, with the initial variant's values. *)
Definition manual_build (env : platform) (p : product) : task unit :=
  render_pickers p;;
  match initialVariant p with
  | Some iv => forEach (manual_click env iv) (options p)
  | None => mret tt
  end.

(** What the shopper sees and what the session holds: the price line, the
    title line and [dataset.variantId]. *)
Definition display (w : world) : option (string * string * option string) :=
  (fun m => (cqv_price m, cqv_title m, variantId m)) <$> modal w.


(** The modal after the first half of a button's listener: the row
    re-pressed and the selection written. *)
Definition clicked (gi bi : nat) (btn : button) (m : modal_el) : modal_el :=
  set_selections (<[data_opt btn := val btn]> (selections m))
    (set_cqv_variants (alter (press bi) gi (cqv_variants m)) m).

(** The modal showing variant [v] of product [p]. *)
Definition shown (env : platform) (p : product) (v : variant) (m : modal_el) : modal_el :=
  set_cqv_title
    (product_title p ++
     (if truthy (title v) then " — " ++ String_of (title v) else ""))%string
    (set_cqv_price (money env (price v))
       (set_variantId (Some (JS.toString (id v))) m)).

(** The second half of the listener: show what the selection resolves to. *)
Definition resolved (env : platform) (p : product) (m : modal_el) : modal_el :=
  match findVariant p (selections m) with
  | Some v => shown env p v m
  | None => m
  end.

(** The attributes and values of the buttons, without their pressed state. *)
Definition button_key (b : button) : string * string * optval :=
  (data_opt b, data_val b, val b).

Definition skeleton (gs : list group) : list (list (string * string * optval)) :=
  map (fun g => map button_key (buttons g)) gs.

(** The groups [buildVariantPickers] renders, one per option. *)
Fixpoint rendered_from (p : product) (i : nat) (opts : list string) : list group :=
  match opts with
  | [] => []
  | optName :: opts' => render_group p optName i :: rendered_from p (S i) opts'
  end.

Definition rendered (p : product) : list group := rendered_from p 0 (options p).


(** A page whose modal holds the pickers of product [p]. *)
Definition ready (p : product) (w : world) : Prop :=
  exists m, modal w = Some m /\ picker_product m = Some p /\
            skeleton (cqv_variants m) = skeleton (rendered p).

(** ** Markup stripping *)

(** Character [c] occurs in the string. *)
Fixpoint mentions (c : ascii) (s : string) : bool :=
  match s with
  | EmptyString => false
  | String d s' => Ascii.eqb d c || mentions c s'
  end.

(** Nothing in the string starts a match of the tag pattern: every [<] is
    directly followed by [>], or is the last character. *)
Fixpoint settled (s : string) : bool :=
  match s with
  | EmptyString => true
  | String c s' =>
      (if Ascii.eqb c "<" then
         match s' with
         | EmptyString => true
         | String d _ => Ascii.eqb d ">"
         end
       else true) && settled s'
  end.

(** ** Selections that say the same *)


(** The values the variants hold in slot [idx], in variant order. *)
Definition slot_values (p : product) (idx : nat) : list optval :=
  map (fun v => variant_option v idx) (variants p).

(** ** What the pickers leave alone *)

(** The part of the modal that neither the picker builder nor an option
    button writes. *)
Definition surroundings (m : modal_el) :=
  (open m, cqv_desc m, img_src m, img_alt m, cqv_qty m, add_disabled m,
   cqv_msg m, onclick m).

(** The groups as built: titles and button attributes, without the
    pressed state. *)
Definition layout (gs : list group) :
    list (string * list (string * string * optval)) :=
  map (fun g => (group_title g, map button_key (buttons g))) gs.

(** A group without buttons. *)
Definition bare_group (optName : string) : group :=
  {| group_title := optName; buttons := [] |}.

(** ** Showing a product *)

(** The description line: the product's description without its tags. *)
Definition described (p : product) : string :=
  if truthy (description p) then strip_tags (String_of (description p)) else "".

(** The image source: the first image, or else the featured image. *)
Definition pictured (p : product) : string :=
  let imageUrl :=
    match images p with
    | u :: _ => Str u
    | [] => featured_image p
    end in
  if truthy imageUrl then String_of imageUrl else "".

(** The title line while variant [v] is shown. *)
Definition titled (p : product) (v : variant) : string :=
  (product_title p ++
   (if truthy (title v) then " — " ++ String_of (title v) else ""))%string.

(** The click listener from the product's arrival on: the modal is
    filled, the pickers are built, the add handler is set, the modal is
    opened. *)
Definition show_product (env : platform) (p : product) (quick : quick_el) :
    task unit :=
  ensureModal;;
  update_modal (set_cqv_title (product_title p));;
  update_modal (set_cqv_desc
    (if truthy (description p)
     then strip_tags (String_of (description p)) else ""));;
  let imageUrl :=
    match images p with
    | u :: _ => Str u
    | [] => featured_image p
    end in
  update_modal (set_img_src
    (if truthy imageUrl then String_of imageUrl else ""));;
  update_modal (set_img_alt (product_title p));;
  buildVariantPickers env p;;
  update_modal (set_onclick (Some (p, quick)));;
  openModal.

(** The click listener from the reply to its product request on. *)
Definition on_product_reply (env : platform) (quick : quick_el)
    (res : outcome product) : task unit :=
  try_catch
    (match res with
     | NetworkError => throw "TypeError: Failed to fetch"
     | Response ok json =>
         if negb ok then throw "Product fetch failed"
         else match json with
              | None => throw "SyntaxError"
              | Some p => show_product env p quick
              end
     end)
    (fun err =>
       emit (ConsoleError err);;
       emit (Alert "Unable to load product.")).

(** The product a reply delivers, and the exception the listener raises
    on the replies that deliver none. *)
Definition product_of (o : outcome product) : option product :=
  match o with
  | Response true (Some p) => Some p
  | _ => None
  end.

Definition product_error (o : outcome product) : string :=
  match o with
  | NetworkError => "TypeError: Failed to fetch"
  | Response false _ => "Product fetch failed"
  | Response true _ => "SyntaxError"
  end.

(** The modal presents product [p], loaded from trigger [quick]: its
    texts, image, pickers and add handler all belong to [p]. *)
Definition presents (p : product) (quick : quick_el) (m : modal_el) : Prop :=
  cqv_desc m = described p /\
  img_src m = pictured p /\
  img_alt m = product_title p /\
  (cqv_title m = product_title p \/
   exists v, v ∈ variants p /\ cqv_title m = titled p v) /\
  layout (cqv_variants m) = layout (rendered p) /\
  picker_product m = Some p /\
  onclick m = Some (p, quick).

(** The price line and the session variant id are those of one variant
    of [p]; a product without variants has no say on them. *)
Definition priced (env : platform) (p : product) (m : modal_el) : Prop :=
  variants p = [] \/
  exists v, v ∈ variants p /\
            variantId m = Some (JS.toString (id v)) /\
            cqv_price m = money env (price v).

(** Whatever the modal holds belongs to one product, the one it was last
    filled with, and what it says of a variant belongs to one variant. *)
Definition coherent (env : platform) (w : world) : Prop :=
  forall m, modal w = Some m ->
    exists p quick, presents p quick m /\ priced env p m.

(** A task that sends no request on any path. *)
Inductive await_free {A} : task A -> Prop :=
| free_done r : await_free (Done r)
| free_get k : (forall w, await_free (k w)) -> await_free (Get k)
| free_put w k : await_free k -> await_free (Put w k).

(** The modal with the texts and the image of [p] written into it. *)
Definition filled (p : product) (m : modal_el) : modal_el :=
  set_img_alt (product_title p)
    (set_img_src (pictured p)
       (set_cqv_desc (described p)
          (set_cqv_title (product_title p) m))).

(** The page shows product [p] in an open modal, the scroll locked. *)
Definition showing (p : product) (quick : quick_el) (w : world) : Prop :=
  exists m, modal w = Some m /\ open m = true /\ no_scroll w = true /\
            presents p quick m.

(** What the listener does on a reply that delivers no product. *)
Definition load_failure (o : outcome product) : list effect :=
  [ConsoleError (product_error o); Alert "Unable to load product."].

(** A click that lands on trigger [quick], whose handle is [h]. *)
Definition lands_on (ev : click_target) (quick : quick_el) (h : string) : Prop :=
  closest_quick ev = Some quick /\ data_handle quick = Some h /\ h <> "".

(** ** What lasts through the turns of the event loop *)

(** A relation between the page at the start of a stretch of script and
    the page at its end that can be followed through the turns: it
    composes, and it holds between pages with the same modal and the same
    grid section. *)
Class Lasting (R : world -> world -> Prop) : Prop := {
  lasting_trans : forall w1 w2 w3, R w1 w2 -> R w2 w3 -> R w1 w3;
  lasting_outside : forall w w',
    modal w' = modal w -> doc_section w' = doc_section w -> R w w'
}.

(** Task [t], at page [w] of a stretch begun at page [w0], ends the
    stretch (at its end or at its next request) on a page related to
    [w0]; and so does each later stretch from the page it is resumed on. *)
Inductive stretch_from {A} (R : world -> world -> Prop) :
    task A -> world -> world -> Prop :=
| stretch_done r w0 w : R w0 w -> stretch_from R (Done r) w0 w
| stretch_get k w0 w : stretch_from R (k w) w0 w -> stretch_from R (Get k) w0 w
| stretch_put w' k w0 w : stretch_from R k w0 w' -> stretch_from R (Put w' k) w0 w
| stretch_product h k w0 w :
    R w0 w ->
    (forall o w', stretch_from R (k o) w' w') ->
    stretch_from R (AwaitProduct h k) w0 w
| stretch_cart b k w0 w :
    R w0 w ->
    (forall o w', stretch_from R (k o) w' w') ->
    stretch_from R (AwaitCart b k) w0 w.

Definition stretches {A} (R : world -> world -> Prop) (t : task A) : Prop :=
  forall w, stretch_from R t w w.

Definition parked_stretches (R : world -> world -> Prop) (p : parked) : Prop :=
  match p with
  | OnProduct k => forall o, stretches R (k o)
  | OnCart k => forall o, stretches R (k o)
  end.

(** The modal node, once there, is still there, and the grid section is
    the same. *)
Definition gentle (w w' : world) : Prop :=
  (modal w <> None -> modal w' <> None) /\ doc_section w' = doc_section w.

#[global] Instance gentle_lasting : Lasting gentle.
Proof.
  split.
  - intros w1 w2 w3 [H1 E1] [H2 E2]. split; [auto | congruence].
  - intros w w' Hm Hs. split; [congruence | exact Hs].
Qed.

Definition keeps_coherent (env : platform) (w w' : world) : Prop :=
  coherent env w -> coherent env w'.

#[global] Instance keeps_coherent_lasting env : Lasting (keeps_coherent env).
Proof.
  split.
  - intros w1 w2 w3 H1 H2 H. auto.
  - intros w w' Hm _ H m. rewrite Hm. apply H.
Qed.

(** ** What the pre-selection presses *)



(** The state of the pickers: the groups with their pressed buttons, the
    selection object, and the product the listeners resolve against. *)
Definition pickers (m : modal_el) :=
  (cqv_variants m, selections m, picker_product m).

(** ** Variant ids on the wire: vocabulary *)

(** A string of decimal digits. *)
Fixpoint numeral (s : string) : Prop :=
  match s with
  | EmptyString => True
  | String c s' =>
      (c ∈ ["0"; "1"; "2"; "3"; "4"; "5"; "6"; "7"; "8"; "9"]%char) /\ numeral s'
  end.

(** ** A small shop, for examples *)

Module Demo.

Definition tee_variant (n : Z) (color size : string) (stock : bool) : variant :=
  {| id := JS.of_Z n; title := Str (color ++ " / " ++ size)%string;
     price := JS.of_Z 1999; available := stock;
     option1 := Str color; option2 := Str size; option3 := Null |}.

Definition tee : product :=
  {| product_title := "Tee"; description := Str "<p>Plain tee</p>";
     images := []; featured_image := Null;
     options := ["Color"; "Size"]%string;
     variants := [tee_variant 101 "White" "Small" false;
                  tee_variant 102 "Black" "Medium" true;
                  tee_variant 103 "Black" "Small" true] |}.

(** A platform without locale data whose endpoints always succeed. *)
Definition shop : platform :=
  {| currency_active := None;
     intl_format := fun _ _ => None;
     products_js := fun _ _ => Response true (Some tee);
     cart_add_js := fun _ _ => Response true (Some tt) |}.

(** The same platform with the cart endpoint down. *)
Definition shop_cart_down : platform :=
  {| currency_active := None;
     intl_format := fun _ _ => None;
     products_js := fun _ _ => Response true (Some tee);
     cart_add_js := fun _ _ => NetworkError |}.

(** The same platform where only the second cart request fails. *)
Definition shop_upsell_down : platform :=
  {| currency_active := None;
     intl_format := fun _ _ => None;
     products_js := fun _ _ => Response true (Some tee);
     cart_add_js := fun n _ => if (n =? 0)%nat then Response true (Some tt)
                               else Response false None |}.

Definition grid : section_el := {| data_upsell_variant := Some "999" |}.

Definition tile : quick_el :=
  {| data_handle := Some "tee"; closest_section := Some grid |}.

Definition tile_without_handle : quick_el :=
  {| data_handle := None; closest_section := Some grid |}.

(** The modal with a session variant id and the default quantity. *)
Definition session (vid : option string) : modal_el :=
  set_variantId vid (set_open true fresh_modal).

Definition page (vid : option string) : world :=
  {| modal := Some (session vid); no_scroll := true; doc_section := None;
     trace := []; fetches := 0 |}.

(** A page on which [ensureModal] has run. *)
Definition blank : world :=
  {| modal := Some fresh_modal; no_scroll := false; doc_section := None;
     trace := []; fetches := 0 |}.


(** Three more products off the data invariants: two variants with the
    same option value, no option at all, and one option name used twice. *)
Definition twins : product :=
  {| product_title := "Tee"; description := Null;
     images := []; featured_image := Null;
     options := ["Color"]%string;
     variants :=
       [{| id := JS.of_Z 1; title := Str "First"; price := JS.of_Z 1000;
           available := false;
           option1 := Str "Red"; option2 := Null; option3 := Null |};
        {| id := JS.of_Z 2; title := Str "Second"; price := JS.of_Z 2000;
           available := true;
           option1 := Str "Red"; option2 := Null; option3 := Null |}] |}.

Definition bare : product :=
  {| product_title := "Tee"; description := Null;
     images := []; featured_image := Null;
     options := [];
     variants :=
       [{| id := JS.of_Z 1; title := Null; price := JS.of_Z 1000;
           available := true;
           option1 := Null; option2 := Null; option3 := Null |}] |}.

Definition echo : product :=
  {| product_title := "Tee"; description := Null;
     images := []; featured_image := Null;
     options := ["Color"; "Color"]%string;
     variants :=
       [{| id := JS.of_Z 1; title := Str "Red / M"; price := JS.of_Z 1000;
           available := true;
           option1 := Str "Red"; option2 := Str "M"; option3 := Null |}] |}.



(** A click on a quick-view tile. *)
Definition tile_click (quick : quick_el) : click_target :=
  {| closest_quick := Some quick; closest_close := false |}.

(** The cart requests a click on the add button makes, on a page whose
    session holds variant [vid]. *)
Definition adds (env : platform) (p : product) (vid : string) : list cart_line :=
  cart_adds (trace (step env
    {| modal := Some (set_onclick (Some (p, tile)) (session (Some vid)));
       no_scroll := true; doc_section := None; trace := []; fetches := 0 |}
    ClickAdd)).

Definition line (n q : Z) : cart_line :=
  {| line_id := JS.of_Z n; quantity := JS.of_Z q |}.

Definition blackout : product :=
  {| product_title := "Curtain"; description := Null;
     images := []; featured_image := Null;
     options := ["Style"; "Size"]%string;
     variants := [tee_variant 7 "Blackout" "Medium-ish" true] |}.

(** A second product and its tile, and two clicks whose replies cross. *)
Definition mug : product :=
  {| product_title := "Mug"; description := Null;
     images := []; featured_image := Null;
     options := ["Size"]%string;
     variants :=
       [{| id := JS.of_Z 201; title := Str "Large"; price := JS.of_Z 1250;
           available := true;
           option1 := Str "Large"; option2 := Null; option3 := Null |}] |}.

Definition mug_tile : quick_el :=
  {| data_handle := Some "mug"; closest_section := None |}.

Definition crossed : list event :=
  [Ui (Click (tile_click tile));
   Ui (Click (tile_click mug_tile));
   ProductReply 1 (Response true (Some mug));
   ProductReply 0 (Response true (Some tee))].

(** Escape pressed while the product is still loading. *)
Definition escape_early : list event :=
  [Ui (Click (tile_click tile));
   Ui (KeyDown "Escape");
   ProductReply 0 (Response true (Some tee))].

(** A product without variants, loaded after the tee was shown and closed. *)
Definition ghost : product :=
  {| product_title := "Ghost"; description := Null;
     images := []; featured_image := Null;
     options := []; variants := [] |}.

Definition ghost_tile : quick_el :=
  {| data_handle := Some "ghost"; closest_section := None |}.

Definition tee_then_ghost : list event :=
  [Ui (Click (tile_click tile));
   ProductReply 0 (Response true (Some tee));
   Ui (Click close_click);
   Ui (Click (tile_click ghost_tile));
   ProductReply 1 (Response true (Some ghost))].

(** The page once the tee's tile was clicked and the product shown, its
    modal, the row of colours and the button of the first colour. *)
Definition opened : world :=
  step shop (initial_world None) (Click (tile_click tile)).

Definition opened_modal : modal_el := default fresh_modal (modal opened).

Definition color_row : group :=
  default (bare_group "") (cqv_variants opened_modal !! 0%nat).

Definition white_button : button :=
  default {| data_opt := ""; data_val := ""; val := Undefined;
             aria_pressed := false |}
          (buttons color_row !! 0%nat).

Definition opened_page := {| the_world := opened; waiting := [] |}.

(** That page after a click on the first colour. *)
Definition tried : world := step shop opened (ClickOption 0 0).

Definition tried_modal : modal_el := default fresh_modal (modal tried).

(** The modal after the crossed replies. *)
Definition crossed_modal : modal_el :=
  default fresh_modal
    (modal (the_world (play shop (initial_page None) crossed))).

(** The platform with the product endpoint down, and the one whose cart
    endpoint answers with a body that is no JSON. *)
Definition shop_down : platform :=
  {| currency_active := None;
     intl_format := fun _ _ => None;
     products_js := fun _ _ => NetworkError;
     cart_add_js := fun _ _ => Response true (Some tt) |}.

Definition shop_garbled : platform :=
  {| currency_active := None;
     intl_format := fun _ _ => None;
     products_js := fun _ _ => Response true (Some tee);
     cart_add_js := fun _ _ => Response true None |}.


Definition purple : selection := {[ "Color" := Str "Purple" ]}.

Definition shown_and_closed : list event :=
  [Ui (Click (tile_click tile));
   ProductReply 0 (Response true (Some tee))].

End Demo.

(* ===================================================================== *)
(** * Variant Resolver *)
(* ===================================================================== *)

Section Resolver.

Lemma every_from_spec {A} (f : A -> nat -> bool) (l : list A) (i : nat) :
  every_from f i l = true <->
  forall j x, l !! j = Some x -> f x (i + j)%nat = true.
Proof.
  revert i. induction l as [|a l IH]; intros i; simpl.
  - split; [intros _ j x Hj; discriminate | reflexivity].
  - rewrite andb_true_iff, IH. split.
    + intros [Ha Hl] [|j] x Hj; simpl in Hj.
      * injection Hj as <-. now rewrite Nat.add_0_r.
      * rewrite <- Nat.add_succ_comm. now apply Hl.
    + intros H. split.
      * rewrite <- (Nat.add_0_r i). now apply (H 0%nat).
      * intros j x Hj. rewrite Nat.add_succ_comm. now apply (H (S j)).
Qed.

Lemma matches_b_spec p selections v :
  matches_b p selections v = true <-> matches p selections v.
Proof.
  unfold matches_b, every, matches. rewrite every_from_spec. simpl. split.
  - intros H idx optName want Hidx Hsel Hwant.
    specialize (H idx optName Hidx). unfold sel_get in H.
    rewrite Hsel in H. simpl in H. rewrite Hwant in H. simpl in H.
    unfold strict_eq in H. now apply bool_decide_eq_true in H.
  - intros H idx optName Hidx. unfold sel_get.
    destruct (selections !! optName) as [want|] eqn:Hsel; simpl; [|reflexivity].
    destruct (truthy want) eqn:Hwant; simpl; [|reflexivity].
    unfold strict_eq. apply bool_decide_eq_true. eauto.
Qed.


Lemma find_none {A} (f : A -> bool) (l : list A) :
  find f l = None <-> forall y, y ∈ l -> f y = false.
Proof.
  induction l as [|a l IH]; simpl.
  - split; [intros _ y Hy; inversion Hy | reflexivity].
  - destruct (f a) eqn:Ha.
    + split; [discriminate|]. intros H. rewrite H in Ha; [discriminate|left].
    + rewrite IH. split.
      * intros H y Hy. apply elem_of_cons in Hy as [->|Hy]; auto.
      * intros H y Hy. apply H. now right.
Qed.

Lemma findVariant_unfold p selections :
  findVariant p selections = find (matches_b p selections) (variants p).
Proof. reflexivity. Qed.


End Resolver.

(* ===================================================================== *)
(** * Money Formatter *)
(* ===================================================================== *)

Section Money.

(** The formatter is a task that has already returned. *)
Lemma formatMoney_done env cents :
  formatMoney env cents = mret (money env cents).
Proof.
  unfold formatMoney, money, currency_of.
  destruct (intl_format env _ _); reflexivity.
Qed.

(** C7. [formatMoney] never throws, whatever the platform's formatter does
    and whatever number it is given: it returns the formatter's text when
    there is one and otherwise the input divided by 100 at two fixed
    decimals; with no usable formatter, 1999 gives "19.99". *)
Theorem formatMoney_never_throws :
  (forall env cents, exists text, formatMoney env cents = Done (Ok text)) /\
  (forall env cents,
     formatMoney env cents =
     Done (Ok (default (JS.toFixed (JS.div cents (JS.of_Z 100)) 2)
                 (intl_format env (currency_of env) (JS.div cents (JS.of_Z 100)))))) /\
  (forall env cents,
     formatMoney (without_intl env) cents =
     Done (Ok (JS.toFixed (JS.div cents (JS.of_Z 100)) 2))) /\
  (forall env, formatMoney (without_intl env) (JS.of_Z 1999) = Done (Ok "19.99")).
Proof.
  split; [|split; [|split]].
  - intros env cents. exists (money env cents). apply formatMoney_done.
  - intros env cents. rewrite formatMoney_done. unfold money.
    destruct (intl_format env _ _); reflexivity.
  - intros env cents. now rewrite formatMoney_done.
  - intros env. rewrite formatMoney_done. vm_compute. reflexivity.
Qed.

End Money.

(* ===================================================================== *)
(** * Running tasks *)
(* ===================================================================== *)

Section Exec.

Variable env : platform.

Lemma bind_run {A B} (t : task A) (f : A -> task B) (w : world) :
  exec env (t ≫= f) w =
  match exec env t w with
  | (Ok a, w') => exec env (f a) w'
  | (Throw e, w') => (Throw e, w')
  end.
Proof.
  revert w. induction t as [[a|e]|k IH|w' k IH|h k IH|b k IH]; intros w;
    try reflexivity; cbn; auto.
Qed.

Lemma try_catch_run {A} (body : task A) handler w :
  exec env (try_catch body handler) w =
  match exec env body w with
  | (Ok a, w') => (Ok a, w')
  | (Throw e, w') => exec env (handler e) w'
  end.
Proof.
  revert w. induction body as [[a|e]|k IH|w' k IH|h k IH|b k IH]; intros w;
    try reflexivity; cbn; auto.
Qed.

Lemma ret_run {A} (a : A) (w : world) : exec env (mret a) w = (Ok a, w).
Proof. reflexivity. Qed.

Lemma throw_run {A} e w : exec env (throw (A := A) e) w = (Throw e, w).
Proof. reflexivity. Qed.

Lemma get_world_run w : exec env get_world w = (Ok w, w).
Proof. reflexivity. Qed.

Lemma modify_run f w : exec env (modify f) w = (Ok tt, f w).
Proof. reflexivity. Qed.

Lemma emit_run e w :
  exec env (emit e) w = (Ok tt, set_trace (trace w ++ [e]) w).
Proof. reflexivity. Qed.

Lemma the_modal_run w m :
  modal w = Some m -> exec env the_modal w = (Ok m, w).
Proof. intros H. cbn. now rewrite H. Qed.

Lemma update_modal_run f w m :
  modal w = Some m ->
  exec env (update_modal f) w = (Ok tt, set_modal (Some (f m)) w).
Proof. intros H. cbn. rewrite H. cbn. now rewrite H. Qed.

Lemma update_modal_null f w :
  modal w = None -> exec env (update_modal f) w = (Throw "TypeError", w).
Proof. intros H. cbn. now rewrite H. Qed.

Lemma fetch_product_run handle w :
  exec env (fetch_product handle) w =
  (Ok (products_js env (fetches w) handle), sent (product_request handle) w).
Proof. reflexivity. Qed.

Lemma fetch_cart_add_run body w :
  exec env (fetch_cart_add body) w =
  (Ok (cart_add_js env (fetches w) body), sent (cart_request body) w).
Proof. reflexivity. Qed.

Lemma formatMoney_run cents w :
  exec env (formatMoney env cents) w = (Ok (money env cents), w).
Proof. now rewrite formatMoney_done. Qed.

End Exec.

(** Projections of updated records, and nothing else. *)
Ltac fields :=
  cbn [modal no_scroll doc_section trace fetches
       set_modal set_no_scroll set_trace set_fetches sent
       open cqv_title cqv_price cqv_desc img_src img_alt cqv_variants cqv_qty
       add_disabled cqv_msg variantId picker_product selections onclick
       set_open set_cqv_title set_cqv_price set_cqv_desc set_img_src
       set_img_alt set_cqv_variants set_cqv_qty set_add_disabled set_cqv_msg
       set_variantId set_picker_product set_selections set_onclick
       fst snd negb] in *.

Ltac side := fields; first [eassumption | reflexivity].

(** Symbolic execution of a task on a page. *)
Ltac exec_with tac :=
  repeat first
    [ rewrite bind_run
    | rewrite ret_run
    | rewrite try_catch_run
    | rewrite emit_run
    | rewrite modify_run
    | rewrite get_world_run
    | rewrite throw_run
    | rewrite fetch_product_run
    | rewrite fetch_cart_add_run
    | erewrite update_modal_run by side
    | erewrite the_modal_run by side
    | tac
    | progress fields ].

Ltac run_task := unfold dispatch; exec_with fail.

(* ===================================================================== *)
(** * Running a task up to its next request *)
(* ===================================================================== *)

Section Segments.

Lemma until_bind {A B} (t : task A) (f : A -> task B) (w : world) :
  until_await (t ≫= f) w =
  match until_await t w with
  | (Ended (Ok a), w') => until_await (f a) w'
  | (Ended (Throw e), w') => (Ended (Throw e), w')
  | (AtProduct handle k, w') => (AtProduct handle (fun o => k o ≫= f), w')
  | (AtCart body k, w') => (AtCart body (fun o => k o ≫= f), w')
  end.
Proof.
  revert w. induction t as [[a|e]|k IH|w' k IH|h k IH|b k IH]; intros w;
    try reflexivity; cbn; auto.
Qed.

Lemma until_try_catch {A} (body : task A) handler w :
  until_await (try_catch body handler) w =
  match until_await body w with
  | (Ended (Ok a), w') => (Ended (Ok a), w')
  | (Ended (Throw e), w') => until_await (handler e) w'
  | (AtProduct handle k, w') =>
      (AtProduct handle (fun o => try_catch (k o) handler), w')
  | (AtCart b k, w') => (AtCart b (fun o => try_catch (k o) handler), w')
  end.
Proof.
  revert w. induction body as [[a|e]|k IH|w' k IH|h k IH|b k IH]; intros w;
    try reflexivity; cbn; auto.
Qed.

Lemma until_ret {A} (a : A) w : until_await (mret a) w = (Ended (Ok a), w).
Proof. reflexivity. Qed.

Lemma until_done {A} (r : result A) w : until_await (Done r) w = (Ended r, w).
Proof. reflexivity. Qed.

Lemma until_throw {A} e w :
  until_await (throw (A := A) e) w = (Ended (Throw e), w).
Proof. reflexivity. Qed.

Lemma until_get_world w : until_await get_world w = (Ended (Ok w), w).
Proof. reflexivity. Qed.

Lemma until_emit e w :
  until_await (emit e) w = (Ended (Ok tt), set_trace (trace w ++ [e]) w).
Proof. reflexivity. Qed.

Lemma until_the_modal w m :
  modal w = Some m -> until_await the_modal w = (Ended (Ok m), w).
Proof. intros H. cbn. now rewrite H. Qed.

Lemma until_update_modal f w m :
  modal w = Some m ->
  until_await (update_modal f) w = (Ended (Ok tt), set_modal (Some (f m)) w).
Proof. intros H. cbn. rewrite H. cbn. now rewrite H. Qed.

Lemma until_fetch_cart_add body w :
  until_await (fetch_cart_add body) w = (AtCart body (fun o => Done (Ok o)), w).
Proof. reflexivity. Qed.

End Segments.

(** Symbolic execution up to the next request. *)
Ltac segment :=
  repeat first
    [ rewrite until_bind
    | rewrite until_ret
    | rewrite until_done
    | rewrite until_try_catch
    | rewrite until_emit
    | rewrite until_get_world
    | rewrite until_throw
    | rewrite until_fetch_cart_add
    | erewrite until_update_modal by side
    | erewrite until_the_modal by side
    | progress fields ].

(* ===================================================================== *)
(** * Upsell configuration *)
(* ===================================================================== *)

Section Upsell.

Variable env : platform.

Lemma getUpsellVariantIdFromSection_run quick w :
  exec env (getUpsellVariantIdFromSection quick) w =
  (Ok (configured_upsell quick w), w).
Proof.
  unfold getUpsellVariantIdFromSection, findGridSection, configured_upsell,
    enclosing_section.
  run_task.
  destruct (closest_section quick) as [sec|]; [|destruct (doc_section w) as [sec|]];
    try reflexivity;
    (destruct (data_upsell_variant sec) as [v|]; [|reflexivity];
     destruct (JS.str_truthy v); reflexivity).
Qed.

Lemma until_getUpsellVariantIdFromSection quick w :
  until_await (getUpsellVariantIdFromSection quick) w =
  (Ended (Ok (configured_upsell quick w)), w).
Proof.
  unfold getUpsellVariantIdFromSection, findGridSection, configured_upsell,
    enclosing_section.
  segment.
  destruct (closest_section quick) as [sec|]; [|destruct (doc_section w) as [sec|]];
    try reflexivity;
    (destruct (data_upsell_variant sec) as [v|]; [|reflexivity];
     destruct (JS.str_truthy v); reflexivity).
Qed.


End Upsell.
(* ===================================================================== *)
(** * Cart Gateway and the add button *)
(* ===================================================================== *)

Section AddToCart.

Variable env : platform.

Lemma addToCart_run a b w :
  exec env (addToCart a b) w =
  let body := {| line_id := Number a; quantity := Number b |} in
  let w' := sent (cart_request body) w in
  let o := cart_add_js env (fetches w) body in
  (if cart_ok o then Ok tt else Throw (cart_error o), w').
Proof.
  unfold addToCart. run_task.
  destruct (cart_add_js env (fetches w) _) as [|[] []]; reflexivity.
Qed.

Lemma primary_line_eq m vid :
  {| line_id := Number (PStr vid);
     quantity := Number (if JS.str_truthy (cqv_qty m) then PStr (cqv_qty m)
                         else PNum (JS.of_Z 1)) |} = primary_line m vid.
Proof. unfold primary_line. now destruct (JS.str_truthy (cqv_qty m)). Qed.

(** No session variant id: nothing is sent. *)
Lemma add_onclick_no_variant p quick w m :
  modal w = Some m ->
  variantId m = None \/ variantId m = Some "" ->
  exec env (add_onclick p quick) w =
  (Ok tt, set_modal (Some (set_add_disabled false
                      (set_cqv_msg "Please select variant" (adding m)))) w).
Proof.
  intros Hm Hv. unfold add_onclick. run_task.
  destruct Hv as [-> | ->]; run_task; reflexivity.
Qed.

(** The primary add fails. *)
Lemma add_onclick_primary_fails p quick w m vid :
  modal w = Some m ->
  variantId m = Some vid -> vid <> "" ->
  cart_ok (cart_add_js env (fetches w) (primary_line m vid)) = false ->
  exec env (add_onclick p quick) w =
  (Ok tt,
   {| modal := Some (set_add_disabled false
                (set_cqv_msg "Could not add to cart. Try again." (adding m)));
      no_scroll := no_scroll w;
      doc_section := doc_section w;
      trace := trace w ++
        [cart_request (primary_line m vid);
         ConsoleError (cart_error (cart_add_js env (fetches w) (primary_line m vid)))];
      fetches := S (fetches w) |}).
Proof.
  intros Hm Hv Hne Hok. unfold add_onclick. run_task. rewrite Hv.
  destruct vid as [|c vid]; [congruence|].
  exec_with ltac:(rewrite addToCart_run; cbv zeta; rewrite primary_line_eq).
  rewrite Hok. run_task. rewrite <- app_assoc. reflexivity.
Qed.

(** The primary add succeeds. *)
Lemma add_onclick_primary_ok p quick w m vid :
  modal w = Some m ->
  variantId m = Some vid -> vid <> "" ->
  cart_ok (cart_add_js env (fetches w) (primary_line m vid)) = true ->
  exec env (add_onclick p quick) w =
  (Ok tt,
   match black_and_medium p vid, configured_upsell quick w with
   | true, Some u =>
       {| modal := Some (adding m);
          no_scroll := no_scroll w;
          doc_section := doc_section w;
          trace := trace w ++
            cart_request (primary_line m vid) :: cart_request (upsell_line u) ::
            (if cart_ok (cart_add_js env (S (fetches w)) (upsell_line u))
             then [] else [ConsoleWarn "Upsell add failed"]) ++
            [Navigate "/cart"];
          fetches := S (S (fetches w)) |}
   | _, _ =>
       {| modal := Some (adding m);
          no_scroll := no_scroll w;
          doc_section := doc_section w;
          trace := trace w ++ [cart_request (primary_line m vid); Navigate "/cart"];
          fetches := S (fetches w) |}
   end).
Proof.
  intros Hm Hv Hne Hok. unfold add_onclick. run_task. rewrite Hv.
  destruct vid as [|c vid]; [congruence|].
  exec_with ltac:(rewrite addToCart_run; cbv zeta; rewrite primary_line_eq).
  rewrite Hok. run_task. rewrite getUpsellVariantIdFromSection_run.
  unfold configured_upsell at 1, enclosing_section. fields.
  fold (enclosing_section quick w). fold (configured_upsell quick w).
  unfold black_and_medium.
  destruct (hasBlack _ && hasMedium _), (configured_upsell quick w) as [u|];
    run_task; rewrite <- ?app_assoc; try reflexivity.
  rewrite addToCart_run. cbv zeta. cbn [Number]. fold (upsell_line u). fields.
  destruct (cart_ok (cart_add_js env (S (fetches w)) (upsell_line u)));
    run_task; rewrite <- ?app_assoc; reflexivity.
Qed.

(** The handler in three stretches: up to the primary request, from its
    reply to the upsell request or the end, and from the upsell reply to
    the end.  The page a stretch resumes on is whatever the other handlers
    have made of it in the meantime. *)
Lemma add_onclick_segments p quick w m vid :
  modal w = Some m ->
  variantId m = Some vid -> vid <> "" ->
  exists k1,
    until_await (add_onclick p quick) w =
      (AtCart (primary_line m vid) k1, set_modal (Some (adding m)) w) /\
    forall o1 w1 m1,
      modal w1 = Some m1 ->
      (cart_ok o1 = false ->
         until_await (k1 o1) w1 =
         (Ended (Ok tt),
          set_modal (Some (set_add_disabled false
                       (set_cqv_msg "Could not add to cart. Try again." m1)))
            (set_trace (trace w1 ++ [ConsoleError (cart_error o1)]) w1))) /\
      (cart_ok o1 = true ->
         black_and_medium p vid = false \/ configured_upsell quick w1 = None ->
         until_await (k1 o1) w1 =
         (Ended (Ok tt), set_trace (trace w1 ++ [Navigate "/cart"]) w1)) /\
      (cart_ok o1 = true ->
         black_and_medium p vid = true ->
         forall u, configured_upsell quick w1 = Some u ->
         exists k2,
           until_await (k1 o1) w1 = (AtCart (upsell_line u) k2, w1) /\
           forall o2 w2,
             until_await (k2 o2) w2 =
             (Ended (Ok tt),
              set_trace (trace w2 ++
                         (if cart_ok o2 then [] else [ConsoleWarn "Upsell add failed"]) ++
                         [Navigate "/cart"]) w2)).
Proof.
  intros Hm Hv Hne. unfold add_onclick. segment. rewrite Hv.
  destruct vid as [|c vid]; [congruence|].
  unfold addToCart. segment. rewrite primary_line_eq.
  eexists. split; [reflexivity|].
  intros o1 w1 m1 Hm1. cbn beta. segment.
  fold (black_and_medium p (String c vid)).
  split; [|split].
  - intros Hok. destruct o1 as [|[] []]; try discriminate; segment; reflexivity.
  - intros Hok Hno. destruct o1 as [|[] []]; try discriminate. segment.
    rewrite until_getUpsellVariantIdFromSection.
    destruct Hno as [-> | ->]; [|destruct (black_and_medium _ _)];
      segment; reflexivity.
  - intros Hok Hbm u Hu. destruct o1 as [|[] []]; try discriminate. segment.
    rewrite until_getUpsellVariantIdFromSection, Hbm, Hu. segment.
    cbn [Number]. fold (upsell_line u).
    eexists. split; [reflexivity|].
    intros o2 w2. cbn beta. segment.
    destruct o2 as [|[] []]; segment; rewrite <- ?app_assoc; reflexivity.
Qed.

End AddToCart.

(* ===================================================================== *)
(** * Substring containment *)
(* ===================================================================== *)

Section Strings.

Lemma append_cons c (s t : string) :
  (String c s ++ t)%string = String c (s ++ t)%string.
Proof. reflexivity. Qed.

Lemma append_nil (t : string) : ("" ++ t)%string = t.
Proof. reflexivity. Qed.



End Strings.

(* ===================================================================== *)
(** * The add button: upsell rule, failures, missing input *)
(* ===================================================================== *)

Section AddButton.

Variable env : platform.

Lemma effects_since_app w w' l : trace w' = trace w ++ l -> effects_since w w' = l.
Proof. intros H. unfold effects_since. rewrite H. apply drop_app_length. Qed.



Lemma cart_adds_primary_only l :
  cart_adds [cart_request l; Navigate "/cart"] = [l].
Proof. reflexivity. Qed.


(** C3. The upsell request is made only once the primary add has
    succeeded; when it fails, the failure is a console warning and nothing
    else (the message area and the add button are as the primary add left
    them, no alert, no error); and the navigation to the cart is the last
    effect whether the upsell add succeeded, failed or was not made.  This
    holds when the replies come at once, and stretch by stretch when other
    handlers run while the handler waits: it stops at the primary request;
    resumed with a failure it ends without another request; resumed with a
    success it either navigates or stops at the upsell request; and
    resumed with the upsell reply, good or bad, it navigates. *)
Theorem upsell_failure_never_blocks p quick w m vid :
  modal w = Some m ->
  variantId m = Some vid -> vid <> "" ->
  let o1 := cart_add_js env (fetches w) (primary_line m vid) in
  let w' := snd (exec env (add_onclick p quick) w) in
  (cart_ok o1 = false ->
     cart_adds (effects_since w w') = [primary_line m vid]) /\
  (cart_ok o1 = true ->
     modal w' = Some (adding m) /\
     exists mid,
       effects_since w w' =
         cart_request (primary_line m vid) :: mid ++ [Navigate "/cart"] /\
       (mid = [] \/
        exists u, configured_upsell quick w = Some u /\
          mid = cart_request (upsell_line u) ::
                (if cart_ok (cart_add_js env (S (fetches w)) (upsell_line u))
                 then [] else [ConsoleWarn "Upsell add failed"]))) /\
  (exists k1,
     until_await (add_onclick p quick) w =
       (AtCart (primary_line m vid) k1, set_modal (Some (adding m)) w) /\
     forall r1 w1 m1,
       modal w1 = Some m1 ->
       (cart_ok r1 = false ->
          fst (until_await (k1 r1) w1) = Ended (Ok tt) /\
          ~ In (Navigate "/cart") (effects_since w1 (snd (until_await (k1 r1) w1)))) /\
       (cart_ok r1 = true ->
          black_and_medium p vid = false \/ configured_upsell quick w1 = None ->
          until_await (k1 r1) w1 =
          (Ended (Ok tt), set_trace (trace w1 ++ [Navigate "/cart"]) w1)) /\
       (cart_ok r1 = true ->
          black_and_medium p vid = true ->
          forall u, configured_upsell quick w1 = Some u ->
          exists k2,
            until_await (k1 r1) w1 = (AtCart (upsell_line u) k2, w1) /\
            forall r2 w2,
              until_await (k2 r2) w2 =
              (Ended (Ok tt),
               set_trace (trace w2 ++
                          (if cart_ok r2 then []
                           else [ConsoleWarn "Upsell add failed"]) ++
                          [Navigate "/cart"]) w2))).
Proof.
  intros Hm Hv Hne o1 w'. subst o1 w'.
  split; [|split]; [intros Hok|intros Hok|].
  3:{ destruct (add_onclick_segments p quick w m vid Hm Hv Hne)
        as (k1 & Hstart & Hk1).
      exists k1. split; [exact Hstart|]. intros r1 w1 m1 Hm1.
      destruct (Hk1 r1 w1 m1 Hm1) as (Hfail & Hdone & Hup).
      split; [|split; assumption].
      intros Hok. rewrite (Hfail Hok). split; [reflexivity|]. cbn [snd].
      erewrite effects_since_app by (cbn [trace set_modal set_trace]; reflexivity).
      intros [H|[]]; discriminate. }
  - rewrite (add_onclick_primary_fails env p quick w m vid Hm Hv Hne Hok).
    cbn [snd]. erewrite effects_since_app by (cbn [trace]; reflexivity).
    reflexivity.
  - rewrite (add_onclick_primary_ok env p quick w m vid Hm Hv Hne Hok).
    cbn [snd].
    destruct (black_and_medium p vid);
      [destruct (configured_upsell quick w) as [u|]|];
      (split; [reflexivity|]).
    + exists (cart_request (upsell_line u) ::
              (if cart_ok (cart_add_js env (S (fetches w)) (upsell_line u))
               then [] else [ConsoleWarn "Upsell add failed"])).
      erewrite effects_since_app by (cbn [trace]; reflexivity).
      split; [reflexivity|]. right. exists u. split; reflexivity.
    + exists []. erewrite effects_since_app by (cbn [trace]; reflexivity).
      split; [reflexivity | now left].
    + exists []. erewrite effects_since_app by (cbn [trace]; reflexivity).
      split; [reflexivity | now left].
Qed.

(** C5. When the primary add fails, on a transport error or a non-success
    status, the message area says so, the add button is enabled again,
    the only request made is that one attempt, and there is neither an
    upsell request nor a navigation.  The same holds on whatever page the
    handler is resumed with the failure: it ends there, with the message
    written, the button enabled and a console error as its only effect. *)
Theorem primary_failure_surfaced p quick w m vid :
  modal w = Some m ->
  variantId m = Some vid -> vid <> "" ->
  let o1 := cart_add_js env (fetches w) (primary_line m vid) in
  o1 = NetworkError \/ (exists json, o1 = Response false json) ->
  let w' := snd (exec env (add_onclick p quick) w) in
  (cqv_msg <$> modal w') = Some "Could not add to cart. Try again." /\
  (add_disabled <$> modal w') = Some false /\
  effects_since w w' =
    [cart_request (primary_line m vid); ConsoleError (cart_error o1)] /\
  cart_adds (effects_since w w') = [primary_line m vid] /\
  ~ In (Navigate "/cart") (effects_since w w') /\
  fetches w' = S (fetches w) /\
  (exists k1,
     until_await (add_onclick p quick) w =
       (AtCart (primary_line m vid) k1, set_modal (Some (adding m)) w) /\
     forall r1 w1 m1,
       modal w1 = Some m1 ->
       r1 = NetworkError \/ (exists json, r1 = Response false json) ->
       until_await (k1 r1) w1 =
       (Ended (Ok tt),
        set_modal (Some (set_add_disabled false
                     (set_cqv_msg "Could not add to cart. Try again." m1)))
          (set_trace (trace w1 ++ [ConsoleError (cart_error r1)]) w1))).
Proof.
  intros Hm Hv Hne o1 Ho w'. subst w'.
  assert (Hok : cart_ok o1 = false) by (destruct Ho as [->|[json ->]]; reflexivity).
  subst o1.
  rewrite (add_onclick_primary_fails env p quick w m vid Hm Hv Hne Hok).
  cbn [snd]. erewrite effects_since_app by (cbn [trace]; reflexivity).
  repeat split.
  - intros [H|[H|[]]]; discriminate.
  - destruct (add_onclick_segments p quick w m vid Hm Hv Hne)
      as (k1 & Hstart & Hk1).
    exists k1. split; [exact Hstart|]. intros r1 w1 m1 Hm1 Hr1.
    apply (Hk1 r1 w1 m1 Hm1). destruct Hr1 as [->|[json ->]]; reflexivity.
Qed.

Lemma on_click_missing_handle ev quick w :
  closest_quick ev = Some quick ->
  data_handle quick = None \/ data_handle quick = Some "" ->
  exec env (on_click env ev) w =
  (Ok tt, set_trace (trace w ++ [Alert "Product handle missing"]) w).
Proof.
  intros Hq Hh. unfold on_click. rewrite Hq.
  destruct Hh as [-> | ->]; reflexivity.
Qed.

(** C6. A click on a quick-view trigger without a product handle raises
    the alert and sends nothing; a click on the add button without a
    session variant id writes the inline message, enables the button again
    and sends nothing. *)
Theorem missing_input_no_request :
  (forall ev quick w,
     closest_quick ev = Some quick ->
     data_handle quick = None \/ data_handle quick = Some "" ->
     let w' := snd (exec env (on_click env ev) w) in
     effects_since w w' = [Alert "Product handle missing"] /\
     fetches w' = fetches w /\ modal w' = modal w) /\
  (forall p quick w m,
     modal w = Some m ->
     variantId m = None \/ variantId m = Some "" ->
     let w' := snd (exec env (add_onclick p quick) w) in
     effects_since w w' = [] /\ fetches w' = fetches w /\
     (cqv_msg <$> modal w') = Some "Please select variant" /\
     (add_disabled <$> modal w') = Some false).
Proof.
  split.
  - intros ev quick w Hq Hh w'. subst w'.
    rewrite (on_click_missing_handle ev quick w Hq Hh). cbn [snd].
    erewrite effects_since_app by (cbn [trace set_trace]; reflexivity).
    repeat split.
  - intros p quick w m Hm Hv w'. subst w'.
    rewrite (add_onclick_no_variant env p quick w m Hm Hv). cbn [snd].
    erewrite effects_since_app
      by (cbn [trace set_modal]; symmetry; apply app_nil_r).
    repeat split.
Qed.


End AddButton.

(* ===================================================================== *)
(** * Modal Controller: the scroll lock follows the modal *)
(* ===================================================================== *)

Section ScrollLock.

Variable env : platform.

Lemma lock_ok_sent e w : lock_ok w -> lock_ok (sent e w).
Proof. intros H. exact H. Qed.

(** ** Soundness of the script's building blocks *)

Lemma sound_ret {A} (a : A) : sound (mret a).
Proof. intros w H. now constructor. Qed.

Lemma sound_throw {A} e : sound (throw (A := A) e).
Proof. intros w H. now constructor. Qed.

Lemma sound_from_bind {A B} (t : task A) (f : A -> task B) w :
  sound_from t w -> (forall a, sound (f a)) -> sound_from (t ≫= f) w.
Proof.
  intros Ht Hf. induction Ht as [[a|e] w H|k w _ IH|w' k w _ IH
                                 |h k w H _ IH|b k w H _ IH].
  - now apply Hf.
  - now constructor.
  - constructor. exact IH.
  - constructor. exact IH.
  - constructor; [exact H | exact IH].
  - constructor; [exact H | exact IH].
Qed.

Lemma sound_bind {A B} (t : task A) (f : A -> task B) :
  sound t -> (forall a, sound (f a)) -> sound (t ≫= f).
Proof. intros Ht Hf w H. apply sound_from_bind; auto. Qed.

Lemma sound_from_try_catch {A} (t : task A) h w :
  sound_from t w -> (forall e, sound (h e)) -> sound_from (try_catch t h) w.
Proof.
  intros Ht Hh. induction Ht as [[a|e] w H|k w _ IH|w' k w _ IH
                                 |hd k w H _ IH|b k w H _ IH].
  - now constructor.
  - now apply Hh.
  - constructor. exact IH.
  - constructor. exact IH.
  - constructor; [exact H | exact IH].
  - constructor; [exact H | exact IH].
Qed.

Lemma sound_try_catch {A} (t : task A) h :
  sound t -> (forall e, sound (h e)) -> sound (try_catch t h).
Proof. intros Ht Hh w H. apply sound_from_try_catch; auto. Qed.

Lemma sound_dispatch (t : task unit) : sound t -> sound (dispatch t).
Proof. intros Ht. apply sound_try_catch; [exact Ht | intros e; apply sound_ret]. Qed.

Lemma sound_get_world : sound get_world.
Proof. intros w H. repeat constructor. exact H. Qed.

Lemma sound_the_modal : sound the_modal.
Proof. intros w H. constructor. destruct (modal w); now constructor. Qed.

Lemma sound_emit e : sound (emit e).
Proof. intros w H. repeat constructor. exact H. Qed.

Lemma sound_update_modal f :
  (forall m, open (f m) = open m) -> sound (update_modal f).
Proof.
  intros Hf w H. unfold update_modal, the_modal. cbn. constructor.
  destruct (modal w) as [m|] eqn:Hm; cbn; [|now constructor].
  repeat constructor. unfold lock_ok, modal_open in *. cbn.
  rewrite Hm in *. cbn. now rewrite Hf.
Qed.

Lemma sound_fetch_product handle : sound (fetch_product handle).
Proof. intros w H. constructor; [exact H|]. intros o w' H'. now constructor. Qed.

Lemma sound_fetch_cart_add body : sound (fetch_cart_add body).
Proof. intros w H. constructor; [exact H|]. intros o w' H'. now constructor. Qed.

Lemma sound_forEach_from {A} (f : A -> nat -> task unit) l i :
  (forall x j, sound (f x j)) -> sound (forEach_from f i l).
Proof.
  intros Hf. revert i. induction l as [|x l IH]; intros i; simpl.
  - apply sound_ret.
  - apply sound_bind; [apply Hf | intros _; apply IH].
Qed.

Lemma sound_formatMoney cents : sound (formatMoney env cents).
Proof. rewrite formatMoney_done. apply sound_ret. Qed.

Create HintDb sound.

#[local] Hint Resolve sound_ret sound_throw sound_get_world sound_the_modal
  sound_emit sound_formatMoney sound_fetch_product sound_fetch_cart_add
  sound_dispatch : sound.

(** Decompose a task along its binds, handlers and case splits. *)
Ltac sound_step :=
  match goal with
  | |- sound (_ ≫= _) => apply sound_bind; [|intros ?]
  | |- sound (try_catch _ _) => apply sound_try_catch; [|intros ?]
  | |- sound (update_modal _) => apply sound_update_modal; intros ?; reflexivity
  | |- sound (forEach _ _) => apply sound_forEach_from; intros ? ?
  | |- sound (match ?x with _ => _ end) => destruct x
  | |- sound _ => solve [auto with sound]
  end.

Ltac sound_auto := cbv zeta; repeat sound_step.

Lemma sound_findGridSection el : sound (findGridSection el).
Proof. unfold findGridSection. sound_auto. Qed.

Lemma sound_getUpsellVariantIdFromSection quick :
  sound (getUpsellVariantIdFromSection quick).
Proof.
  unfold getUpsellVariantIdFromSection. sound_auto.
  apply sound_findGridSection.
Qed.

Lemma sound_addToCart a b : sound (addToCart a b).
Proof. unfold addToCart. sound_auto. Qed.

Lemma sound_option_click gi bi : sound (option_click env gi bi).
Proof. unfold option_click. sound_auto. Qed.

Lemma sound_preselect iv optName idx : sound (preselect env iv optName idx).
Proof.
  unfold preselect. sound_auto. apply sound_dispatch, sound_option_click.
Qed.

Lemma sound_buildVariantPickers p : sound (buildVariantPickers env p).
Proof.
  unfold buildVariantPickers. sound_auto; apply sound_preselect.
Qed.

#[local] Hint Resolve sound_getUpsellVariantIdFromSection sound_addToCart
  sound_option_click sound_buildVariantPickers : sound.

Lemma sound_add_onclick p quick : sound (add_onclick p quick).
Proof. unfold add_onclick. sound_auto. Qed.

Lemma sound_ensureModal : sound ensureModal.
Proof.
  intros w H. unfold ensureModal. cbn. constructor.
  destruct (modal w) eqn:Hm; cbn; repeat constructor; [exact H|].
  unfold lock_ok, modal_open in *. cbn. now rewrite Hm in H.
Qed.

(** The two writes of [openModal] and of [closeModal] belong together. *)
Lemma sound_openModal : sound openModal.
Proof.
  intros w H. unfold openModal, update_modal, the_modal. cbn. constructor.
  destruct (modal w) as [m|] eqn:Hm; cbn; [|now constructor].
  repeat constructor. unfold lock_ok, modal_open. cbn. now rewrite Hm.
Qed.

Lemma sound_closeModal : sound closeModal.
Proof.
  intros w H. unfold closeModal, update_modal, the_modal. cbn. constructor.
  destruct (modal w) as [m|] eqn:Hm; cbn; [|now constructor].
  repeat constructor. unfold lock_ok, modal_open. cbn. now rewrite Hm.
Qed.

#[local] Hint Resolve sound_add_onclick sound_ensureModal sound_openModal
  sound_closeModal : sound.

Lemma sound_on_click ev : sound (on_click env ev).
Proof. unfold on_click. sound_auto. Qed.

Lemma sound_on_keydown key : sound (on_keydown key).
Proof. unfold on_keydown. sound_auto. Qed.

Lemma sound_handle e : sound (handle env e).
Proof.
  destruct e; cbn [handle]; apply sound_dispatch;
    auto using sound_on_click, sound_on_keydown with sound.
  - sound_auto.
  - sound_auto.
Qed.

(** ** Uninterrupted runs *)

Lemma exec_sound_from {A} (t : task A) w :
  sound_from t w -> lock_ok (snd (exec env t w)).
Proof.
  intros H. induction H as [r w H|k w _ IH|w' k w _ IH
                            |h k w H _ IH|b k w H _ IH]; cbn [exec]; auto.
Qed.

Lemma lock_ok_run es : forall w, lock_ok w -> lock_ok (run env w es).
Proof.
  induction es as [|e es IH]; intros w H; [exact H|].
  apply IH. apply exec_sound_from. now apply sound_handle.
Qed.

(** ** The event loop *)

Lemma advance_sound_from t w :
  sound_from t w ->
  lock_ok (advance t w).1 /\
  forall nk, (advance t w).2 = Some nk -> sound_parked nk.2.
Proof.
  unfold advance.
  intros H. induction H as [r w H|k w _ IH|w' k w _ IH
                            |h k w H Hk _|b k w H Hk _]; cbn [until_await]; auto.
  - split; [exact H | discriminate].
  - split; [exact H|]. intros nk [= <-]. intros o w' H'. now apply Hk.
  - split; [exact H|]. intros nk [= <-]. intros o w' H'. now apply Hk.
Qed.

Lemma resume_ok pg t others :
  lock_ok (the_world pg) ->
  sound t ->
  Forall (fun nk => sound_parked nk.2) others ->
  page_ok (resume pg t others).
Proof.
  intros Hw Ht Ho. unfold resume.
  destruct (advance_sound_from t (the_world pg) (Ht _ Hw)) as [H1 H2].
  destruct (advance t (the_world pg)) as [w [nk|]]; cbn in *.
  - split; [exact H1|]. apply Forall_app. split; [exact Ho|].
    constructor; [now apply H2 | constructor].
  - split; [exact H1|]. now rewrite app_nil_r.
Qed.

Lemma unpark_Some n l k rest (P : nat * parked -> Prop) :
  unpark n l = Some (k, rest) ->
  Forall P l -> P (n, k) /\ Forall P rest.
Proof.
  revert rest. induction l as [|[m k'] l IH]; intros rest H Hl; [discriminate|].
  apply Forall_cons in Hl as [Hk' Hl]. cbn [unpark] in H.
  destruct (Nat.eqb_spec m n) as [->|Hne].
  - injection H as <- <-. auto.
  - destruct (unpark n l) as [[k0 rest0]|]; [|discriminate].
    injection H as <- <-. destruct (IH rest0 eq_refl Hl) as [H1 H2]. auto.
Qed.

Lemma turn_ok pg ev : page_ok pg -> page_ok (turn env pg ev).
Proof.
  intros [Hw Hp]. destruct ev as [e|n o|n o]; cbn [turn].
  - apply resume_ok; [exact Hw | apply sound_handle | exact Hp].
  - destruct (unpark n (waiting pg)) as [[[k|k] others]|] eqn:Hu;
      try (split; assumption).
    destruct (unpark_Some _ _ _ _ _ Hu Hp) as [Hk Ho].
    apply resume_ok; [exact Hw | apply Hk | exact Ho].
  - destruct (unpark n (waiting pg)) as [[[k|k] others]|] eqn:Hu;
      try (split; assumption).
    destruct (unpark_Some _ _ _ _ _ Hu Hp) as [Hk Ho].
    apply resume_ok; [exact Hw | apply Hk | exact Ho].
Qed.

Lemma play_ok evs : forall pg, page_ok pg -> page_ok (play env pg evs).
Proof.
  induction evs as [|ev evs IH]; intros pg H; [exact H|].
  apply IH. now apply turn_ok.
Qed.

(** ** The transitions one by one *)

Lemma openModal_run w m :
  modal w = Some m ->
  exec env openModal w =
  (Ok tt, set_no_scroll true (set_modal (Some (set_open true m)) w)).
Proof. intros Hm. unfold openModal. run_task. reflexivity. Qed.

Lemma closeModal_run w m :
  modal w = Some m ->
  exec env closeModal w =
  (Ok tt, set_no_scroll false (set_modal (Some (set_open false m)) w)).
Proof. intros Hm. unfold closeModal. run_task. reflexivity. Qed.

Lemma escape_run w :
  step env w (KeyDown "Escape") =
  match modal w with
  | Some m =>
      if open m
      then set_no_scroll false (set_modal (Some (set_open false m)) w)
      else w
  | None => w
  end.
Proof.
  unfold step, handle, on_keydown.
  change (String.eqb "Escape" "Escape") with true. cbv iota. run_task.
  destruct (modal w) as [m|] eqn:Hm; [|reflexivity].
  destruct (open m); [|reflexivity].
  run_task. now rewrite (closeModal_run w m Hm).
Qed.

Lemma close_click_run w :
  step env w (Click close_click) =
  match modal w with
  | Some m => set_no_scroll false (set_modal (Some (set_open false m)) w)
  | None => w
  end.
Proof.
  unfold step, handle, on_click. cbn [close_click closest_quick closest_close].
  run_task.
  destruct (modal w) as [m|] eqn:Hm; [|reflexivity].
  run_task. now rewrite (closeModal_run w m Hm).
Qed.

(** C8. From a freshly loaded page, after any sequence of clicks, key
    presses and network replies, delivered in any order while other
    handlers wait, the scroll lock is set exactly when the modal is open;
    so it is when every request is answered at once.  Escape on an open
    modal closes it and lifts the lock; Escape on a closed modal, or with
    no modal node, changes nothing; a click on a close control or on the
    backdrop closes the modal and lifts the lock; [openModal] opens and
    locks. *)
Theorem scroll_lock_iff_open :
  (forall sec evs,
     let w := the_world (play env (initial_page sec) evs) in
     no_scroll w = modal_open w) /\
  (forall sec es,
     let w := run env (initial_world sec) es in no_scroll w = modal_open w) /\
  (forall w,
     modal_open w = true ->
     let w' := step env w (KeyDown "Escape") in
     modal_open w' = false /\ no_scroll w' = false) /\
  (forall w,
     modal_open w = false -> step env w (KeyDown "Escape") = w) /\
  (forall w m,
     modal w = Some m ->
     let w' := step env w (Click close_click) in
     modal_open w' = false /\ no_scroll w' = false) /\
  (forall w m,
     modal w = Some m ->
     let w' := snd (exec env openModal w) in
     modal_open w' = true /\ no_scroll w' = true).
Proof.
  split; [|split; [|split; [|split; [|split]]]].
  - intros sec evs. apply play_ok. split; [reflexivity | constructor].
  - intros sec es. apply lock_ok_run. reflexivity.
  - intros w H w'. subst w'. rewrite escape_run. unfold modal_open in *.
    destruct (modal w) as [m|]; [|discriminate]. rewrite H. split; reflexivity.
  - intros w H. rewrite escape_run. unfold modal_open in H.
    destruct (modal w) as [m|]; [|reflexivity]. now rewrite H.
  - intros w m Hm w'. subst w'. rewrite close_click_run, Hm. split; reflexivity.
  - intros w m Hm w'. subst w'. rewrite (openModal_run w m Hm). split; reflexivity.
Qed.

End ScrollLock.

(* ===================================================================== *)
(** * Picker Builder: pre-seeding and manual clicks *)
(* ===================================================================== *)

Section Pickers.

Variable env : platform.

Lemma bind_assoc_run {A B C} (c : task A) (f : A -> task B) (g : B -> task C) w :
  exec env ((c ≫= f) ≫= g) w = exec env (c ≫= (fun a => f a ≫= g)) w.
Proof.
  rewrite !bind_run. destruct (exec env c w) as [[a|e] w']; [|reflexivity].
  now rewrite bind_run.
Qed.

Lemma option_click_run gi bi w m g btn p :
  modal w = Some m ->
  cqv_variants m !! gi = Some g ->
  buttons g !! bi = Some btn ->
  picker_product m = Some p ->
  exec env (option_click env gi bi) w =
  (Ok tt, set_modal (Some (resolved env p (clicked gi bi btn m))) w).
Proof.
  intros Hm Hg Hb Hp. unfold option_click. run_task.
  rewrite Hg. cbn [mbind option_bind]. rewrite Hb, Hp.
  unfold resolved, clicked. run_task.
  destruct (findVariant p _) as [v|]; [|reflexivity].
  exec_with ltac:(rewrite formatMoney_run). reflexivity.
Qed.

(** ** Buttons keep their attributes *)

Lemma press_keys bi g :
  map button_key (buttons (press bi g)) = map button_key (buttons g).
Proof.
  unfold press. cbn [buttons]. generalize (buttons g). intros bs.
  revert bi. induction bs as [|b bs IH]; intros [|bi]; simpl; try reflexivity.
  - f_equal. rewrite <- list_fmap_compose. reflexivity.
  - f_equal. apply IH.
Qed.

Lemma skeleton_press bi gi gs :
  skeleton (alter (press bi) gi gs) = skeleton gs.
Proof.
  revert gi. induction gs as [|g gs IH]; intros [|gi]; simpl; try reflexivity.
  - f_equal. apply press_keys.
  - f_equal. apply IH.
Qed.

Lemma skeleton_clicked gi bi btn m :
  skeleton (cqv_variants (clicked gi bi btn m)) = skeleton (cqv_variants m).
Proof. apply skeleton_press. Qed.

Lemma skeleton_resolved p m :
  cqv_variants (resolved env p m) = cqv_variants m.
Proof. unfold resolved. now destruct (findVariant p _). Qed.

Lemma picker_product_resolved p m :
  picker_product (resolved env p m) = picker_product m.
Proof. unfold resolved. now destruct (findVariant p _). Qed.


(** ** The button lookup *)

Lemma find_button_keys (o v : string) (bs bs' : list button) :
  map button_key bs = map button_key bs' ->
  fst <$> list_find (fun b => data_opt b = o ∧ data_val b = v) bs =
  fst <$> list_find (fun b => data_opt b = o ∧ data_val b = v) bs'.
Proof.
  revert bs'. induction bs as [|b bs IH]; intros [|b' bs'] H; simpl in H;
    try discriminate; [reflexivity|].
  injection H as Ho Hv _ Hbs. cbn [list_find].
  rewrite Ho, Hv. destruct (decide _); [reflexivity|].
  specialize (IH bs' Hbs).
  destruct (list_find _ bs) as [[i x]|], (list_find _ bs') as [[i' x']|];
    simpl in *; congruence.
Qed.

Lemma querySelector_skeleton i gs gs' o v :
  skeleton gs = skeleton gs' ->
  querySelector_from i gs o v = querySelector_from i gs' o v.
Proof.
  revert i gs'. induction gs as [|g gs IH]; intros i [|g' gs'] H; simpl in H;
    try discriminate; [reflexivity|].
  injection H as Hg Hgs. cbn [querySelector_from].
  pose proof (find_button_keys o v _ _ Hg) as Hf.
  destruct (list_find _ (buttons g)) as [[bi x]|],
           (list_find _ (buttons g')) as [[bi' x']|]; simpl in Hf;
    try discriminate.
  - congruence.
  - now apply IH.
Qed.

Lemma querySelector_from_Some i gs o v gi bi :
  querySelector_from i gs o v = Some (gi, bi) ->
  exists g btn,
    (i <= gi)%nat /\ gs !! (gi - i)%nat = Some g /\ buttons g !! bi = Some btn /\
    data_opt btn = o /\ data_val btn = v.
Proof.
  revert i. induction gs as [|g gs IH]; intros i H; cbn [querySelector_from] in H;
    [discriminate|].
  destruct (list_find _ (buttons g)) as [[bi' x]|] eqn:Hf.
  - injection H as <- <-. apply list_find_Some in Hf as (Hl & [Ho Hv] & _).
    exists g, x. rewrite Nat.sub_diag. auto.
  - apply IH in H as (g' & btn & Hle & Hg & Hb & Ho & Hv).
    exists g', btn. repeat split; auto; [lia|].
    replace (gi - i)%nat with (S (gi - S i)) by lia. exact Hg.
Qed.

Lemma querySelector_Some gs o v gi bi :
  querySelector gs o v = Some (gi, bi) ->
  exists g btn,
    gs !! gi = Some g /\ buttons g !! bi = Some btn /\
    data_opt btn = o /\ data_val btn = v.
Proof.
  intros H. apply querySelector_from_Some in H as (g & btn & _ & Hg & H).
  rewrite Nat.sub_0_r in Hg. eauto.
Qed.

Lemma querySelector_from_is_Some i gs o v g btn :
  g ∈ gs -> btn ∈ buttons g -> data_opt btn = o -> data_val btn = v ->
  is_Some (querySelector_from i gs o v).
Proof.
  intros Hg Hb Ho Hv. revert i. induction gs as [|g' gs IH]; intros i.
  - inversion Hg.
  - cbn [querySelector_from].
    destruct (list_find _ (buttons g')) as [[bi x]|] eqn:Hf; [eauto|].
    apply elem_of_cons in Hg as [->|Hg]; [|now apply IH].
    exfalso. eapply list_find_None in Hf. rewrite Forall_forall in Hf.
    apply (Hf btn); auto.
Qed.

(** ** What is rendered *)

Lemma distinct_from_elem x seen l :
  x ∈ distinct_from seen l <-> x ∈ l /\ x ∉ seen.
Proof.
  revert seen. induction l as [|y l IH]; intros seen; simpl.
  - split; [intros H; inversion H | intros [H _]; inversion H].
  - destruct (bool_decide (y ∈ seen)) eqn:Hy.
    + apply bool_decide_eq_true in Hy. rewrite IH. split.
      * intros [H1 H2]. split; [now right | exact H2].
      * intros [H1 H2]. split; [|exact H2].
        apply elem_of_cons in H1 as [->|H1]; [contradiction | exact H1].
    + apply bool_decide_eq_false in Hy. rewrite elem_of_cons, IH. split.
      * intros [->|[H1 H2]]; [split; [left | exact Hy]|].
        split; [now right|]. intros H. apply H2. now right.
      * intros [H1 H2]. apply elem_of_cons in H1 as [->|H1]; [now left|].
        destruct (decide (x = y)) as [->|Hne]; [now left|]. right.
        split; [exact H1|]. intros H. apply elem_of_cons in H as [?|?]; auto.
Qed.

Lemma rendered_from_lookup p i l j o :
  l !! j = Some o -> rendered_from p i l !! j = Some (render_group p o (i + j)).
Proof.
  revert i j. induction l as [|o' l IH]; intros i [|j] H; simpl in *;
    try discriminate.
  - injection H as ->. now rewrite Nat.add_0_r.
  - rewrite <- Nat.add_succ_comm. now apply IH.
Qed.


Lemma render_group_button p o idx btn :
  btn ∈ buttons (render_group p o idx) <->
  exists v, v ∈ variants p /\
    btn = {| data_opt := o; data_val := String_of (variant_option v idx);
             val := variant_option v idx; aria_pressed := false |}.
Proof.
  unfold render_group. cbn [buttons]. rewrite list_elem_of_fmap. split.
  - intros (x & -> & Hx). apply distinct_from_elem in Hx as [Hx _].
    apply list_elem_of_fmap in Hx as (v & -> & Hv). eauto.
  - intros (v & Hv & ->). exists (variant_option v idx). split; [reflexivity|].
    apply distinct_from_elem. split; [|apply not_elem_of_nil].
    apply list_elem_of_fmap. eauto.
Qed.

Lemma rendered_query p gs iv idx o :
  skeleton gs = skeleton (rendered p) ->
  options p !! idx = Some o ->
  iv ∈ variants p ->
  is_Some (querySelector gs o (String_of (variant_option iv idx))).
Proof.
  intros Hs Ho Hiv. unfold querySelector.
  rewrite (querySelector_skeleton 0 gs (rendered p) _ _ Hs).
  eapply (querySelector_from_is_Some 0 (rendered p) _ _ (render_group p o idx)).
  - apply list_elem_of_lookup. exists idx.
    unfold rendered. now rewrite (rendered_from_lookup p 0 _ idx o Ho).
  - apply render_group_button. exists iv. split; [exact Hiv | reflexivity].
  - reflexivity.
  - reflexivity.
Qed.

(** ** Running the builder *)

Lemma render_loop_run p l i w m :
  modal w = Some m ->
  exec env (forEach_from (fun optName optIndex =>
    update_modal (fun m =>
      set_cqv_variants (cqv_variants m ++ [render_group p optName optIndex]) m))
    i l) w =
  (Ok tt, set_modal (Some (set_cqv_variants
                             (cqv_variants m ++ rendered_from p i l) m)) w).
Proof.
  revert i w m. induction l as [|o l IH]; intros i w m Hm; cbn [forEach_from].
  - rewrite ret_run, app_nil_r. destruct w, m; simpl in *; subst; reflexivity.
  - run_task. erewrite IH by side. fields. rewrite <- app_assoc. reflexivity.
Qed.

Lemma render_pickers_run p w m :
  modal w = Some m ->
  exec env (render_pickers p) w =
  (Ok tt, set_modal (Some (set_cqv_variants (rendered p)
                             (set_selections ∅
                                (set_picker_product (Some p) m)))) w).
Proof.
  intros Hm. unfold render_pickers, forEach. run_task.
  erewrite render_loop_run by side. reflexivity.
Qed.

Lemma ready_rendered p w m :
  modal w = Some m ->
  ready p (snd (exec env (render_pickers p) w)).
Proof.
  intros Hm. rewrite (render_pickers_run p w m Hm). eexists.
  split; [reflexivity|]. split; reflexivity.
Qed.

Lemma manual_click_run p iv o idx w m gi bi g btn :
  modal w = Some m ->
  picker_product m = Some p ->
  querySelector (cqv_variants m) o (String_of (variant_option iv idx)) = Some (gi, bi) ->
  cqv_variants m !! gi = Some g ->
  buttons g !! bi = Some btn ->
  exec env (manual_click env iv o idx) w =
  (Ok tt, set_modal (Some (resolved env p (clicked gi bi btn m))) w).
Proof.
  intros Hm Hp Hq Hg Hb. unfold manual_click. run_task. rewrite Hq.
  cbn [handle]. unfold dispatch. rewrite try_catch_run.
  now rewrite (option_click_run gi bi w m g btn p Hm Hg Hb Hp).
Qed.


(** With its button found, a round of the pre-selection loop is the
    shopper's click: the listener overwrites what the loop wrote. *)
Lemma preselect_is_manual_click p iv o idx w m :
  modal w = Some m ->
  picker_product m = Some p ->
  is_Some (querySelector (cqv_variants m) o (String_of (variant_option iv idx))) ->
  exec env (preselect env iv o idx) w = exec env (manual_click env iv o idx) w.
Proof.
  intros Hm Hp [[gi bi] Hq].
  destruct (querySelector_Some _ _ _ _ _ Hq) as (g & btn & Hg & Hb & Ho & Hv).
  rewrite (manual_click_run p iv o idx w m gi bi g btn Hm Hp Hq Hg Hb).
  unfold preselect. run_task. rewrite Hq. unfold dispatch.
  rewrite try_catch_run.
  erewrite (option_click_run gi bi _ _ g btn p) by side.
  fields. unfold clicked. fields. rewrite Ho, insert_insert_eq. reflexivity.
Qed.

Lemma ready_manual_click p iv o idx w :
  ready p w ->
  ready p (snd (exec env (manual_click env iv o idx) w)) /\
  fst (exec env (manual_click env iv o idx) w) = Ok tt.
Proof.
  intros (m & Hm & Hp & Hs).
  destruct (querySelector (cqv_variants m) o (String_of (variant_option iv idx)))
    as [[gi bi]|] eqn:Hq.
  - destruct (querySelector_Some _ _ _ _ _ Hq) as (g & btn & Hg & Hb & _).
    rewrite (manual_click_run p iv o idx w m gi bi g btn Hm Hp Hq Hg Hb).
    split; [|reflexivity]. eexists. split; [reflexivity|]. split.
    + now rewrite picker_product_resolved.
    + now rewrite skeleton_resolved, skeleton_clicked.
  - unfold manual_click. run_task. rewrite Hq. split; [|reflexivity].
    exists m. auto.
Qed.

Lemma preselect_loop_is_manual p iv l i w :
  ready p w ->
  iv ∈ variants p ->
  (forall j o, l !! j = Some o -> options p !! (i + j)%nat = Some o) ->
  exec env (forEach_from (preselect env iv) i l) w =
  exec env (forEach_from (manual_click env iv) i l) w.
Proof.
  revert i w. induction l as [|o l IH]; intros i w Hr Hiv Hl; [reflexivity|].
  cbn [forEach_from]. rewrite !bind_run.
  assert (Ho : options p !! i = Some o).
  { rewrite <- (Nat.add_0_r i). now apply Hl. }
  destruct Hr as (m & Hm & Hp & Hs).
  rewrite (preselect_is_manual_click p iv o i w m Hm Hp
             (rendered_query p _ iv i o Hs Ho Hiv)).
  destruct (ready_manual_click p iv o i w) as [Hr' Hok]; [exists m; auto|].
  destruct (exec env (manual_click env iv o i) w) as [[[]|e] w']; [|reflexivity].
  apply IH; auto. intros j o' Hj. rewrite Nat.add_succ_comm. now apply Hl.
Qed.

Lemma initialVariant_elem p iv : initialVariant p = Some iv -> iv ∈ variants p.
Proof.
  unfold initialVariant. destruct (find available (variants p)) as [v|] eqn:Hf.
  - intros [= <-]. apply find_some in Hf as [Hin _]. now apply list_elem_of_In.
  - intros H. destruct (variants p); [discriminate|]. injection H as <-. left.
Qed.

(** The builder, as the rendering followed by the pre-selection. *)
Lemma buildVariantPickers_run p w :
  exec env (buildVariantPickers env p) w =
  exec env (render_pickers p;;
   match initialVariant p with
   | Some iv =>
       forEach (manual_click env iv) (options p);;
       update_modal (set_variantId (Some (JS.toString (id iv))));;
       update_modal (set_cqv_price (money env (price iv)))
   | None => mret tt
   end) w.
Proof.
  unfold buildVariantPickers, render_pickers. fold (initialVariant p). cbv zeta.
  rewrite !bind_assoc_run.
  destruct (modal w) as [m|] eqn:Hm.
  - run_task. unfold forEach. erewrite !render_loop_run by side.
    destruct (initialVariant p) as [iv|] eqn:Hiv; [|reflexivity].
    run_task.
    erewrite (preselect_loop_is_manual p iv (options p) 0).
    + destruct (exec env (forEach_from (manual_click env iv) 0 (options p)) _)
        as [[[]|e] w']; [|reflexivity].
      destruct (modal w') as [m'|] eqn:Hm'.
      * exec_with ltac:(rewrite formatMoney_run). reflexivity.
      * rewrite !bind_run, !(update_modal_null env _ w' Hm'). reflexivity.
    + eexists. split; [reflexivity|]. split; reflexivity.
    + now apply initialVariant_elem.
    + intros j o Hj. exact Hj.
  - rewrite !bind_run, !(update_modal_null env _ w Hm). reflexivity.
Qed.

(** ** Where manual clicking ends up *)

Lemma set_modal_same w m : modal w = Some m -> set_modal (Some m) w = w.
Proof. intros H. destruct w; simpl in *; now subst. Qed.






(** ** The full selection resolves to the initial variant *)





(** ** Pre-seeding against manual clicks *)



End Pickers.

(* ===================================================================== *)
(** * Further properties of the script *)
(* ===================================================================== *)

Section Markup.

Lemma strip_tags_cons c s :
  strip_tags (String c s) =
  if Ascii.eqb c "<" then
    match s with
    | EmptyString => String c s
    | String d _ =>
        if Ascii.eqb d ">" then String c (strip_tags s) else strip_tags_after s
    end
  else String c (strip_tags s).
Proof. reflexivity. Qed.

Lemma strip_tags_after_cons c s :
  strip_tags_after (String c s) =
  if Ascii.eqb c ">" then strip_tags s else strip_tags_after s.
Proof. reflexivity. Qed.

Lemma strip_tags_settled s :
  settled (strip_tags s) = true /\ settled (strip_tags_after s) = true.
Proof.
  induction s as [|c s [IH1 IH2]]; [split; reflexivity|].
  rewrite strip_tags_cons, strip_tags_after_cons. split.
  - destruct (Ascii.eqb_spec c "<") as [->|Hc].
    + destruct s as [|d s]; [reflexivity|].
      destruct (Ascii.eqb_spec d ">") as [->|Hd]; [|exact IH2].
      cbn [settled]. rewrite IH1. rewrite strip_tags_cons. reflexivity.
    + cbn [settled]. rewrite IH1.
      destruct (Ascii.eqb_spec c "<"); [contradiction | reflexivity].
  - destruct (Ascii.eqb c ">"); assumption.
Qed.

Lemma settled_fixed s : settled s = true -> strip_tags s = s.
Proof.
  induction s as [|c s IH]; [reflexivity|].
  cbn [settled]. rewrite andb_true_iff. intros [Hc Hs].
  rewrite strip_tags_cons. destruct (Ascii.eqb c "<").
  - destruct s as [|d s]; [reflexivity|]. rewrite Hc. now rewrite IH.
  - now rewrite IH.
Qed.

Lemma plain_settled s : mentions "<" s = false -> settled s = true.
Proof.
  induction s as [|c s IH]; [reflexivity|].
  cbn [mentions settled]. rewrite orb_false_iff. intros [-> Hs]. now apply IH.
Qed.

(** X1. [strip_tags] leaves a text alone exactly when nothing in it starts
    a match of the pattern; its result is always such a text, so stripping
    twice is stripping once; and a text without [<] is returned as it is. *)
Theorem strip_tags_fixed_points :
  (forall s, strip_tags s = s <-> settled s = true) /\
  (forall s, settled (strip_tags s) = true) /\
  (forall s, strip_tags (strip_tags s) = strip_tags s) /\
  (forall s, mentions "<" s = false -> strip_tags s = s).
Proof.
  split; [|split; [|split]].
  - intros s. split; [|apply settled_fixed].
    intros H. rewrite <- H. apply strip_tags_settled.
  - intros s. apply strip_tags_settled.
  - intros s. apply settled_fixed, strip_tags_settled.
  - intros s H. now apply settled_fixed, plain_settled.
Qed.

Lemma strip_tags_sublist s :
  list_ascii_of_string (strip_tags s) `sublist_of` list_ascii_of_string s /\
  list_ascii_of_string (strip_tags_after s) `sublist_of` list_ascii_of_string s.
Proof.
  induction s as [|c s [IH1 IH2]]; [split; constructor|].
  rewrite strip_tags_cons, strip_tags_after_cons. split.
  - destruct (Ascii.eqb c "<").
    + destruct s as [|d s]; [reflexivity|].
      destruct (Ascii.eqb d ">"); cbn [list_ascii_of_string].
      * now apply sublist_skip.
      * now apply sublist_cons.
    + cbn [list_ascii_of_string]. now apply sublist_skip.
  - cbn [list_ascii_of_string].
    destruct (Ascii.eqb c ">"); now apply sublist_cons.
Qed.

Lemma length_list_ascii s :
  length (list_ascii_of_string s) = String.length s.
Proof. induction s as [|c s IH]; simpl; congruence. Qed.

(** X2. [strip_tags] only deletes: what it returns is the input with some
    characters left out, the others in their order, so it is never longer
    than the input. *)
Theorem strip_tags_only_deletes (s : string) :
  list_ascii_of_string (strip_tags s) `sublist_of` list_ascii_of_string s /\
  (String.length (strip_tags s) <= String.length s)%nat.
Proof.
  split; [apply strip_tags_sublist|].
  rewrite <- !length_list_ascii. apply sublist_length, strip_tags_sublist.
Qed.

Lemma strip_tags_after_close t b :
  mentions ">" t = false ->
  strip_tags_after (t ++ String ">" b)%string = strip_tags b.
Proof.
  induction t as [|c t IH]; [reflexivity|].
  cbn [mentions]. rewrite orb_false_iff. intros [Hc Ht].
  rewrite append_cons, strip_tags_after_cons, Hc. now apply IH.
Qed.

Lemma strip_tags_after_open t :
  mentions ">" t = false -> strip_tags_after t = "".
Proof.
  induction t as [|c t IH]; [reflexivity|].
  cbn [mentions]. rewrite orb_false_iff. intros [Hc Ht].
  rewrite strip_tags_after_cons, Hc. now apply IH.
Qed.

Lemma strip_tags_app_plain a s :
  mentions "<" a = false -> strip_tags (a ++ s)%string = (a ++ strip_tags s)%string.
Proof.
  induction a as [|c a IH]; [reflexivity|].
  cbn [mentions]. rewrite orb_false_iff. intros [Hc Ha].
  rewrite !append_cons, strip_tags_cons, Hc. now rewrite IH.
Qed.

(** X3. In a text whose part before the first [<] is [a]: a tag [<t>]
    with a non-empty [t] is deleted and stripping goes on behind it; a [<]
    followed by text with no [>] takes the rest of the string with it; the
    two characters [<>] stay, and so does a [<] that ends the string. *)
Theorem strip_tags_removes_tag (a t b : string) :
  mentions "<" a = false ->
  t <> "" ->
  mentions ">" t = false ->
  strip_tags (a ++ "<" ++ t ++ ">" ++ b)%string = (a ++ strip_tags b)%string /\
  strip_tags (a ++ "<" ++ t)%string = a /\
  strip_tags (a ++ "<>" ++ b)%string = (a ++ "<>" ++ strip_tags b)%string /\
  strip_tags (a ++ "<")%string = (a ++ "<")%string.
Proof.
  intros Ha Hne Ht.
  destruct t as [|c t]; [congruence|].
  cbn [mentions] in Ht. apply orb_false_iff in Ht as [Hc Ht].
  split; [|split; [|split]]; rewrite strip_tags_app_plain by exact Ha.
  - f_equal. change ("<" ++ String c t ++ ">" ++ b)%string
      with (String "<" (String c (t ++ String ">" b))).
    rewrite strip_tags_cons. cbn [Ascii.eqb Bool.eqb]. rewrite Hc.
    rewrite strip_tags_after_cons, Hc. now apply strip_tags_after_close.
  - change ("<" ++ String c t)%string with (String "<" (String c t)).
    rewrite strip_tags_cons. cbn [Ascii.eqb Bool.eqb]. rewrite Hc.
    rewrite strip_tags_after_cons, Hc, strip_tags_after_open by exact Ht.
    clear. induction a as [|d a IH]; [reflexivity|].
    rewrite append_cons. now f_equal.
  - reflexivity.
  - reflexivity.
Qed.

End Markup.

Section ResolverEdges.


Lemma sel_get_truthy sel o :
  truthy (sel_get sel o) = true -> sel !! o = Some (sel_get sel o).
Proof.
  unfold sel_get. destruct (sel !! o); [reflexivity | discriminate].
Qed.





(** X5. A non-empty selection under an option name resolves to nothing
    when no variant holds that value in the option's slot; this is so for
    whatever is selected under a fourth or later option name, since a
    variant has three slots. *)
Theorem findVariant_unknown_value (p : product) (sel : selection)
    (idx : nat) (o : string) :
  options p !! idx = Some o ->
  truthy (sel_get sel o) = true ->
  (sel_get sel o ∉ slot_values p idx -> findVariant p sel = None) /\
  ((3 <= idx)%nat -> findVariant p sel = None).
Proof.
  intros Hidx Hw.
  assert (Hnone : (forall v, v ∈ variants p -> variant_option v idx <> sel_get sel o) ->
                  findVariant p sel = None).
  { intros Hv. rewrite findVariant_unfold. apply find_none. intros v Hin.
    destruct (matches_b p sel v) eqn:E; [|reflexivity].
    apply matches_b_spec in E. exfalso. apply (Hv v Hin).
    apply (E idx o); [exact Hidx | now apply sel_get_truthy | exact Hw]. }
  split.
  - intros Hnot. apply Hnone. intros v Hin Heq. apply Hnot.
    unfold slot_values. apply list_elem_of_fmap. eauto.
  - intros Hge. apply Hnone. intros v _ Heq.
    destruct idx as [|[|[|idx]]]; try lia. simpl in Heq.
    rewrite <- Heq in Hw. discriminate.
Qed.

End ResolverEdges.

Section Rendering.

Lemma distinct_from_seen s1 s2 l :
  (forall x, x ∈ s1 <-> x ∈ s2) -> distinct_from s1 l = distinct_from s2 l.
Proof.
  revert s1 s2. induction l as [|y l IH]; intros s1 s2 H; [reflexivity|].
  cbn [distinct_from].
  rewrite (bool_decide_ext (y ∈ s1) (y ∈ s2)) by apply H.
  destruct (bool_decide (y ∈ s2)); [now apply IH|].
  f_equal. apply IH. intros x. rewrite !elem_of_cons, H. reflexivity.
Qed.

Lemma distinct_from_app seen l1 l2 :
  distinct_from seen (l1 ++ l2) =
  distinct_from seen l1 ++ distinct_from (l1 ++ seen) l2.
Proof.
  revert seen. induction l1 as [|y l1 IH]; intros seen; [reflexivity|].
  cbn [distinct_from app]. destruct (bool_decide (y ∈ seen)) eqn:Hy.
  - rewrite IH. f_equal. apply distinct_from_seen. intros x.
    apply bool_decide_eq_true in Hy.
    rewrite elem_of_cons, !elem_of_app. intuition (subst; auto).
  - rewrite IH. cbn [app]. f_equal. f_equal. apply distinct_from_seen.
    intros x. rewrite !elem_of_cons, !elem_of_app, elem_of_cons. tauto.
Qed.

Lemma distinct_take n l :
  take (length (distinct (take n l))) (distinct l) = distinct (take n l).
Proof.
  unfold distinct.
  replace (distinct_from [] l)
    with (distinct_from [] (take n l ++ drop n l)) by now rewrite take_drop.
  rewrite distinct_from_app. apply take_app_length.
Qed.

Lemma distinct_from_NoDup seen l : NoDup (distinct_from seen l).
Proof.
  revert seen. induction l as [|y l IH]; intros seen; cbn [distinct_from].
  - constructor.
  - destruct (bool_decide (y ∈ seen)); [apply IH|].
    constructor; [|apply IH].
    rewrite distinct_from_elem. intros [_ H]. apply H. left.
Qed.

Lemma distinct_elem x l : x ∈ distinct l <-> x ∈ l.
Proof.
  unfold distinct. rewrite distinct_from_elem. split; [tauto|].
  intros H. split; [exact H | apply not_elem_of_nil].
Qed.

Lemma render_group_values p o idx :
  map val (buttons (render_group p o idx)) = distinct (slot_values p idx).
Proof.
  unfold render_group, slot_values. cbn [buttons].
  rewrite map_map. cbn [val]. apply map_id.
Qed.

(** X6. The group rendered for an option carries the option name as its
    title and on every button; no button is pressed; every button's
    [data-val] is its value as a string; each value found in the option's
    slot among the variants is on exactly one button; and the buttons come
    in the order in which their values first appear, reading the variants
    from the top: the values among the first [n] variants are those of a
    leading run of buttons. *)
Theorem render_group_buttons (p : product) (o : string) (idx : nat) :
  let g := render_group p o idx in
  group_title g = o /\
  Forall (fun b => data_opt b = o /\ data_val b = String_of (val b) /\
                   aria_pressed b = false) (buttons g) /\
  NoDup (map val (buttons g)) /\
  (forall x, x ∈ map val (buttons g) <-> x ∈ slot_values p idx) /\
  (forall n, exists k, forall x,
     x ∈ take k (map val (buttons g)) <-> x ∈ take n (slot_values p idx)).
Proof.
  intros g. subst g. split; [reflexivity|]. split; [|split; [|split]].
  - unfold render_group. cbn [buttons]. apply Forall_forall.
    intros b Hb. apply list_elem_of_fmap in Hb as (x & -> & _). auto.
  - rewrite render_group_values. apply distinct_from_NoDup.
  - intros x. rewrite render_group_values. apply distinct_elem.
  - intros n. rewrite render_group_values.
    exists (length (distinct (take n (slot_values p idx)))). intros x.
    rewrite distinct_take. apply distinct_elem.
Qed.

End Rendering.

Section OptionButtons.

Variable env : platform.



Lemma surroundings_resolved p m :
  surroundings (resolved env p m) = surroundings m.
Proof. unfold resolved. now destruct (findVariant p _). Qed.

Lemma step_option_click gi bi w m g btn p :
  modal w = Some m ->
  cqv_variants m !! gi = Some g ->
  buttons g !! bi = Some btn ->
  picker_product m = Some p ->
  step env w (ClickOption gi bi) =
  set_modal (Some (resolved env p (clicked gi bi btn m))) w.
Proof.
  intros Hm Hg Hb Hp. unfold step. cbn [handle]. unfold dispatch.
  rewrite try_catch_run.
  now rewrite (option_click_run env gi bi w m g btn p Hm Hg Hb Hp).
Qed.


(** X8. When the selection a click leaves matches no variant, the price
    line, the title line and the session variant id stay those of the
    variant shown before, although the clicked button is now the pressed
    one; a click on the add button then sends that earlier variant. *)
Theorem unmatched_click_keeps_variant gi bi w m g btn p :
  modal w = Some m ->
  cqv_variants m !! gi = Some g ->
  buttons g !! bi = Some btn ->
  picker_product m = Some p ->
  findVariant p (<[data_opt btn := val btn]> (selections m)) = None ->
  display (step env w (ClickOption gi bi)) = display w /\
  (forall quick vid,
     onclick m = Some (p, quick) -> add_disabled m = false ->
     variantId m = Some vid -> vid <> "" ->
     head (effects_since w (run env w [ClickOption gi bi; ClickAdd])) =
     Some (cart_request (primary_line m vid))).
Proof.
  intros Hm Hg Hb Hp Hnone.
  assert (Hstep : step env w (ClickOption gi bi) =
                  set_modal (Some (clicked gi bi btn m)) w).
  { rewrite (step_option_click gi bi w m g btn p Hm Hg Hb Hp).
    unfold resolved, clicked at 1. fields. now rewrite Hnone. }
  split.
  - rewrite Hstep. unfold display. fields. now rewrite Hm.
  - intros quick vid Hon Hdis Hvid Hne.
    cbn [run foldl]. rewrite Hstep.
    set (m1 := clicked gi bi btn m). set (w1 := set_modal (Some m1) w).
    assert (Hm1 : modal w1 = Some m1) by reflexivity.
    assert (Hv1 : variantId m1 = Some vid) by exact Hvid.
    assert (Hline : primary_line m1 vid = primary_line m vid) by reflexivity.
    assert (Hadd : step env w1 ClickAdd = snd (exec env (add_onclick p quick) w1)).
    { unfold step. cbn [handle]. unfold dispatch.
      rewrite try_catch_run, bind_run, (the_modal_run env w1 m1 Hm1).
      replace (onclick m1) with (Some (p, quick)) by (symmetry; exact Hon).
      replace (add_disabled m1) with false by (symmetry; exact Hdis).
      now destruct (exec env (add_onclick p quick) w1) as [[[]|e] w2]. }
    rewrite Hadd.
    destruct (cart_ok (cart_add_js env (fetches w1) (primary_line m1 vid))) eqn:Hok.
    + rewrite (add_onclick_primary_ok env p quick w1 m1 vid Hm1 Hv1 Hne Hok).
      rewrite Hline.
      destruct (black_and_medium p vid), (configured_upsell quick w1); cbn [snd];
        erewrite effects_since_app by (cbn [trace]; reflexivity); reflexivity.
    + rewrite (add_onclick_primary_fails env p quick w1 m1 vid Hm1 Hv1 Hne Hok).
      rewrite Hline. cbn [snd].
      erewrite effects_since_app by (cbn [trace]; reflexivity). reflexivity.
Qed.

End OptionButtons.

Section AwaitFree.

Variable env : platform.

Lemma await_free_until {A} (t : task A) :
  await_free t ->
  forall w, until_await t w = (Ended (fst (exec env t w)), snd (exec env t w)).
Proof.
  induction 1 as [r|k _ IH|w' k _ IH]; intros w; cbn [until_await exec]; auto.
Qed.

Lemma await_free_bind {A B} (t : task A) (f : A -> task B) :
  await_free t -> (forall a, await_free (f a)) -> await_free (t ≫= f).
Proof.
  intros Ht Hf. induction Ht as [[a|e]|k _ IH|w' k _ IH]; cbn.
  - apply Hf.
  - constructor.
  - constructor. exact IH.
  - constructor. exact IH.
Qed.

Lemma await_free_try_catch {A} (t : task A) h :
  await_free t -> (forall e, await_free (h e)) -> await_free (try_catch t h).
Proof.
  intros Ht Hh. induction Ht as [[a|e]|k _ IH|w' k _ IH]; cbn.
  - constructor.
  - apply Hh.
  - constructor. exact IH.
  - constructor. exact IH.
Qed.

Lemma await_free_ret {A} (a : A) : await_free (mret a).
Proof. constructor. Qed.

Lemma await_free_throw {A} e : await_free (throw (A := A) e).
Proof. constructor. Qed.

Lemma await_free_get_world : await_free get_world.
Proof. repeat constructor. Qed.

Lemma await_free_the_modal : await_free the_modal.
Proof. constructor. intros w. destruct (modal w); constructor. Qed.

Lemma await_free_modify f : await_free (modify f).
Proof. repeat constructor. Qed.

Lemma await_free_emit e : await_free (emit e).
Proof. apply await_free_modify. Qed.

Lemma await_free_update_modal f : await_free (update_modal f).
Proof.
  apply await_free_bind; [apply await_free_the_modal|].
  intros _. apply await_free_modify.
Qed.

Lemma await_free_dispatch (t : task unit) : await_free t -> await_free (dispatch t).
Proof.
  intros H. apply await_free_try_catch; [exact H|]. intros e. constructor.
Qed.

Lemma await_free_forEach_from {A} (f : A -> nat -> task unit) l i :
  (forall x j, await_free (f x j)) -> await_free (forEach_from f i l).
Proof.
  intros Hf. revert i. induction l as [|x l IH]; intros i; cbn [forEach_from].
  - constructor.
  - apply await_free_bind; [apply Hf | intros _; apply IH].
Qed.

Lemma await_free_formatMoney cents : await_free (formatMoney env cents).
Proof. rewrite formatMoney_done. constructor. Qed.

Create HintDb free.

#[local] Hint Resolve await_free_ret await_free_throw await_free_get_world
  await_free_the_modal await_free_modify await_free_emit
  await_free_update_modal await_free_dispatch await_free_formatMoney : free.

Ltac free_step :=
  match goal with
  | |- await_free (_ ≫= _) => apply await_free_bind; [|intros ?]
  | |- await_free (try_catch _ _) => apply await_free_try_catch; [|intros ?]
  | |- await_free (forEach _ _) => apply await_free_forEach_from; intros ? ?
  | |- await_free (match ?x with _ => _ end) => destruct x
  | |- await_free _ => solve [auto with free]
  end.

Ltac free_auto := cbv zeta; repeat free_step.

Lemma await_free_option_click gi bi : await_free (option_click env gi bi).
Proof. unfold option_click. free_auto. Qed.

Lemma await_free_preselect iv o idx : await_free (preselect env iv o idx).
Proof.
  unfold preselect. free_auto. apply await_free_dispatch, await_free_option_click.
Qed.

Lemma await_free_buildVariantPickers p : await_free (buildVariantPickers env p).
Proof. unfold buildVariantPickers. free_auto; apply await_free_preselect. Qed.

Lemma await_free_ensureModal : await_free ensureModal.
Proof. unfold ensureModal. free_auto. Qed.

Lemma await_free_openModal : await_free openModal.
Proof. unfold openModal. free_auto. Qed.

Lemma await_free_closeModal : await_free closeModal.
Proof. unfold closeModal. free_auto. Qed.

Lemma await_free_show_product p quick : await_free (show_product env p quick).
Proof.
  unfold show_product. free_auto;
    auto using await_free_ensureModal, await_free_buildVariantPickers,
      await_free_openModal.
Qed.

Lemma await_free_on_keydown key : await_free (on_keydown key).
Proof. unfold on_keydown. free_auto. all: apply await_free_closeModal. Qed.

End AwaitFree.

Section Loading.

Variable env : platform.

Lemma layout_press bi gi gs : layout (alter (press bi) gi gs) = layout gs.
Proof.
  revert gi. induction gs as [|g gs IH]; intros [|gi]; simpl; try reflexivity.
  - f_equal. f_equal. apply press_keys.
  - f_equal. apply IH.
Qed.

Lemma resolved_title p m :
  cqv_title (resolved env p m) = cqv_title m \/
  exists v, v ∈ variants p /\ cqv_title (resolved env p m) = titled p v.
Proof.
  unfold resolved. destruct (findVariant p (selections m)) as [v|] eqn:Hf.
  - right. exists v. split; [|reflexivity].
    apply find_some in Hf as [Hin _]. now apply list_elem_of_In.
  - now left.
Qed.

(** The modal a run of manual clicks leaves. *)
Lemma manual_loop_frame p iv l : forall i w m,
  modal w = Some m ->
  picker_product m = Some p ->
  exists m',
    exec env (forEach_from (manual_click env iv) i l) w =
      (Ok tt, set_modal (Some m') w) /\
    picker_product m' = Some p /\
    surroundings m' = surroundings m /\
    layout (cqv_variants m') = layout (cqv_variants m) /\
    (cqv_title m' = cqv_title m \/
     exists v, v ∈ variants p /\ cqv_title m' = titled p v).
Proof.
  induction l as [|o l IH]; intros i w m Hm Hp.
  - exists m. cbn [forEach_from]. rewrite ret_run, (set_modal_same w m Hm).
    repeat split; auto.
  - cbn [forEach_from]. rewrite bind_run.
    destruct (querySelector (cqv_variants m) o (String_of (variant_option iv i)))
      as [[gi bi]|] eqn:Hq.
    + destruct (querySelector_Some _ _ _ _ _ Hq) as (g & btn & Hg & Hb & _).
      rewrite (manual_click_run env p iv o i w m gi bi g btn Hm Hp Hq Hg Hb).
      set (m1 := resolved env p (clicked gi bi btn m)).
      destruct (IH (S i) (set_modal (Some m1) w) m1) as (m' & Hrun & Hp' & Hs' & Hl' & Ht').
      * reflexivity.
      * unfold m1. now rewrite picker_product_resolved.
      * exists m'. rewrite Hrun. split; [reflexivity|]. split; [exact Hp'|].
        split; [|split].
        -- rewrite Hs'. unfold m1. now rewrite surroundings_resolved.
        -- rewrite Hl'. unfold m1. rewrite skeleton_resolved. apply layout_press.
        -- destruct Ht' as [Ht'|Ht']; [|now right]. rewrite Ht'.
           unfold m1.
           destruct (resolved_title p (clicked gi bi btn m)) as [H|H];
             [left; rewrite H; reflexivity | right; exact H].
    + assert (Hrun0 : exec env (manual_click env iv o i) w = (Ok tt, w)).
      { unfold manual_click. run_task. now rewrite Hq. }
      rewrite Hrun0. apply (IH (S i) w m Hm Hp).
Qed.

Lemma rendered_from_bare p i l :
  variants p = [] -> rendered_from p i l = map bare_group l.
Proof.
  intros Hv. revert i. induction l as [|o l IH]; intros i; [reflexivity|].
  cbn [rendered_from map]. rewrite IH. f_equal.
  unfold render_group. now rewrite Hv.
Qed.

(** What the builder leaves: the page but for the modal, and in the modal
    everything but the pickers, the price line, the title line and the
    session id. *)
Lemma build_frame p w m :
  modal w = Some m ->
  exists m',
    exec env (buildVariantPickers env p) w = (Ok tt, set_modal (Some m') w) /\
    picker_product m' = Some p /\
    surroundings m' = surroundings m /\
    layout (cqv_variants m') = layout (rendered p) /\
    (cqv_title m' = cqv_title m \/
     exists v, v ∈ variants p /\ cqv_title m' = titled p v) /\
    match initialVariant p with
    | Some iv =>
        variantId m' = Some (JS.toString (id iv)) /\
        cqv_price m' = money env (price iv)
    | None =>
        variantId m' = variantId m /\ cqv_price m' = cqv_price m /\
        cqv_title m' = cqv_title m /\
        cqv_variants m' = rendered p /\ selections m' = ∅
    end.
Proof.
  intros Hm. rewrite buildVariantPickers_run, bind_run.
  rewrite (render_pickers_run env p w m Hm).
  set (m0 := set_cqv_variants (rendered p) _).
  destruct (initialVariant p) as [iv|] eqn:Hiv.
  - destruct (manual_loop_frame p iv (options p) 0 (set_modal (Some m0) w) m0)
      as (m' & Hrun & Hp' & Hs' & Hl' & Ht'); try reflexivity.
    unfold forEach. rewrite bind_run, Hrun. run_task.
    eexists. split; [reflexivity|]. fields. repeat split; auto.
  - rewrite ret_run. exists m0. repeat split; reflexivity || (now left).
Qed.

(** X9. For a product without variants the builder renders a group
    without buttons for each option and empties the selection object, and
    leaves the session variant id and the price line as they were before
    the call: those of the product shown last, or nothing on a new modal. *)
Theorem empty_product_keeps_session (p : product) (w : world) (m : modal_el) :
  variants p = [] ->
  modal w = Some m ->
  let w' := snd (exec env (buildVariantPickers env p) w) in
  exists m',
    modal w' = Some m' /\
    variantId m' = variantId m /\
    cqv_price m' = cqv_price m /\
    cqv_variants m' = map bare_group (options p) /\
    selections m' = ∅ /\
    surroundings m' = surroundings m /\
    set_modal (modal w) w' = w.
Proof.
  intros Hv Hm w'. subst w'.
  destruct (build_frame p w m Hm) as (m' & -> & _ & Hs & _ & _ & Hiv).
  assert (Hnone : initialVariant p = None)
    by (unfold initialVariant; now rewrite Hv).
  rewrite Hnone in Hiv. destruct Hiv as (Hid & Hprice & _ & Hgs & Hsel).
  exists m'. cbn [snd]. fields. repeat split; auto.
  - rewrite Hgs. now apply rendered_from_bare.
  - now destruct w.
Qed.

End Loading.

Section QuickView.

Variable env : platform.

Lemma ensureModal_run w :
  exec env ensureModal w =
  (Ok tt, set_modal (Some (default fresh_modal (modal w))) w).
Proof.
  unfold ensureModal. run_task. destruct (modal w) as [m|] eqn:Hm.
  - rewrite ret_run. change (default fresh_modal (Some m)) with m.
    now rewrite (set_modal_same w m Hm).
  - now rewrite modify_run.
Qed.

Lemma initialVariant_None p : initialVariant p = None -> variants p = [].
Proof.
  unfold initialVariant. destruct (find available (variants p)); [discriminate|].
  now destruct (variants p).
Qed.

Lemma show_product_run p quick w :
  let m0 := default fresh_modal (modal w) in
  exists m',
    exec env (show_product env p quick) w =
      (Ok tt, set_no_scroll true
                (set_modal (Some (set_open true (set_onclick (Some (p, quick)) m'))) w)) /\
    picker_product m' = Some p /\
    surroundings m' = surroundings (filled p m0) /\
    layout (cqv_variants m') = layout (rendered p) /\
    (cqv_title m' = product_title p \/
     exists v, v ∈ variants p /\ cqv_title m' = titled p v) /\
    priced env p m'.
Proof.
  intros m0. unfold show_product. cbv zeta.
  rewrite bind_run, ensureModal_run. fold m0. run_task.
  match goal with
  | |- context [exec env (buildVariantPickers env p) ?W] =>
      destruct (build_frame env p W (filled p m0) eq_refl)
        as (m' & Hrun & Hp & Hs & Hl & Ht & Hiv)
  end.
  rewrite Hrun. run_task. erewrite openModal_run by side.
  exists m'. split; [reflexivity|]. repeat split; auto.
  destruct (initialVariant p) as [iv|] eqn:Hi.
  - right. exists iv. split; [now apply initialVariant_elem | exact Hiv].
  - left. now apply initialVariant_None.
Qed.

Lemma on_click_parks ev quick h :
  lands_on ev quick h ->
  on_click env ev = AwaitProduct h (on_product_reply env quick).
Proof.
  intros (Hq & Hh & Hne). unfold on_click. rewrite Hq, Hh.
  destruct h as [|c h]; [congruence | reflexivity].
Qed.

Lemma on_product_reply_run quick o w :
  exec env (on_product_reply env quick o) w =
  match product_of o with
  | Some p => exec env (show_product env p quick) w
  | None => (Ok tt, set_trace (trace w ++ load_failure o) w)
  end.
Proof.
  unfold on_product_reply. rewrite try_catch_run.
  destruct o as [|[] [p|]]; cbn [product_of negb]; try (run_task; rewrite <- app_assoc; reflexivity).
  destruct (show_product_run p quick w) as (m' & -> & _). reflexivity.
Qed.

Lemma await_free_on_product_reply quick o :
  await_free (on_product_reply env quick o).
Proof.
  unfold on_product_reply. apply await_free_try_catch.
  - destruct o as [|[] [p|]]; cbn [negb];
      auto using await_free_show_product, await_free_throw.
  - intros e. apply await_free_bind; [apply await_free_emit|].
    intros _. apply await_free_emit.
Qed.

Lemma on_product_reply_ok quick o w :
  fst (exec env (on_product_reply env quick o) w) = Ok tt.
Proof.
  rewrite on_product_reply_run. destruct (product_of o) as [p|]; [|reflexivity].
  destruct (show_product_run p quick w) as (m' & -> & _). reflexivity.
Qed.

(** The listener resumed with the reply ends in that turn. *)
Lemma on_product_reply_until quick o w :
  until_await (dispatch (on_product_reply env quick o)) w =
  (Ended (Ok tt), snd (exec env (on_product_reply env quick o) w)).
Proof.
  unfold dispatch. rewrite until_try_catch.
  rewrite (await_free_until env _ (await_free_on_product_reply quick o)).
  now rewrite on_product_reply_ok.
Qed.

Lemma click_parks ev quick h w :
  lands_on ev quick h ->
  until_await (handle env (Click ev)) w =
  (AtProduct h (fun o => dispatch (on_product_reply env quick o)), w).
Proof.
  intros H. cbn [handle]. rewrite (on_click_parks ev quick h H). reflexivity.
Qed.

Lemma step_click ev quick h w :
  lands_on ev quick h ->
  step env w (Click ev) =
  snd (exec env (on_product_reply env quick (products_js env (fetches w) h))
         (sent (product_request h) w)).
Proof.
  intros H. unfold step. cbn [handle]. unfold dispatch.
  rewrite try_catch_run, (on_click_parks ev quick h H). cbn [exec].
  set (o := products_js env (fetches w) h).
  pose proof (on_product_reply_ok quick o (sent (product_request h) w)) as Hok.
  destruct (exec env (on_product_reply env quick o) _) as [[[]|e] w'];
    [reflexivity | discriminate].
Qed.

Lemma show_product_showing p quick w :
  let w' := snd (exec env (show_product env p quick) w) in
  showing p quick w' /\ trace w' = trace w /\ fetches w' = fetches w /\
  coherent env w'.
Proof.
  intros w'. subst w'.
  destruct (show_product_run p quick w) as (m' & -> & Hp & Hs & Hl & Ht & Hv).
  injection Hs as _ Hdesc Hsrc Halt _ _ _ _.
  assert (Hpres : presents p quick (set_open true (set_onclick (Some (p, quick)) m')))
    by (repeat split; auto).
  cbn [snd]. split; [|repeat split].
  - eexists. split; [reflexivity|]. fields. repeat split; auto.
  - intros m [= <-]. exists p, quick. split; [exact Hpres | exact Hv].
Qed.

(** X10. A click on a quick-view trigger with a handle, answered by the
    product, leaves the modal open and the scroll locked, with the
    product's description stripped of tags, its first image (or else its
    featured image, or nothing), its title as the image's alternative
    text, a title line that is the product title alone or followed by a
    variant's title, the pickers of that product, and an add handler for
    that product and that trigger; the one request of the click is the
    product request.  Taken turn by turn: the listener stops at the
    product request, and on whatever page it is resumed with the product
    it does the same there in one stretch, with no further request. *)
Theorem quick_view_shows_product (ev : click_target) (quick : quick_el)
    (h : string) (p : product) :
  lands_on ev quick h ->
  (forall w,
     products_js env (fetches w) h = Response true (Some p) ->
     let w' := step env w (Click ev) in
     showing p quick w' /\
     effects_since w w' = [product_request h] /\
     fetches w' = S (fetches w)) /\
  (exists k,
     (forall w, until_await (handle env (Click ev)) w = (AtProduct h k, w)) /\
     forall w1, exists w2,
       until_await (k (Response true (Some p))) w1 = (Ended (Ok tt), w2) /\
       showing p quick w2 /\ trace w2 = trace w1 /\ fetches w2 = fetches w1).
Proof.
  intros Hev. split.
  - intros w Hreply w'. subst w'.
    rewrite (step_click ev quick h w Hev), Hreply, on_product_reply_run.
    cbn [product_of].
    destruct (show_product_showing p quick (sent (product_request h) w))
      as (Hshow & Htr & Hf & _).
    split; [exact Hshow|]. split; [|exact Hf].
    apply effects_since_app. rewrite Htr. reflexivity.
  - exists (fun o => dispatch (on_product_reply env quick o)).
    split; [intros w; exact (click_parks ev quick h w Hev)|].
    intros w1. eexists. split; [apply on_product_reply_until|].
    rewrite on_product_reply_run. cbn [product_of].
    destruct (show_product_showing p quick w1) as (Hshow & Htr & Hf & _).
    auto.
Qed.

(** X11. Showing a product does not reset the quantity field, the message
    area or the disabled state of the add button: on a modal that exists
    they stay what they were (a message of an earlier failure, a button
    left disabled by an add that went through), and on a new modal they
    are the markup's: quantity 1, no message, button enabled. *)
Theorem quick_view_keeps_quantity_and_message (ev : click_target)
    (quick : quick_el) (h : string) (p : product) (w : world) :
  lands_on ev quick h ->
  products_js env (fetches w) h = Response true (Some p) ->
  let w' := step env w (Click ev) in
  let before := default fresh_modal (modal w) in
  (cqv_qty <$> modal w') = Some (cqv_qty before) /\
  (cqv_msg <$> modal w') = Some (cqv_msg before) /\
  (add_disabled <$> modal w') = Some (add_disabled before) /\
  (modal w = None ->
   (cqv_qty <$> modal w') = Some "1" /\ (cqv_msg <$> modal w') = Some "" /\
   (add_disabled <$> modal w') = Some false).
Proof.
  intros Hev Hreply w' before. subst w' before.
  rewrite (step_click ev quick h w Hev), Hreply, on_product_reply_run.
  cbn [product_of].
  destruct (show_product_run p quick (sent (product_request h) w))
    as (m' & -> & _ & Hs & _).
  cbn [snd]. fields. injection Hs as _ _ _ _ Hqty Hdis Hmsg _.
  cbn [fmap option_fmap option_map]. fields. rewrite Hqty, Hdis, Hmsg.
  unfold filled. fields.
  split; [reflexivity|]. split; [reflexivity|]. split; [reflexivity|].
  intros ->. repeat split.
Qed.

(** X12. A click on a trigger with a handle whose request fails (no
    reply, a reply that is not a success, or a success whose body is no
    JSON) logs the error and raises the alert, and does nothing else: the
    modal is not created, not filled and not opened, and the scroll lock
    is as before.  So it is on whatever page the listener is resumed with
    such a reply. *)
Theorem quick_view_failure (ev : click_target) (quick : quick_el) (h : string) :
  lands_on ev quick h ->
  (forall w,
     let o := products_js env (fetches w) h in
     product_of o = None ->
     let w' := step env w (Click ev) in
     modal w' = modal w /\ no_scroll w' = no_scroll w /\
     effects_since w w' = product_request h :: load_failure o /\
     fetches w' = S (fetches w)) /\
  (exists k,
     (forall w, until_await (handle env (Click ev)) w = (AtProduct h k, w)) /\
     forall o w1,
       product_of o = None ->
       until_await (k o) w1 =
       (Ended (Ok tt), set_trace (trace w1 ++ load_failure o) w1)).
Proof.
  intros Hev. split.
  - intros w o Ho w'. subst w' o.
    rewrite (step_click ev quick h w Hev), on_product_reply_run, Ho.
    cbn [snd]. repeat split.
    apply effects_since_app. cbn [trace set_trace sent set_fetches].
    now rewrite <- app_assoc.
  - exists (fun o => dispatch (on_product_reply env quick o)).
    split; [intros w; exact (click_parks ev quick h w Hev)|].
    intros o w1 Ho. rewrite on_product_reply_until, on_product_reply_run, Ho.
    reflexivity.
Qed.

(** X13. A cart reply with a success status whose body cannot be read as
    JSON counts as a failed add, although the shop has taken the item:
    the message area reports the failure, the button is enabled again,
    the error is logged, and there is no upsell request and no
    navigation. *)
Theorem unreadable_cart_reply_is_failure (p : product) (quick : quick_el)
    (w : world) (m : modal_el) (vid : string) :
  modal w = Some m ->
  variantId m = Some vid -> vid <> "" ->
  cart_add_js env (fetches w) (primary_line m vid) = Response true None ->
  let w' := snd (exec env (add_onclick p quick) w) in
  (cqv_msg <$> modal w') = Some "Could not add to cart. Try again." /\
  (add_disabled <$> modal w') = Some false /\
  effects_since w w' =
    [cart_request (primary_line m vid); ConsoleError "SyntaxError"] /\
  fetches w' = S (fetches w).
Proof.
  intros Hm Hv Hne Ho w'. subst w'.
  assert (Hok : cart_ok (cart_add_js env (fetches w) (primary_line m vid)) = false)
    by now rewrite Ho.
  rewrite (add_onclick_primary_fails env p quick w m vid Hm Hv Hne Hok), Ho.
  cbn [snd]. erewrite effects_since_app by (cbn [trace]; reflexivity).
  repeat split.
Qed.

End QuickView.

Section Stretches.

Variable env : platform.
Context (R : world -> world -> Prop) `{!Lasting R}.

Lemma lasting_refl w : R w w.
Proof. now apply lasting_outside. Qed.

Lemma lasting_sent e w : R w (sent e w).
Proof. now apply lasting_outside. Qed.

Lemma stretch_rebase {A} (t : task A) w0 w1 w :
  R w0 w1 -> stretch_from R t w1 w -> stretch_from R t w0 w.
Proof.
  intros H01 Ht. induction Ht as [r w1 w H|k w1 w _ IH|w' k w1 w _ IH
                                  |h k w1 w H Hk _|b k w1 w H Hk _].
  - constructor. eapply lasting_trans; eauto.
  - constructor. auto.
  - constructor. auto.
  - constructor; [eapply lasting_trans; eauto | exact Hk].
  - constructor; [eapply lasting_trans; eauto | exact Hk].
Qed.

Lemma stretch_from_bind {A B} (t : task A) (f : A -> task B) w0 w :
  stretch_from R t w0 w -> (forall a, stretches R (f a)) ->
  stretch_from R (t ≫= f) w0 w.
Proof.
  intros Ht Hf. induction Ht as [[a|e] w0 w H|k w0 w _ IH|w' k w0 w _ IH
                                 |h k w0 w H _ IH|b k w0 w H _ IH].
  - apply (stretch_rebase _ w0 w w H). apply Hf.
  - now constructor.
  - constructor. exact IH.
  - constructor. exact IH.
  - constructor; [exact H | exact IH].
  - constructor; [exact H | exact IH].
Qed.

Lemma stretches_bind {A B} (t : task A) (f : A -> task B) :
  stretches R t -> (forall a, stretches R (f a)) -> stretches R (t ≫= f).
Proof. intros Ht Hf w. apply stretch_from_bind; auto. Qed.

Lemma stretch_from_try_catch {A} (t : task A) h w0 w :
  stretch_from R t w0 w -> (forall e, stretches R (h e)) ->
  stretch_from R (try_catch t h) w0 w.
Proof.
  intros Ht Hh. induction Ht as [[a|e] w0 w H|k w0 w _ IH|w' k w0 w _ IH
                                 |hd k w0 w H _ IH|b k w0 w H _ IH].
  - now constructor.
  - apply (stretch_rebase _ w0 w w H). apply Hh.
  - constructor. exact IH.
  - constructor. exact IH.
  - constructor; [exact H | exact IH].
  - constructor; [exact H | exact IH].
Qed.

Lemma stretches_try_catch {A} (t : task A) h :
  stretches R t -> (forall e, stretches R (h e)) -> stretches R (try_catch t h).
Proof. intros Ht Hh w. apply stretch_from_try_catch; auto. Qed.

Lemma stretches_ret {A} (a : A) : stretches R (mret a).
Proof. intros w. constructor. apply lasting_refl. Qed.

Lemma stretches_throw {A} e : stretches R (throw (A := A) e).
Proof. intros w. constructor. apply lasting_refl. Qed.

Lemma stretches_dispatch (t : task unit) : stretches R t -> stretches R (dispatch t).
Proof.
  intros Ht. apply stretches_try_catch; [exact Ht|]. intros e. apply stretches_ret.
Qed.

Lemma stretches_get_world : stretches R get_world.
Proof. intros w. repeat constructor. apply lasting_refl. Qed.

Lemma stretches_the_modal : stretches R the_modal.
Proof.
  intros w. constructor. destruct (modal w); constructor; apply lasting_refl.
Qed.

Lemma stretches_modify f : (forall w, R w (f w)) -> stretches R (modify f).
Proof. intros Hf w. repeat constructor. apply Hf. Qed.

Lemma stretches_emit e : stretches R (emit e).
Proof. apply stretches_modify. intros w. now apply lasting_outside. Qed.

Lemma stretches_update_modal f :
  (forall w m, modal w = Some m -> R w (set_modal (Some (f m)) w)) ->
  stretches R (update_modal f).
Proof.
  intros Hf w. unfold update_modal, the_modal. cbn. constructor.
  destruct (modal w) as [m|] eqn:Hm; cbn.
  - repeat constructor. rewrite Hm. cbn. now apply Hf.
  - constructor. apply lasting_refl.
Qed.

Lemma stretches_fetch_product h : stretches R (fetch_product h).
Proof.
  intros w. constructor; [apply lasting_refl|].
  intros o w'. constructor. apply lasting_refl.
Qed.

Lemma stretches_fetch_cart_add b : stretches R (fetch_cart_add b).
Proof.
  intros w. constructor; [apply lasting_refl|].
  intros o w'. constructor. apply lasting_refl.
Qed.

Lemma stretches_forEach_from {A} (f : A -> nat -> task unit) l i :
  (forall x j, stretches R (f x j)) -> stretches R (forEach_from f i l).
Proof.
  intros Hf. revert i. induction l as [|x l IH]; intros i; cbn [forEach_from].
  - apply stretches_ret.
  - apply stretches_bind; [apply Hf | intros _; apply IH].
Qed.

Lemma stretches_formatMoney cents : stretches R (formatMoney env cents).
Proof. rewrite formatMoney_done. apply stretches_ret. Qed.

(** A task that sends no request is one stretch, and can be judged by
    the page it ends on. *)
Lemma stretch_await_free {A} (t : task A) w0 w :
  await_free t -> R w0 (snd (exec env t w)) -> stretch_from R t w0 w.
Proof.
  intros Ht. revert w. induction Ht as [r|k _ IH|w' k _ IH]; intros w H.
  - now constructor.
  - constructor. now apply IH.
  - constructor. now apply IH.
Qed.

(** ** From the stretches to the runs *)

Lemma exec_stretch {A} (t : task A) w0 w :
  stretch_from R t w0 w -> R w0 (snd (exec env t w)).
Proof.
  intros H. induction H as [r w0 w H|k w0 w _ IH|w' k w0 w _ IH
                            |h k w0 w H _ IH|b k w0 w H _ IH]; cbn [exec]; auto.
  - eapply lasting_trans; [exact H|].
    eapply lasting_trans; [apply lasting_sent | apply IH].
  - eapply lasting_trans; [exact H|].
    eapply lasting_trans; [apply lasting_sent | apply IH].
Qed.

Lemma advance_stretch t w0 w :
  stretch_from R t w0 w ->
  R w0 (advance t w).1 /\
  forall nk, (advance t w).2 = Some nk -> parked_stretches R nk.2.
Proof.
  unfold advance.
  intros H. induction H as [r w0 w H|k w0 w _ IH|w' k w0 w _ IH
                            |h k w0 w H Hk _|b k w0 w H Hk _];
    cbn [until_await]; auto.
  - split; [exact H | discriminate].
  - split; [eapply lasting_trans; [exact H | apply lasting_sent]|].
    intros nk [= <-]. exact Hk.
  - split; [eapply lasting_trans; [exact H | apply lasting_sent]|].
    intros nk [= <-]. exact Hk.
Qed.

Lemma resume_stretch pg t others :
  stretches R t ->
  Forall (fun nk => parked_stretches R nk.2) others ->
  R (the_world pg) (the_world (resume pg t others)) /\
  Forall (fun nk => parked_stretches R nk.2) (waiting (resume pg t others)).
Proof.
  intros Ht Ho. unfold resume.
  destruct (advance_stretch t _ _ (Ht (the_world pg))) as [H1 H2].
  destruct (advance t (the_world pg)) as [w [nk|]]; cbn in *.
  - split; [exact H1|]. apply Forall_app. split; [exact Ho|].
    constructor; [now apply H2 | constructor].
  - split; [exact H1|]. now rewrite app_nil_r.
Qed.

Hypothesis handle_stretches : forall e, stretches R (handle env e).

Lemma turn_stretch pg ev :
  Forall (fun nk => parked_stretches R nk.2) (waiting pg) ->
  R (the_world pg) (the_world (turn env pg ev)) /\
  Forall (fun nk => parked_stretches R nk.2) (waiting (turn env pg ev)).
Proof.
  intros Hp. destruct ev as [e|n o|n o]; cbn [turn].
  - now apply resume_stretch.
  - destruct (unpark n (waiting pg)) as [[[k|k] others]|] eqn:Hu;
      try (split; [apply lasting_refl | assumption]).
    destruct (unpark_Some _ _ _ _ _ Hu Hp) as [Hk Ho].
    apply resume_stretch; [apply Hk | exact Ho].
  - destruct (unpark n (waiting pg)) as [[[k|k] others]|] eqn:Hu;
      try (split; [apply lasting_refl | assumption]).
    destruct (unpark_Some _ _ _ _ _ Hu Hp) as [Hk Ho].
    apply resume_stretch; [apply Hk | exact Ho].
Qed.

Lemma play_stretch evs : forall pg,
  Forall (fun nk => parked_stretches R nk.2) (waiting pg) ->
  R (the_world pg) (the_world (play env pg evs)) /\
  Forall (fun nk => parked_stretches R nk.2) (waiting (play env pg evs)).
Proof.
  induction evs as [|ev evs IH]; intros pg Hp.
  - split; [apply lasting_refl | exact Hp].
  - cbn [play foldl]. destruct (turn_stretch pg ev Hp) as [H1 H2].
    destruct (IH _ H2) as [H3 H4]. split; [|exact H4].
    eapply lasting_trans; eauto.
Qed.

End Stretches.

(** Decompose a task along its binds, handlers and case splits; [side]
    settles what a write has to satisfy. *)
Ltac stretch_step side :=
  match goal with
  | |- stretches _ (_ ≫= _) => apply stretches_bind; [exact _ | | intros ?]
  | |- stretches _ (try_catch _ _) =>
      apply stretches_try_catch; [exact _ | | intros ?]
  | |- stretches _ (dispatch _) => apply stretches_dispatch; [exact _ |]
  | |- stretches _ (update_modal _) =>
      apply stretches_update_modal; [exact _ | side]
  | |- stretches _ (modify _) => apply stretches_modify; side
  | |- stretches _ (forEach _ _) =>
      apply stretches_forEach_from; [exact _ | intros ? ?]
  | |- stretches _ (formatMoney _ _) => apply stretches_formatMoney; exact _
  | |- stretches _ (mret _) => apply stretches_ret; exact _
  | |- stretches _ (throw _) => apply stretches_throw; exact _
  | |- stretches _ get_world => apply stretches_get_world; exact _
  | |- stretches _ the_modal => apply stretches_the_modal; exact _
  | |- stretches _ (emit _) => apply stretches_emit; exact _
  | |- stretches _ (fetch_product _) => apply stretches_fetch_product; exact _
  | |- stretches _ (fetch_cart_add _) => apply stretches_fetch_cart_add; exact _
  | |- stretches _ (match ?x with _ => _ end) => destruct x
  | |- stretches _ (if ?x then _ else _) => destruct x
  end.

Ltac stretch_with side := cbv zeta; repeat stretch_step side.

Section NeverRemoved.

Variable env : platform.

Ltac gentle_side :=
  intros; split;
    [first [intros _; discriminate | intros H; exact H] | reflexivity].

Ltac gentle_auto := stretch_with gentle_side.

Lemma gentle_option_click gi bi : stretches gentle (option_click env gi bi).
Proof. unfold option_click. gentle_auto. Qed.

Lemma gentle_buildVariantPickers p : stretches gentle (buildVariantPickers env p).
Proof.
  unfold buildVariantPickers. gentle_auto.
  unfold preselect. gentle_auto. apply gentle_option_click.
Qed.

Lemma gentle_addToCart a b : stretches gentle (addToCart a b).
Proof. unfold addToCart. gentle_auto. Qed.

Lemma gentle_getUpsellVariantIdFromSection quick :
  stretches gentle (getUpsellVariantIdFromSection quick).
Proof. unfold getUpsellVariantIdFromSection, findGridSection. gentle_auto. Qed.

Lemma gentle_add_onclick p quick : stretches gentle (add_onclick p quick).
Proof.
  unfold add_onclick. gentle_auto;
    auto using gentle_addToCart, gentle_getUpsellVariantIdFromSection.
Qed.

Lemma gentle_closeModal : stretches gentle closeModal.
Proof. unfold closeModal. gentle_auto. Qed.

Lemma gentle_on_click ev : stretches gentle (on_click env ev).
Proof.
  unfold on_click, ensureModal, openModal. gentle_auto;
    auto using gentle_buildVariantPickers, gentle_closeModal.
Qed.

Lemma gentle_on_keydown key : stretches gentle (on_keydown key).
Proof. unfold on_keydown. gentle_auto; apply gentle_closeModal. Qed.

Lemma gentle_handle e : stretches gentle (handle env e).
Proof.
  destruct e; cbn [handle]; gentle_auto;
    auto using gentle_on_click, gentle_option_click, gentle_add_onclick,
      gentle_on_keydown.
Qed.

Lemma play_app pg evs1 evs2 :
  play env pg (evs1 ++ evs2) = play env (play env pg evs1) evs2.
Proof. apply foldl_app. Qed.

(** X14. The script never removes the modal node and never touches the
    grid section: from a freshly loaded page, through any clicks, key
    presses and replies in any order, a modal that is there after some
    of them is there after any more of them, and the section (with its
    upsell attribute) is the one the page was loaded with. *)
Theorem modal_node_is_never_removed (sec : option section_el)
    (evs1 evs2 : list event) :
  let w1 := the_world (play env (initial_page sec) evs1) in
  let w2 := the_world (play env (initial_page sec) (evs1 ++ evs2)) in
  (modal w1 <> None -> modal w2 <> None) /\
  doc_section w1 = sec /\ doc_section w2 = sec.
Proof.
  intros w1 w2. subst w1 w2. rewrite play_app.
  destruct (play_stretch env gentle gentle_handle evs1 (initial_page sec))
    as [[_ H1] Hp]; [constructor|].
  destruct (play_stretch env gentle gentle_handle evs2 _ Hp) as [[H2 H3] _].
  split; [exact H2|]. split; [exact H1 | rewrite H3; exact H1].
Qed.

End NeverRemoved.

Section OneProduct.

Variable env : platform.

Ltac kop_side :=
  first
    [ let w := fresh "w" in let m := fresh "m" in let Hm := fresh "Hm" in
      let H := fresh "H" in let m' := fresh "m'" in let Hm' := fresh "Hm'" in
      let p := fresh "p" in let q := fresh "q" in let Hp := fresh "Hp" in
      intros w m Hm H m' Hm'; cbn in Hm'; injection Hm' as <-;
      destruct (H m Hm) as (p & q & Hp); exists p, q; exact Hp
    | let w := fresh "w" in let H := fresh "H" in
      let m := fresh "m" in let Hm := fresh "Hm" in
      intros w H m Hm; apply H; exact Hm ].

Ltac kop_auto := stretch_with kop_side.

Lemma presents_resolved_clicked p quick gi bi btn m :
  presents p quick m ->
  presents p quick (resolved env p (clicked gi bi btn m)).
Proof.
  intros (Hd & Hs & Ha & Ht & Hl & Hp & Ho).
  pose proof (surroundings_resolved env p (clicked gi bi btn m)) as Hsur.
  injection Hsur as _ Hd' Hs' Ha' _ _ _ Ho'.
  split; [now rewrite Hd'|]. split; [now rewrite Hs'|].
  split; [now rewrite Ha'|]. split; [|split; [|split]].
  - destruct (resolved_title env p (clicked gi bi btn m)) as [H|H];
      [rewrite H; exact Ht | now right].
  - rewrite skeleton_resolved. unfold clicked. fields.
    now rewrite layout_press.
  - now rewrite picker_product_resolved.
  - now rewrite Ho'.
Qed.

Lemma priced_resolved_clicked p gi bi btn m :
  priced env p m -> priced env p (resolved env p (clicked gi bi btn m)).
Proof.
  intros Hpr. unfold resolved.
  destruct (findVariant p (selections (clicked gi bi btn m))) as [v|] eqn:Hf.
  - right. exists v. split; [|split; reflexivity].
    apply find_some in Hf as [Hin _]. now apply list_elem_of_In.
  - exact Hpr.
Qed.

Lemma kop_option_click gi bi :
  stretches (keeps_coherent env) (option_click env gi bi).
Proof.
  intros w.
  refine (stretch_await_free env _ _ _ _ (await_free_option_click env gi bi) _).
  destruct (modal w) as [m|] eqn:Hm.
  - destruct (cqv_variants m !! gi) as [g|] eqn:Hg;
      [destruct (buttons g !! bi) as [btn|] eqn:Hb;
       [destruct (picker_product m) as [p|] eqn:Hp|]|].
    + rewrite (option_click_run env gi bi w m g btn p Hm Hg Hb Hp).
      intros H m' [= <-]. destruct (H m Hm) as (p0 & q0 & Hpres & Hpr).
      assert (p0 = p) as ->.
      { destruct Hpres as (_ & _ & _ & _ & _ & Hpp & _). congruence. }
      exists p, q0.
      split; [now apply presents_resolved_clicked
             | now apply priced_resolved_clicked].
    + unfold option_click. run_task. rewrite Hg. cbn [mbind option_bind].
      rewrite Hb, Hp, ret_run. intros H. exact H.
    + unfold option_click. run_task. rewrite Hg. cbn [mbind option_bind].
      rewrite Hb, ret_run. intros H. exact H.
    + unfold option_click. run_task. rewrite Hg. cbn [mbind option_bind].
      rewrite ret_run. intros H. exact H.
  - unfold option_click. rewrite bind_run. cbn [the_modal exec]. rewrite Hm.
    intros H. exact H.
Qed.

Lemma kop_addToCart a b : stretches (keeps_coherent env) (addToCart a b).
Proof. unfold addToCart. kop_auto. Qed.

Lemma kop_getUpsellVariantIdFromSection quick :
  stretches (keeps_coherent env) (getUpsellVariantIdFromSection quick).
Proof. unfold getUpsellVariantIdFromSection, findGridSection. kop_auto. Qed.

Lemma kop_add_onclick p quick : stretches (keeps_coherent env) (add_onclick p quick).
Proof.
  unfold add_onclick. kop_auto;
    auto using kop_addToCart, kop_getUpsellVariantIdFromSection.
Qed.

Lemma kop_closeModal : stretches (keeps_coherent env) closeModal.
Proof. unfold closeModal. kop_auto. Qed.

Lemma kop_on_product_reply quick o :
  stretches (keeps_coherent env) (dispatch (on_product_reply env quick o)).
Proof.
  apply stretches_dispatch; [exact _|]. intros w.
  refine (stretch_await_free env _ _ _ _
            (await_free_on_product_reply env quick o) _).
  rewrite on_product_reply_run. destruct (product_of o) as [p|].
  - intros _. apply show_product_showing.
  - now apply lasting_outside.
Qed.

Lemma kop_on_click ev : stretches (keeps_coherent env) (dispatch (on_click env ev)).
Proof.
  destruct (closest_quick ev) as [quick|] eqn:Hq.
  - destruct (data_handle quick) as [[|c h]|] eqn:Hh.
    + unfold on_click. rewrite Hq, Hh. kop_auto.
    + rewrite (on_click_parks env ev quick (String c h)) by (repeat split; auto; discriminate).
      intros w. constructor; [apply lasting_refl; exact _|].
      intros o w'. apply kop_on_product_reply.
    + unfold on_click. rewrite Hq, Hh. kop_auto.
  - unfold on_click. rewrite Hq. kop_auto. all: apply kop_closeModal.
Qed.

Lemma kop_on_keydown key : stretches (keeps_coherent env) (on_keydown key).
Proof. unfold on_keydown. kop_auto; apply kop_closeModal. Qed.

Lemma kop_handle e : stretches (keeps_coherent env) (handle env e).
Proof.
  destruct e; cbn [handle].
  - apply kop_on_click.
  - apply stretches_dispatch; [exact _ | apply kop_option_click].
  - kop_auto. apply kop_add_onclick.
  - kop_auto.
  - apply stretches_dispatch; [exact _ | apply kop_on_keydown].
Qed.

Lemma play_coherent sec evs :
  coherent env (the_world (play env (initial_page sec) evs)).
Proof.
  destruct (play_stretch env (keeps_coherent env) kop_handle evs (initial_page sec))
    as [H _]; [constructor|].
  apply H. intros m Hm. discriminate.
Qed.

(** X15. Whatever the modal holds belongs to one product.  From a freshly
    loaded page, after any clicks, key presses and replies in any order
    (replies to several triggers crossing, option buttons and the add
    button used in between), a modal that exists has the description, the
    image, the alternative text, the pickers and the add handler of one
    and the same product, and a title line that is that product's title,
    alone or followed by the title of one of its variants. *)
Theorem modal_shows_one_product (sec : option section_el) (evs : list event) :
  forall m,
    modal (the_world (play env (initial_page sec) evs)) = Some m ->
    exists p quick, presents p quick m.
Proof.
  intros m Hm. destruct (play_coherent sec evs m Hm) as (p & quick & H & _).
  eauto.
Qed.

(** X16. The price line and the session variant id always go together.
    From a freshly loaded page, after any clicks, key presses and replies
    in any order, if the product the modal was last filled with has any
    variants, then the price shown is the formatted price of one of them
    and the session id, which the add button will send, is the id of that
    same variant. *)
Theorem price_and_session_id_agree (sec : option section_el) (evs : list event) :
  forall m p,
    modal (the_world (play env (initial_page sec) evs)) = Some m ->
    picker_product m = Some p ->
    variants p <> [] ->
    exists v, v ∈ variants p /\
              variantId m = Some (JS.toString (id v)) /\
              cqv_price m = money env (price v).
Proof.
  intros m p Hm Hp Hne.
  destruct (play_coherent sec evs m Hm) as (p0 & quick & Hpres & Hpr).
  assert (p0 = p) as ->.
  { destruct Hpres as (_ & _ & _ & _ & _ & Hpp & _). congruence. }
  destruct Hpr as [Hnil|Hv]; [contradiction | exact Hv].
Qed.

End OneProduct.

Section Turns.

Variable env : platform.

Lemma resume_ended pg t r :
  until_await t (the_world pg) = (Ended r, the_world pg) ->
  resume pg t (waiting pg) = pg.
Proof.
  intros H. unfold resume, advance. rewrite H. cbn [option_list].
  rewrite app_nil_r. now destruct pg.
Qed.

Lemma click_add_parks p quick w m vid :
  modal w = Some m ->
  onclick m = Some (p, quick) -> add_disabled m = false ->
  variantId m = Some vid -> vid <> "" ->
  exists k,
    until_await (handle env ClickAdd) w =
    (AtCart (primary_line m vid) k, set_modal (Some (adding m)) w).
Proof.
  intros Hm Hon Hdis Hv Hne. cbn [handle]. unfold dispatch.
  rewrite until_try_catch, until_bind, (until_the_modal w m Hm), Hon, Hdis.
  destruct (add_onclick_segments p quick w m vid Hm Hv Hne) as (k1 & -> & _).
  eexists. reflexivity.
Qed.

Lemma click_add_disabled w m :
  modal w = Some m -> add_disabled m = true ->
  until_await (handle env ClickAdd) w = (Ended (Ok tt), w).
Proof.
  intros Hm Hdis. cbn [handle]. unfold dispatch.
  rewrite until_try_catch, until_bind, (until_the_modal w m Hm), Hdis.
  now destruct (onclick m) as [[p quick]|].
Qed.

(** X17. The add button is disabled from the click until its handler
    has ended, so a click in between does nothing.  A click on the enabled
    button sends the primary request, leaves the button disabled and the
    handler waiting; a second click before the reply changes nothing: no
    second request, no second handler.  In general a click on the
    disabled button leaves the page as it is. *)
Theorem add_button_ignores_clicks_while_adding (pg : page) :
  (forall p quick m vid,
     modal (the_world pg) = Some m ->
     onclick m = Some (p, quick) -> add_disabled m = false ->
     variantId m = Some vid -> vid <> "" ->
     let pg1 := turn env pg (Ui ClickAdd) in
     effects_since (the_world pg) (the_world pg1) =
       [cart_request (primary_line m vid)] /\
     modal (the_world pg1) = Some (adding m) /\
     length (waiting pg1) = S (length (waiting pg)) /\
     turn env pg1 (Ui ClickAdd) = pg1) /\
  (forall m,
     modal (the_world pg) = Some m -> add_disabled m = true ->
     turn env pg (Ui ClickAdd) = pg).
Proof.
  assert (Hidle : forall pg0 m, modal (the_world pg0) = Some m ->
            add_disabled m = true -> turn env pg0 (Ui ClickAdd) = pg0).
  { intros pg0 m Hm Hdis. cbn [turn].
    apply (resume_ended pg0 _ (Ok tt)). now apply (click_add_disabled _ m). }
  split; [|apply Hidle].
  intros p quick m vid Hm Hon Hdis Hv Hne pg1.
  destruct (click_add_parks p quick (the_world pg) m vid Hm Hon Hdis Hv Hne)
    as (k & Hk).
  assert (Hpg1 : pg1 =
    {| the_world := sent (cart_request (primary_line m vid))
                      (set_modal (Some (adding m)) (the_world pg));
       waiting := waiting pg ++ [(fetches (the_world pg), OnCart k)] |}).
  { subst pg1. cbn [turn]. unfold resume, advance. now rewrite Hk. }
  rewrite Hpg1. cbn [the_world waiting]. split; [|split; [|split]].
  - now apply effects_since_app.
  - reflexivity.
  - rewrite length_app. cbn. lia.
  - apply (Hidle _ (adding m)); reflexivity.
Qed.

(** X18. Events the script has no business with leave the page and the
    waiting handlers exactly as they are: a key other than Escape, a click
    that lands neither in a quick-view trigger nor on a close control, and
    a click on a close control while there is no modal node. *)
Theorem idle_events_change_nothing (pg : page) :
  (forall key, key <> "Escape" -> turn env pg (Ui (KeyDown key)) = pg) /\
  (forall ev,
     closest_quick ev = None -> closest_close ev = false ->
     turn env pg (Ui (Click ev)) = pg) /\
  (forall ev,
     closest_quick ev = None -> modal (the_world pg) = None ->
     turn env pg (Ui (Click ev)) = pg).
Proof.
  split; [|split].
  - intros key Hkey. cbn [turn handle]. apply (resume_ended pg _ (Ok tt)).
    unfold on_keydown. apply String.eqb_neq in Hkey. now rewrite Hkey.
  - intros ev Hq Hc. cbn [turn handle]. apply (resume_ended pg _ (Ok tt)).
    unfold on_click. now rewrite Hq, Hc.
  - intros ev Hq Hm. cbn [turn handle]. apply (resume_ended pg _ (Ok tt)).
    unfold on_click, dispatch. rewrite Hq.
    destruct (closest_close ev); [|reflexivity].
    rewrite until_try_catch, until_bind, until_get_world, Hm. reflexivity.
Qed.

(** X19. No failure escapes the two document listeners.  The click
    listener either ends normally in the turn of the click or stops at
    its product request, and resumed with any reply, on any page, it ends
    normally in that turn without a further request; the key listener
    ends normally in its turn.  Run with every reply at once, the click
    listener ends normally. *)
Theorem listeners_end_normally (ev : click_target) (key : string) (w : world) :
  match until_await (on_click env ev) w with
  | (Ended r, _) => r = Ok tt
  | (AtProduct _ k, _) =>
      forall o w1, exists w2, until_await (k o) w1 = (Ended (Ok tt), w2)
  | (AtCart _ _, _) => False
  end /\
  (exists w', until_await (on_keydown key) w = (Ended (Ok tt), w')) /\
  fst (exec env (on_click env ev) w) = Ok tt.
Proof.
  assert (Hclose : forall w0 m, modal w0 = Some m ->
            until_await closeModal w0 =
            (Ended (Ok tt), set_no_scroll false (set_modal (Some (set_open false m)) w0))).
  { intros w0 m Hm. unfold closeModal. rewrite until_bind.
    rewrite (until_update_modal _ w0 m Hm). reflexivity. }
  split; [|split].
  - destruct (closest_quick ev) as [quick|] eqn:Hq.
    + destruct (data_handle quick) as [[|c h]|] eqn:Hh.
      * unfold on_click. rewrite Hq, Hh. reflexivity.
      * rewrite (on_click_parks env ev quick (String c h))
          by (repeat split; auto; discriminate).
        cbn [until_await]. intros o w1. eexists.
        rewrite (await_free_until env _ (await_free_on_product_reply env quick o)).
        now rewrite on_product_reply_ok.
      * unfold on_click. rewrite Hq, Hh. reflexivity.
    + unfold on_click. rewrite Hq. destruct (closest_close ev); [|reflexivity].
      rewrite until_bind, until_get_world.
      destruct (modal w) as [m|] eqn:Hm; [|reflexivity].
      now rewrite (Hclose w m Hm).
  - unfold on_keydown. destruct (String.eqb key "Escape"); [|eexists; reflexivity].
    rewrite until_bind, until_get_world.
    destruct (modal w) as [m|] eqn:Hm; [|eexists; reflexivity].
    destruct (open m); [|eexists; reflexivity].
    rewrite (Hclose w m Hm). eexists; reflexivity.
  - destruct (closest_quick ev) as [quick|] eqn:Hq.
    + destruct (data_handle quick) as [[|c h]|] eqn:Hh.
      * unfold on_click. rewrite Hq, Hh. reflexivity.
      * rewrite (on_click_parks env ev quick (String c h))
          by (repeat split; auto; discriminate).
        cbn [exec]. apply on_product_reply_ok.
      * unfold on_click. rewrite Hq, Hh. reflexivity.
    + unfold on_click. rewrite Hq. destruct (closest_close ev); [|reflexivity].
      rewrite bind_run, get_world_run.
      destruct (modal w) as [m|] eqn:Hm; [|reflexivity].
      now rewrite (closeModal_run env w m Hm).
Qed.

End Turns.

Section Preselection.

Variable env : platform.















End Preselection.

Section Rebuild.

Variable env : platform.

Lemma pickers_resolved p m : pickers (resolved env p m) = pickers m.
Proof. unfold resolved. now destruct (findVariant p _). Qed.

Lemma manual_loop_pickers p iv l : forall i w1 m1 w2 m2,
  modal w1 = Some m1 -> modal w2 = Some m2 ->
  picker_product m1 = Some p ->
  pickers m1 = pickers m2 ->
  exists m1' m2',
    exec env (forEach_from (manual_click env iv) i l) w1 =
      (Ok tt, set_modal (Some m1') w1) /\
    exec env (forEach_from (manual_click env iv) i l) w2 =
      (Ok tt, set_modal (Some m2') w2) /\
    pickers m1' = pickers m2'.
Proof.
  induction l as [|o l IH]; intros i w1 m1 w2 m2 Hm1 Hm2 Hp1 Heq.
  - exists m1, m2. cbn [forEach_from].
    rewrite !ret_run, (set_modal_same w1 m1 Hm1), (set_modal_same w2 m2 Hm2).
    auto.
  - injection Heq as Hgs Hsel Hpp.
    assert (Hp2 : picker_product m2 = Some p) by congruence.
    cbn [forEach_from]. rewrite !bind_run.
    destruct (querySelector (cqv_variants m1) o (String_of (variant_option iv i)))
      as [[gi bi]|] eqn:Hq1.
    + assert (Hq2 := Hq1). rewrite Hgs in Hq2.
      destruct (querySelector_Some _ _ _ _ _ Hq1) as (g & btn & Hg1 & Hb & _).
      assert (Hg2 := Hg1). rewrite Hgs in Hg2.
      rewrite (manual_click_run env p iv o i w1 m1 gi bi g btn Hm1 Hp1 Hq1 Hg1 Hb).
      rewrite (manual_click_run env p iv o i w2 m2 gi bi g btn Hm2 Hp2 Hq2 Hg2 Hb).
      assert (Hnext : pickers (resolved env p (clicked gi bi btn m1)) =
                      pickers (resolved env p (clicked gi bi btn m2))).
      { rewrite !pickers_resolved. unfold pickers, clicked. fields. congruence. }
      destruct (IH (S i) (set_modal (Some (resolved env p (clicked gi bi btn m1))) w1) _
                  (set_modal (Some (resolved env p (clicked gi bi btn m2))) w2) _
                  eq_refl eq_refl) as (m1' & m2' & H1 & H2 & H3); [|exact Hnext|].
      * now rewrite picker_product_resolved.
      * exists m1', m2'. rewrite H1, H2. auto.
    + assert (Hq2 := Hq1). rewrite Hgs in Hq2.
      assert (H1 : exec env (manual_click env iv o i) w1 = (Ok tt, w1)).
      { unfold manual_click. run_task. now rewrite Hq1. }
      assert (H2 : exec env (manual_click env iv o i) w2 = (Ok tt, w2)).
      { unfold manual_click. run_task. now rewrite Hq2. }
      rewrite H1, H2. apply (IH (S i) w1 m1 w2 m2); auto.
      unfold pickers. congruence.
Qed.

(** X22. The builder starts the pickers afresh.  Whatever two modals held
    before (other groups, other pressed buttons, another selection), after
    the builder has run for a product they hold the same groups with the
    same buttons pressed and the same selection object; and if the product
    has a variant, the same price line and the same session id. *)
Theorem builder_starts_afresh (p : product) (w1 w2 : world)
    (m1 m2 : modal_el) :
  modal w1 = Some m1 ->
  modal w2 = Some m2 ->
  exists m1' m2',
    modal (snd (exec env (buildVariantPickers env p) w1)) = Some m1' /\
    modal (snd (exec env (buildVariantPickers env p) w2)) = Some m2' /\
    pickers m1' = pickers m2' /\
    (variants p <> [] ->
     variantId m1' = variantId m2' /\ cqv_price m1' = cqv_price m2').
Proof.
  intros Hm1 Hm2. rewrite !buildVariantPickers_run, !bind_run.
  rewrite (render_pickers_run env p w1 m1 Hm1), (render_pickers_run env p w2 m2 Hm2).
  destruct (initialVariant p) as [iv|] eqn:Hiv.
  - match goal with
    | |- context [exec env _ (set_modal (Some ?a) w1)] => set (a1 := a)
    end.
    match goal with
    | |- context [exec env _ (set_modal (Some ?a) w2)] => set (a2 := a)
    end.
    destruct (manual_loop_pickers p iv (options p) 0
                (set_modal (Some a1) w1) a1 (set_modal (Some a2) w2) a2)
      as (m1' & m2' & H1 & H2 & H3); try reflexivity.
    unfold forEach. rewrite !bind_run, H1, H2. run_task. cbn [snd]. fields.
    eexists _, _. split; [reflexivity|]. split; [reflexivity|].
    split; [exact H3 | intros _; split; reflexivity].
  - rewrite !ret_run. cbn [snd]. fields.
    eexists _, _. split; [reflexivity|]. split; [reflexivity|].
    split; [reflexivity|]. intros Hne.
    apply initialVariant_None in Hiv. contradiction.
Qed.

End Rebuild.

Section Integers.

(** ** Integers below 2^53 are doubles *)

Lemma digits2_iter_xO m k :
  digits2_pos (Pos.iter xO m k) = (digits2_pos m + k)%positive.
Proof.
  induction k as [|k IH] using Pos.peano_ind.
  - cbn. now rewrite Pos.add_1_r.
  - rewrite Pos.iter_succ. cbn [digits2_pos]. rewrite IH. lia.
Qed.

Lemma iter_xO_value m k : Zpos (Pos.iter xO m k) = Zpos m * 2 ^ Zpos k.
Proof.
  induction k as [|k IH] using Pos.peano_ind.
  - cbn. lia.
  - rewrite Pos.iter_succ, Pos2Z.inj_succ, Z.pow_succ_r by lia.
    rewrite Pos2Z.inj_xO, IH. lia.
Qed.

Lemma digits2_bounds m :
  2 ^ (Zpos (digits2_pos m) - 1) <= Zpos m < 2 ^ Zpos (digits2_pos m).
Proof.
  induction m as [m IH|m IH|]; cbn [digits2_pos].
  - rewrite Pos2Z.inj_succ, Z.pow_succ_r by lia.
    replace (Z.succ (Zpos (digits2_pos m)) - 1) with (Z.succ (Zpos (digits2_pos m) - 1)) by lia.
    rewrite Z.pow_succ_r by lia. lia.
  - rewrite Pos2Z.inj_succ, Z.pow_succ_r by lia.
    replace (Z.succ (Zpos (digits2_pos m)) - 1) with (Z.succ (Zpos (digits2_pos m) - 1)) by lia.
    rewrite Z.pow_succ_r by lia. lia.
  - cbn. lia.
Qed.

Lemma digits2_le m b : 0 <= b -> Zpos m < 2 ^ b -> Zpos (digits2_pos m) <= b.
Proof.
  intros Hb Hm. destruct (digits2_bounds m) as [Hlo _].
  destruct (Z_le_gt_dec (Zpos (digits2_pos m)) b) as [H|H]; [exact H|].
  assert (2 ^ b <= 2 ^ (Zpos (digits2_pos m) - 1)) by (apply Z.pow_le_mono_r; lia).
  lia.
Qed.

(** The double of a positive integer with at most 53 bits: the integer
    itself, its mantissa shifted to 53 bits. *)
Lemma of_Z_exact m :
  Zpos (digits2_pos m) <= 53 ->
  exists mz k,
    JS.of_Z (Zpos m) = S754_finite false mz (- k) /\
    0 <= k /\ k = 53 - Zpos (digits2_pos m) /\ Zpos mz = Zpos m * 2 ^ k.
Proof.
  intros Hd. unfold JS.of_Z, binary_normalize, binary_round, JS.prec, JS.emax.
  set (d := digits2_pos m) in *.
  assert (Hfexp : fexp 53 1024 (Zpos d + 0) = Zpos d - 53).
  { unfold fexp, emin. lia. }
  rewrite Hfexp. unfold shl_align.
  destruct (Zpos d - 53 - 0) as [|k|k] eqn:Hk; try lia.
  - (* 53 bits already *)
    exists m, 0. assert (Hd53 : Zpos d = 53) by lia.
    unfold binary_round_aux, shr_fexp. cbn [Zdigits2 shr_record_of_loc].
    fold d. rewrite Hd53.
    replace (fexp 53 1024 (53 + 0) - 0) with 0 by (unfold fexp, emin; lia).
    cbn [shr shr_m loc_of_shr_record round_nearest_even Zdigits2
         shr_record_of_loc].
    fold d. rewrite Hd53.
    replace (fexp 53 1024 (53 + 0) - 0) with 0 by (unfold fexp, emin; lia).
    cbn [shr shr_m]. cbn. repeat split; lia.
  - exists (Pos.iter xO m k), (Zpos k).
    assert (Hdk : Zpos (digits2_pos (Pos.iter xO m k)) = 53).
    { rewrite digits2_iter_xO. fold d. lia. }
    unfold binary_round_aux, shr_fexp. cbn [Zdigits2 shr_record_of_loc].
    rewrite Hdk.
    replace (fexp 53 1024 (53 + (Zpos d - 53)) - (Zpos d - 53)) with 0
      by (unfold fexp, emin; lia).
    cbn [shr shr_m loc_of_shr_record round_nearest_even Zdigits2
         shr_record_of_loc].
    rewrite Hdk.
    replace (fexp 53 1024 (53 + (Zpos d - 53)) - (Zpos d - 53)) with 0
      by (unfold fexp, emin; lia).
    cbn [shr shr_m].
    replace (Zpos d - 53 <=? 1024 - 53) with true by (symmetry; apply Z.leb_le; lia).
    replace (Zpos d - 53) with (- Zpos k) by lia.
    split; [reflexivity|]. split; [lia|]. split; [lia|].
    apply iter_xO_value.
Qed.

Lemma of_Z_inj a b :
  0 < a < 2 ^ 53 -> 0 < b < 2 ^ 53 -> JS.of_Z a = JS.of_Z b -> a = b.
Proof.
  intros Ha Hb Heq.
  destruct a as [|a|a], b as [|b|b]; try lia.
  destruct (of_Z_exact a) as (ma & ka & Ea & Hka & Hka' & Hma);
    [apply digits2_le; lia|].
  destruct (of_Z_exact b) as (mb & kb & Eb & Hkb & Hkb' & Hmb);
    [apply digits2_le; lia|].
  rewrite Ea, Eb in Heq. injection Heq as Hm Hk.
  assert (ka = kb) by lia. subst kb.
  assert (Zpos a * 2 ^ ka = Zpos b * 2 ^ ka) by congruence.
  assert (0 < 2 ^ ka) by (apply Z.pow_pos_nonneg; lia).
  nia.
Qed.

End Integers.

Section Numerals.

(** ** Decimal numerals *)

Ltac digit_cases H :=
  repeat (apply elem_of_cons in H as [->|H]); [..|inversion H].

Lemma numeral_string_of_uint d : numeral (NilEmpty.string_of_uint d).
Proof.
  induction d; cbn; (split; [|assumption]) || exact I;
    repeat (first [left | right]).
Qed.

Lemma digits_NilEmpty n :
  0 <= n -> JS.digits n = NilEmpty.string_of_uint (N.to_uint (Z.to_N n)).
Proof.
  intros _. unfold JS.digits, NilZero.string_of_uint.
  destruct (N.to_uint (Z.to_N n)) eqn:E; try reflexivity.
  destruct (Z.to_N n) as [|p]; [discriminate|].
  now apply Unsigned.to_uint_nonnil in E.
Qed.

Lemma numeral_digits n : 0 <= n -> numeral (JS.digits n).
Proof. intros H. rewrite digits_NilEmpty by exact H. apply numeral_string_of_uint. Qed.

Ltac eval_digit :=
  match goal with
  | |- context [default 0 (JS.digit_val ?c)] =>
      let v := eval vm_compute in (default 0 (JS.digit_val c)) in
      change (default 0 (JS.digit_val c)) with v
  end.

Lemma digits_value_acc d acc :
  JS.digits_value 10 (NilEmpty.string_of_uint d) (Zpos acc) =
  Zpos (Pos.of_uint_acc d acc).
Proof.
  revert acc. induction d; intros acc; cbn [NilEmpty.string_of_uint JS.digits_value Pos.of_uint_acc];
    try reflexivity; rewrite <- IHd; f_equal; eval_digit; lia.
Qed.

Lemma digits_value_uint d :
  JS.digits_value 10 (NilEmpty.string_of_uint d) 0 = Z.of_N (Pos.of_uint d).
Proof.
  induction d; cbn [NilEmpty.string_of_uint JS.digits_value Pos.of_uint Z.of_N];
    try reflexivity; eval_digit; cbn [Z.mul Z.add]; try exact IHd;
    apply digits_value_acc.
Qed.

(** Reading a printed integer gives the integer. *)
Lemma digits_value_digits n : 0 <= n -> JS.digits_value 10 (JS.digits n) 0 = n.
Proof.
  intros H. rewrite digits_NilEmpty by exact H. rewrite digits_value_uint.
  change (Pos.of_uint (N.to_uint (Z.to_N n))) with (N.of_uint (N.to_uint (Z.to_N n))).
  rewrite DecimalN.Unsigned.of_to. lia.
Qed.

Lemma numeral_uint s : numeral s -> exists d, NilEmpty.string_of_uint d = s.
Proof.
  induction s as [|c s IH]; [exists Decimal.Nil; reflexivity|].
  intros [Hc Hs]. destruct (IH Hs) as [d <-].
  digit_cases Hc;
    [exists (Decimal.D0 d) | exists (Decimal.D1 d) | exists (Decimal.D2 d)
    |exists (Decimal.D3 d) | exists (Decimal.D4 d) | exists (Decimal.D5 d)
    |exists (Decimal.D6 d) | exists (Decimal.D7 d) | exists (Decimal.D8 d)
    |exists (Decimal.D9 d)]; reflexivity.
Qed.

(** Printing what a numeral without a leading zero reads as gives the
    numeral back. *)
Lemma digits_of_value c s :
  numeral (String c s) -> c <> "0"%char ->
  JS.digits (JS.digits_value 10 (String c s) 0) = String c s.
Proof.
  intros Hn Hc. destruct (numeral_uint _ Hn) as [d Hd].
  rewrite <- Hd at 1. rewrite digits_value_uint.
  rewrite digits_NilEmpty by lia. rewrite N2Z.id.
  change (Pos.of_uint d) with (N.of_uint d).
  rewrite DecimalN.Unsigned.to_of.
  assert (Hnorm : Decimal.unorm d = d).
  { destruct d; cbn in Hd; try discriminate; try reflexivity.
    injection Hd as Hd _. congruence. }
  now rewrite Hnorm.
Qed.

Lemma to_uint_unorm p : Decimal.unorm (Pos.to_uint p) = Pos.to_uint p.
Proof.
  rewrite <- (DecimalPos.Unsigned.to_of (Pos.to_uint p)).
  now rewrite DecimalPos.Unsigned.of_to.
Qed.

Lemma digits_head n :
  0 < n -> exists c s, JS.digits n = String c s /\ c <> "0"%char.
Proof.
  intros Hn. rewrite digits_NilEmpty by lia.
  destruct (Z.to_N n) as [|p] eqn:E; [lia|]. cbn [N.to_uint].
  pose proof (to_uint_unorm p) as Hu.
  pose proof (DecimalPos.Unsigned.to_uint_nonzero p) as Hz.
  destruct (Pos.to_uint p) as [|d|d|d|d|d|d|d|d|d|d] eqn:Ed;
    try (eexists _, _; split; [reflexivity | discriminate]).
  - now apply DecimalPos.Unsigned.to_uint_nonnil in Ed.
  - exfalso. rewrite DecimalFacts.unorm_D0 in Hu. unfold Decimal.unorm in Hu.
    destruct (Decimal.nzhead d) eqn:Hh;
      apply (DecimalFacts.nzhead_nonzero d d); congruence.
Qed.

Lemma digits_value_app a b acc :
  JS.digits_value 10 (a ++ b)%string acc =
  JS.digits_value 10 b (JS.digits_value 10 a acc).
Proof.
  revert acc. induction a as [|c a IH]; intros acc; [reflexivity|].
  rewrite append_cons. cbn [JS.digits_value]. apply IH.
Qed.

Lemma zeros_succ j : 0 <= j -> JS.zeros (Z.succ j) = String "0" (JS.zeros j).
Proof.
  intros Hj. unfold JS.zeros. rewrite Z2Nat.inj_succ by exact Hj. reflexivity.
Qed.

Lemma digits_value_zeros j acc :
  0 <= j -> JS.digits_value 10 (JS.zeros j) acc = acc * 10 ^ j.
Proof.
  intros Hj. revert acc. pattern j. apply natlike_ind; [| |exact Hj].
  - intros acc. change (JS.zeros 0) with "". cbn [JS.digits_value].
    rewrite Z.pow_0_r. lia.
  - intros k Hk IH acc. rewrite zeros_succ by exact Hk.
    cbn [JS.digits_value]. rewrite IH. eval_digit.
    rewrite Z.pow_succ_r by exact Hk. lia.
Qed.

Lemma numeral_app a b : numeral a -> numeral b -> numeral (a ++ b)%string.
Proof.
  induction a as [|c a IH]; [auto|]. intros [Hc Ha] Hb.
  rewrite append_cons. split; auto.
Qed.

Lemma numeral_zeros j : numeral (JS.zeros j).
Proof.
  unfold JS.zeros. induction (Z.to_nat j) as [|k IH]; [exact I|].
  split; [left | exact IH].
Qed.

(** A printed integer followed by zeros is the integer times a power of
    ten, printed. *)
Lemma digits_shift n j :
  0 < n -> 0 <= j -> (JS.digits n ++ JS.zeros j)%string = JS.digits (n * 10 ^ j).
Proof.
  intros Hn Hj. destruct (digits_head n Hn) as (c & s & Hd & Hc).
  assert (Hval : JS.digits_value 10 (JS.digits n ++ JS.zeros j)%string 0 = n * 10 ^ j).
  { rewrite digits_value_app, digits_value_digits by lia.
    now apply digits_value_zeros. }
  rewrite <- Hval. rewrite Hd, append_cons. symmetry.
  apply digits_of_value; [|exact Hc].
  rewrite <- append_cons, <- Hd.
  apply numeral_app; [apply numeral_digits; lia | apply numeral_zeros].
Qed.

Lemma digit_range c :
  c ∈ ["0"; "1"; "2"; "3"; "4"; "5"; "6"; "7"; "8"; "9"]%char ->
  0 <= default 0 (JS.digit_val c) <= 9 /\
  (c <> "0"%char -> 1 <= default 0 (JS.digit_val c)) /\
  JS.is_digit 10 c = true.
Proof.
  intros H. digit_cases H; vm_compute; repeat split; congruence.
Qed.

Lemma digits_value_bounds s acc :
  numeral s -> 0 <= acc ->
  acc * 10 ^ JS.strlen s <= JS.digits_value 10 s acc
    < (acc + 1) * 10 ^ JS.strlen s.
Proof.
  revert acc. induction s as [|c s IH]; intros acc Hn Hacc.
  - change (JS.strlen "") with 0. cbn [JS.digits_value]. rewrite Z.pow_0_r. lia.
  - destruct Hn as [Hc Hs]. cbn [JS.digits_value].
    destruct (digit_range c Hc) as ([Hlo Hhi] & _ & _).
    specialize (IH (acc * 10 + default 0 (JS.digit_val c)) Hs ltac:(lia)).
    assert (Hlen : JS.strlen (String c s) = Z.succ (JS.strlen s)).
    { unfold JS.strlen. cbn [String.length]. lia. }
    rewrite Hlen, Z.pow_succ_r by (unfold JS.strlen; lia).
    assert (0 < 10 ^ JS.strlen s) by (apply Z.pow_pos_nonneg; unfold JS.strlen; lia).
    nia.
Qed.

(** The number of digits of a positive integer. *)
Lemma digits_length n :
  0 < n ->
  1 <= JS.strlen (JS.digits n) /\
  10 ^ (JS.strlen (JS.digits n) - 1) <= n < 10 ^ JS.strlen (JS.digits n).
Proof.
  intros Hn. destruct (digits_head n Hn) as (c & s & Hd & Hc).
  pose proof (numeral_digits n ltac:(lia)) as Hnum.
  pose proof (digits_value_digits n ltac:(lia)) as Hval.
  rewrite Hd in *. destruct Hnum as [Hcd Hs].
  cbn [JS.digits_value] in Hval.
  destruct (digit_range c Hcd) as ([Hlo Hhi] & Hone & _). specialize (Hone Hc).
  pose proof (digits_value_bounds s (0 * 10 + default 0 (JS.digit_val c)) Hs ltac:(lia)) as Hb.
  rewrite Hval in Hb.
  assert (Hlen : JS.strlen (String c s) = Z.succ (JS.strlen s)).
  { unfold JS.strlen. cbn [String.length]. lia. }
  rewrite Hlen. replace (Z.succ (JS.strlen s) - 1) with (JS.strlen s) by lia.
  rewrite Z.pow_succ_r by (unfold JS.strlen; lia).
  assert (0 < 10 ^ JS.strlen s) by (apply Z.pow_pos_nonneg; unfold JS.strlen; lia).
  split; [unfold JS.strlen; lia | nia].
Qed.

End Numerals.

Section Reading.

(** ** [Number] on a decimal numeral *)

Lemma span_numeral s : numeral s -> JS.span_digits 10 s = (s, "").
Proof.
  induction s as [|c s IH]; [reflexivity|]. intros [Hc Hs].
  cbn [JS.span_digits]. destruct (digit_range c Hc) as (_ & _ & ->).
  now rewrite (IH Hs).
Qed.

Lemma digit_not_white c :
  c ∈ ["0"; "1"; "2"; "3"; "4"; "5"; "6"; "7"; "8"; "9"]%char ->
  JS.is_white c = false.
Proof. intros H. repeat (apply elem_of_cons in H as [->|H]); [..|inversion H]; reflexivity. Qed.

Lemma trim_end_numeral c s :
  numeral (String c s) -> JS.trim_end (String c s) = String c s.
Proof.
  revert c. induction s as [|d s IH]; intros c [Hc Hs].
  - cbn [JS.trim_end]. now rewrite (digit_not_white c Hc).
  - change (JS.trim_end (String c (String d s)))
      with (match JS.trim_end (String d s) with
            | EmptyString => if JS.is_white c then EmptyString else String c EmptyString
            | r => String c r
            end).
    now rewrite (IH d Hs).
Qed.

Lemma trim_numeral c s : numeral (String c s) -> JS.trim (String c s) = String c s.
Proof.
  intros Hn. unfold JS.trim. cbn [JS.trim_start].
  rewrite (digit_not_white c (proj1 Hn)). now apply trim_end_numeral.
Qed.

Lemma append_empty s : (s ++ "")%string = s.
Proof. induction s as [|c s IH]; [reflexivity|]. rewrite append_cons. now f_equal. Qed.

Lemma unsigned_decimal_numeral c s :
  numeral (String c s) ->
  JS.unsigned_decimal false (String c s) =
  JS.of_decimal false (Z.to_N (JS.digits_value 10 (String c s) 0)) 0.
Proof.
  intros Hn. unfold JS.unsigned_decimal.
  assert (Hinf : String.eqb (String c s) "Infinity" = false).
  { destruct Hn as [Hc _]. cbn [String.eqb].
    repeat (apply elem_of_cons in Hc as [->|Hc]); [..|inversion Hc]; reflexivity. }
  rewrite Hinf, (span_numeral _ Hn). cbn [JS.span_digits JS.str_truthy orb JS.exponent_part].
  rewrite append_empty. reflexivity.
Qed.

Lemma of_decimal_integer n : 0 <= n -> JS.of_decimal false (Z.to_N n) 0 = JS.of_Z n.
Proof.
  intros Hn. destruct n as [|p|p]; [reflexivity| |lia].
  cbn [Z.to_N JS.of_decimal Z.leb Z.compare cond_Zopp].
  unfold JS.of_Z. now rewrite Z.pow_0_r, Z.mul_1_r.
Qed.

(** [Number] reads a printed non-negative integer as that integer (as
    the double nearest to it). *)
Lemma StringToNumber_digits n : 0 <= n -> JS.StringToNumber (JS.digits n) = JS.of_Z n.
Proof.
  intros Hn. destruct (Z.eq_dec n 0) as [->|Hne]; [reflexivity|].
  destruct (digits_head n ltac:(lia)) as (c & s & Hd & Hc).
  pose proof (numeral_digits n Hn) as Hnum.
  pose proof (digits_value_digits n Hn) as Hval.
  rewrite Hd in *.
  assert (Hstn : JS.StringToNumber (String c s) = JS.unsigned_decimal false (String c s)).
  { unfold JS.StringToNumber. rewrite (trim_numeral c s Hnum).
    destruct Hnum as [Hcd _].
    repeat (apply elem_of_cons in Hcd as [->|Hcd]); [..|inversion Hcd];
      congruence || reflexivity. }
  rewrite Hstn, (unsigned_decimal_numeral c s Hnum), Hval.
  now apply of_decimal_integer.
Qed.

End Reading.

Section Printing.

(** ** [String] on an integer number *)

Lemma of_decimal_Z s j :
  0 <= s -> 0 <= j -> JS.of_decimal false (Z.to_N s) j = JS.of_Z (s * 10 ^ j).
Proof.
  intros Hs Hj. destruct s as [|p|p]; [reflexivity| |lia].
  cbn [Z.to_N JS.of_decimal cond_Zopp].
  destruct (Z.leb_spec 0 j); [reflexivity|lia].
Qed.

Lemma of_Z_inj0 a b :
  0 <= a < 2 ^ 53 -> 0 < b < 2 ^ 53 -> JS.of_Z a = JS.of_Z b -> a = b.
Proof.
  intros Ha Hb Heq. destruct (Z.eq_dec a 0) as [->|Hne].
  - destruct b as [|b|b]; try lia.
    destruct (of_Z_exact b) as (mb & kb & Eb & _); [apply digits2_le; lia|].
    rewrite Eb in Heq. discriminate.
  - apply of_Z_inj; [lia|exact Hb|exact Heq].
Qed.

Lemma pow10_15 : 2 * 10 ^ 15 < 2 ^ 53.
Proof. reflexivity. Qed.

Section Candidates.

Variables (n q L : Z) (x : JS.number).
Hypothesis Hn : 0 < n < 10 ^ 15.
Hypothesis Hq : 0 < q.
Hypothesis Hx : x = JS.of_Z n.
Hypothesis HL : 10 ^ (L - 1) <= n < 10 ^ L.
Hypothesis HL1 : 1 <= L.

Lemma ok_iff s j :
  0 <= s -> 0 <= j -> s * 10 ^ j < 2 ^ 53 ->
  bool_decide (JS.of_decimal false (Z.to_N s) j = x) = bool_decide (s * 10 ^ j = n).
Proof.
  intros Hs Hj Hb. rewrite of_decimal_Z, Hx by assumption.
  apply bool_decide_ext. split; [|now intros ->].
  pose proof pow10_15.
  assert (0 <= 10 ^ j) by (apply Z.pow_nonneg; lia).
  apply of_Z_inj0; [nia|lia].
Qed.

Lemma candidate_integer k :
  1 <= k <= L ->
  JS.candidate x (n * q) q L k =
  if bool_decide (n / 10 ^ (L - k) * 10 ^ (L - k) = n)
  then Some (n / 10 ^ (L - k)) else None.
Proof.
  intros Hk. pose proof pow10_15 as H53.
  set (j := L - k). assert (Hj : 0 <= j) by (subst j; lia).
  assert (Hpj : 0 < 10 ^ j) by (apply Z.pow_pos_nonneg; lia).
  assert (Hjn : 10 ^ j <= n).
  { transitivity (10 ^ (L - 1)); [|lia]. apply Z.pow_le_mono_r; lia. }
  assert (Hlo : (if 0 <=? k - L then n * q * 10 ^ (k - L) else n * q) /
                (if 0 <=? k - L then q else q * 10 ^ (L - k)) = n / 10 ^ j).
  { destruct (Z.leb_spec 0 (k - L)).
    - assert (j = 0) as Hj0 by lia. rewrite Hj0.
      replace (k - L) with 0 by lia. rewrite Z.pow_0_r, Z.mul_1_r, Z.div_1_r.
      apply Z.div_mul; lia.
    - fold j. rewrite (Z.mul_comm n q). apply Z.div_mul_cancel_l; lia. }
  unfold JS.candidate. cbv zeta. rewrite Hlo.
  replace (L - k) with j by reflexivity.
  pose proof (Z.div_mod n (10 ^ j) ltac:(lia)) as Hdm.
  pose proof (Z.mod_pos_bound n (10 ^ j) Hpj) as Hmod.
  assert (0 <= n / 10 ^ j) by (apply Z.div_pos; lia).
  rewrite (ok_iff (n / 10 ^ j) j) by (try assumption; nia).
  rewrite (ok_iff (n / 10 ^ j + 1) j) by (try assumption; nia).
  rewrite (bool_decide_eq_false_2 ((n / 10 ^ j + 1) * 10 ^ j = n)) by nia.
  rewrite andb_false_r.
  now destruct (bool_decide (n / 10 ^ j * 10 ^ j = n)).
Qed.

Lemma shortest_integer len : forall a : nat,
  (1 <= a)%nat -> Z.of_nat a <= L < Z.of_nat (a + len) ->
  exists k s,
    JS.shortest x (n * q) q L (map Z.of_nat (seq a len)) = (k, s) /\
    1 <= k <= L /\ 0 < s /\ s * 10 ^ (L - k) = n.
Proof.
  induction len as [|len IH]; intros a Ha HaL; [lia|].
  cbn [seq map JS.shortest].
  rewrite candidate_integer by lia.
  destruct (bool_decide _) eqn:Hdiv.
  - apply bool_decide_eq_true in Hdiv.
    exists (Z.of_nat a), (n / 10 ^ (L - Z.of_nat a)).
    split; [reflexivity|]. split; [lia|]. split; [|exact Hdiv].
    assert (0 < 10 ^ (L - Z.of_nat a)) by (apply Z.pow_pos_nonneg; lia).
    nia.
  - apply bool_decide_eq_false in Hdiv.
    assert (Z.of_nat a <> L).
    { intros E. apply Hdiv. rewrite E, Z.sub_diag, Z.pow_0_r, Z.div_1_r. lia. }
    apply (IH (S a)); lia.
Qed.

End Candidates.

(** [String] prints an integer of at most fifteen digits as its decimal
    numeral. *)
Lemma toString_of_Z n : 0 < n < 10 ^ 15 -> JS.toString (JS.of_Z n) = JS.digits n.
Proof.
  intros Hn. pose proof pow10_15 as H53.
  destruct n as [|pn|pn]; try lia.
  destruct (of_Z_exact pn) as (mz & k & Ex & Hk & _ & Hmz);
    [apply digits2_le; lia|].
  pose proof (digits_length (Zpos pn) ltac:(lia)) as [HL1 HL].
  set (L := JS.strlen (JS.digits (Zpos pn))) in *.
  assert (HL15 : L <= 15).
  { destruct (Z_le_gt_dec L 15) as [H|H]; [exact H|].
    assert (10 ^ 15 <= 10 ^ (L - 1)) by (apply Z.pow_le_mono_r; lia). lia. }
  set (q := 2 ^ k). assert (Hq : 0 < q) by (apply Z.pow_pos_nonneg; lia).
  assert (Hfrac : JS.fraction_of mz (- k) = (Zpos pn * q, q)).
  { unfold JS.fraction_of. destruct (Z.leb_spec 0 (- k)).
    - assert (k = 0) by lia. subst q k. cbn [Z.opp].
      rewrite !Z.pow_0_r, Hmz, Z.pow_0_r. f_equal. lia.
    - rewrite Z.opp_involutive, Hmz. reflexivity. }
  assert (Hexp : JS.decimal_exponent (Zpos pn * q) q = L).
  { unfold JS.decimal_exponent.
    destruct (Z.leb_spec q (Zpos pn * q)); [|nia].
    rewrite Z.div_mul by lia. reflexivity. }
  assert (Hpow : bool_decide (JS.of_decimal false 1 L = JS.of_Z (Zpos pn)) = false).
  { apply bool_decide_eq_false. change 1%N with (Z.to_N 1).
    rewrite of_decimal_Z by lia. intros E.
    assert (10 ^ L <= 10 ^ 15) by (apply Z.pow_le_mono_r; lia).
    apply of_Z_inj0 in E; lia. }
  destruct (shortest_integer (Zpos pn) q L (JS.of_Z (Zpos pn))
              Hn Hq eq_refl HL HL1 17%nat 1%nat ltac:(lia) ltac:(lia))
    as (kk & s & Hsh & Hkk & Hs & Hval).
  rewrite Ex. cbn [JS.toString]. unfold JS.positive_toString.
  rewrite Hfrac, Hexp, <- Ex, Hpow, Hsh.
  replace ((kk <=? L) && (L <=? 21)) with true
    by (symmetry; apply andb_true_intro; split; apply Z.leb_le; lia).
  rewrite digits_shift by lia. now rewrite Hval.
Qed.

(** Printing an integer of at most fifteen digits and reading it back
    gives the same number. *)
Lemma number_round_trip n :
  0 < n < 10 ^ 15 -> JS.StringToNumber (JS.toString (JS.of_Z n)) = JS.of_Z n.
Proof.
  intros Hn. rewrite toString_of_Z by exact Hn. apply StringToNumber_digits. lia.
Qed.

End Printing.

Section WireIds.

Variable env : platform.

Lemma num_eq_finite y m e :
  JS.num_eq y (S754_finite false m e) = true -> y = S754_finite false m e.
Proof.
  unfold JS.num_eq, SFeqb. destruct y as [s|s| |s m' e']; cbn; try discriminate;
    destruct s; try discriminate.
  destruct (Z.compare_spec e' e) as [->| |]; try discriminate.
  change (Pos.compare_cont Eq m' m) with (Pos.compare m' m).
  destruct (Pos.compare_spec m' m) as [->| |]; try discriminate. reflexivity.
Qed.

Lemma num_eq_finite_refl m e :
  JS.num_eq (S754_finite false m e) (S754_finite false m e) = true.
Proof.
  unfold JS.num_eq, SFeqb. cbn. rewrite Z.compare_refl.
  change (Pos.compare_cont Eq m m) with (Pos.compare m m).
  now rewrite Pos.compare_refl.
Qed.

Lemma of_Z_finite n :
  0 < n < 2 ^ 53 -> exists m e, JS.of_Z n = S754_finite false m e.
Proof.
  intros Hn. destruct n as [|pn|pn]; try lia.
  destruct (of_Z_exact pn) as (mz & k & Ex & _); [apply digits2_le; lia|].
  eauto.
Qed.

(** X23. The variant id survives the trip through [dataset.variantId]: when
    the session id is the string form of the id of a variant of the
    product, an integer of at most fifteen digits, the add handler's
    first request carries exactly that id, and the variant it looks up for
    the upsell rule has that id. *)
Theorem session_id_round_trip p quick w m v n :
  modal w = Some m ->
  variantId m = Some (JS.toString (id v)) ->
  v ∈ variants p ->
  id v = JS.of_Z n -> 0 < n < 10 ^ 15 ->
  (exists body k,
     until_await (add_onclick p quick) w =
       (AtCart body k, set_modal (Some (adding m)) w) /\
     line_id body = id v) /\
  (exists cv, chosenVariant p (JS.toString (id v)) = Some cv /\ id cv = id v).
Proof.
  intros Hm Hvid Hin Hid Hn. pose proof pow10_15 as H53.
  assert (Hback : JS.StringToNumber (JS.toString (id v)) = id v).
  { rewrite Hid. now apply number_round_trip. }
  split.
  - assert (Hne : JS.toString (id v) <> "").
    { rewrite Hid, toString_of_Z by exact Hn.
      destruct (digits_head n ltac:(lia)) as (c & s & -> & _). discriminate. }
    destruct (add_onclick_segments p quick w m _ Hm Hvid Hne) as (k1 & Hrun & _).
    exists (primary_line m (JS.toString (id v))), k1. split; [exact Hrun|].
    exact Hback.
  - destruct (of_Z_finite n ltac:(lia)) as (mz & e & Hfin).
    unfold chosenVariant. cbn [Number]. rewrite Hback.
    destruct (find (fun v' => JS.num_eq (id v') (id v)) (variants p)) as [cv|] eqn:Hfind.
    + exists cv. split; [reflexivity|].
      apply find_some in Hfind as [_ Heq].
      rewrite Hid, Hfin in Heq |- *. now apply num_eq_finite.
    + exfalso. apply list_elem_of_In in Hin.
      pose proof (List.find_none _ _ Hfind v Hin) as Hno. cbv beta in Hno.
      rewrite Hid, Hfin, num_eq_finite_refl in Hno. discriminate.
Qed.

(** X24. A decimal numeral in [data-upsell-variant] is read as the integer
    it writes: for a positive integer below 2^53 the function returns the
    number of that integer. *)
Theorem decimal_upsell_id quick w sec n :
  enclosing_section quick w = Some sec ->
  data_upsell_variant sec = Some (JS.digits n) ->
  0 < n < 2 ^ 53 ->
  exec env (getUpsellVariantIdFromSection quick) w = (Ok (Some (JS.of_Z n)), w).
Proof.
  intros Hsec Hattr Hn.
  rewrite getUpsellVariantIdFromSection_run. unfold configured_upsell.
  rewrite Hsec, Hattr, StringToNumber_digits by lia.
  destruct (digits_head n ltac:(lia)) as (c & s & -> & _).
  destruct (of_Z_finite n Hn) as (mz & e & ->). reflexivity.
Qed.

End WireIds.

(* ===================================================================== *)
(** * Examples *)
(* ===================================================================== *)



(** Each of the other conditions of C4 is needed as well. *)
Example preseed_needs_distinct_tuples :
  display (snd (exec Demo.shop (buildVariantPickers Demo.shop Demo.twins) Demo.blank)) =
    Some ("20.00", "Tee — First", Some "2") /\
  display (snd (exec Demo.shop (manual_build Demo.shop Demo.twins) Demo.blank)) =
    Some ("10.00", "Tee — First", Some "1").
Proof. vm_compute. split; reflexivity. Qed.

Example preseed_needs_an_option :
  display (snd (exec Demo.shop (buildVariantPickers Demo.shop Demo.bare) Demo.blank)) =
    Some ("10.00", "", Some "1") /\
  display (snd (exec Demo.shop (manual_build Demo.shop Demo.bare) Demo.blank)) =
    Some ("", "", None).
Proof. vm_compute. split; reflexivity. Qed.

Example preseed_needs_distinct_names :
  display (snd (exec Demo.shop (buildVariantPickers Demo.shop Demo.echo) Demo.blank)) =
    Some ("10.00", "", Some "1") /\
  display (snd (exec Demo.shop (manual_build Demo.shop Demo.echo) Demo.blank)) =
    Some ("", "", None).
Proof. vm_compute. split; reflexivity. Qed.

(** ** The theorems at the demo shop *)


Lemma upsell_failure_never_blocks_witness :
  modal (snd (exec Demo.shop_upsell_down (add_onclick Demo.tee Demo.tile)
                (Demo.page (Some "102")))) =
  Some (adding (Demo.session (Some "102"))).
Proof.
  apply (proj2
    (upsell_failure_never_blocks Demo.shop_upsell_down Demo.tee Demo.tile
       (Demo.page (Some "102")) (Demo.session (Some "102")) "102"
       eq_refl eq_refl ltac:(discriminate))).
  reflexivity.
Defined.

Lemma primary_failure_surfaced_witness :
  (cqv_msg <$> modal (snd (exec Demo.shop_cart_down
                             (add_onclick Demo.tee Demo.tile)
                             (Demo.page (Some "102"))))) =
  Some "Could not add to cart. Try again.".
Proof.
  apply (primary_failure_surfaced Demo.shop_cart_down Demo.tee Demo.tile
           (Demo.page (Some "102")) (Demo.session (Some "102")) "102"
           eq_refl eq_refl ltac:(discriminate)).
  left. reflexivity.
Defined.

Lemma missing_input_no_request_witness :
  effects_since (Demo.page None)
    (snd (exec Demo.shop
            (on_click Demo.shop (Demo.tile_click Demo.tile_without_handle))
            (Demo.page None))) = [Alert "Product handle missing"] /\
  effects_since (Demo.page None)
    (snd (exec Demo.shop (add_onclick Demo.tee Demo.tile) (Demo.page None))) = [].
Proof.
  split.
  - apply (proj1 (missing_input_no_request Demo.shop)
             (Demo.tile_click Demo.tile_without_handle)
             Demo.tile_without_handle (Demo.page None) eq_refl).
    left. reflexivity.
  - apply (proj2 (missing_input_no_request Demo.shop)
             Demo.tee Demo.tile (Demo.page None) (Demo.session None) eq_refl).
    left. reflexivity.
Defined.

Lemma scroll_lock_iff_open_witness :
  modal_open (step Demo.shop (Demo.page (Some "102")) (KeyDown "Escape")) = false /\
  no_scroll (step Demo.shop (Demo.page (Some "102")) (KeyDown "Escape")) = false.
Proof.
  apply (proj1 (proj2 (proj2 (scroll_lock_iff_open Demo.shop)))
           (Demo.page (Some "102"))).
  reflexivity.
Defined.


(** ** The specification's test cases *)

Example black_medium_adds_upsell :
  Demo.adds Demo.shop Demo.tee "102" = [Demo.line 102 1; Demo.line 999 1].
Proof. vm_compute. reflexivity. Qed.

Example black_small_adds_once :
  Demo.adds Demo.shop Demo.tee "103" = [Demo.line 103 1].
Proof. vm_compute. reflexivity. Qed.

Example blackout_mediumish_adds_upsell :
  Demo.adds Demo.shop Demo.blackout "7" = [Demo.line 7 1; Demo.line 999 1].
Proof. vm_compute. reflexivity. Qed.

Example quick_view_end_to_end :
  let w := run Demo.shop (initial_world None)
             [Click (Demo.tile_click Demo.tile); ClickAdd] in
  display w = Some ("19.99", "Tee — Black / Medium", Some "102") /\
  modal_open w = true /\
  trace w = [Fetch "/products/tee.js" None;
             Fetch "/cart/add.js" (Some (Demo.line 102 1));
             Fetch "/cart/add.js" (Some (Demo.line 999 1));
             Navigate "/cart"].
Proof. vm_compute. repeat split. Qed.

(** ** The event loop at work *)

(** The first trigger's reply comes last and has the last word. *)
Example crossed_replies :
  let w := the_world (play Demo.shop (initial_page None) Demo.crossed) in
  display w = Some ("19.99", "Tee — Black / Medium", Some "102") /\
  trace w = [Fetch "/products/tee.js" None; Fetch "/products/mug.js" None].
Proof. vm_compute. split; reflexivity. Qed.

Example escape_while_loading :
  let pg := play Demo.shop (initial_page None) Demo.escape_early in
  modal_open (the_world pg) = true /\ no_scroll (the_world pg) = true /\
  waiting pg = [].
Proof. vm_compute. repeat split. Qed.

(** ** The built-ins at work *)

Example Number_of_strings :
  map (fun s => JS.toString (JS.StringToNumber s))
      ["0"; ""; " 12 "; "-5"; "1.5"; "0x1F"; "1e3"; ".5"; "12px"; "abc";
       "-Infinity"; "1e-400"]%string =
  ["0"; "0"; "12"; "-5"; "1.5"; "31"; "1000"; "0.5"; "NaN"; "NaN";
   "-Infinity"; "0"]%string.
Proof. vm_compute. reflexivity. Qed.

Example toString_of_numbers :
  map (fun s => JS.toString (JS.StringToNumber s))
      ["0.1"; "41234567890123"; "1e21"; "123456789012345680000"; "1e-7";
       "0.000001"; "5e-324"; "1e23"; "9007199254740993"]%string =
  ["0.1"; "41234567890123"; "1e+21"; "123456789012345680000"; "1e-7";
   "0.000001"; "5e-324"; "1e+23"; "9007199254740992"]%string.
Proof. vm_compute. reflexivity. Qed.

Example toFixed_of_numbers :
  map (fun s => JS.toFixed (JS.StringToNumber s) 2)
      ["19.99"; "25"; "0"; "1.005"; "8.345"; "-0.001"; "1e21"; "abc"]%string =
  ["19.99"; "25.00"; "0.00"; "1.00"; "8.35"; "-0.00"; "1e+21"; "NaN"]%string.
Proof. vm_compute. reflexivity. Qed.

Example toLowerCase_includes :
  JS.includes (JS.toLowerCase "BLACKOUT") "black" = true /\
  JS.includes (JS.toLowerCase "Medium-ish") "medium" = true /\
  JS.includes (JS.toLowerCase "Blue") "black" = false.
Proof. vm_compute. repeat split. Qed.

(** A product without variants leaves the session id and the price line of
    the product shown before it. *)
Example session_outlives_empty_product :
  display (the_world (play Demo.shop (initial_page None) Demo.tee_then_ghost)) =
  Some ("19.99", "Ghost", Some "102").
Proof. vm_compute. reflexivity. Qed.

(** The fallback of the formatter on every price below 30.00. *)
Example toFixed_of_cents :
  forallb (fun n =>
     String.eqb (JS.toFixed (JS.div (JS.of_Z (Z.of_nat n)) (JS.of_Z 100)) 2)
                (two_decimals (Z.of_nat n)))
    (seq 0 3000) = true.
Proof. vm_compute. reflexivity. Qed.

(** ** The further properties at the demo shop *)

Lemma strip_tags_fixed_points_witness :
  strip_tags "Plain tee" = "Plain tee".
Proof.
  apply (proj2 (proj2 (proj2 strip_tags_fixed_points))). reflexivity.
Defined.

Lemma strip_tags_removes_tag_witness :
  strip_tags "1 <b>2" = "1 2" /\ strip_tags "1 <b" = "1 ".
Proof.
  split.
  - apply (proj1 (strip_tags_removes_tag "1 " "b" "2" eq_refl
                    ltac:(discriminate) eq_refl)).
  - apply (proj1 (proj2 (strip_tags_removes_tag "1 " "b" "2" eq_refl
                           ltac:(discriminate) eq_refl))).
Defined.


Lemma findVariant_unknown_value_witness :
  findVariant Demo.tee Demo.purple = None.
Proof.
  apply (proj1 (findVariant_unknown_value Demo.tee Demo.purple 0 "Color"
                  eq_refl eq_refl)).
  compute_done.
Defined.


Lemma unmatched_click_keeps_variant_witness :
  display (step Demo.shop Demo.opened (ClickOption 0 0)) = display Demo.opened.
Proof.
  apply (unmatched_click_keeps_variant Demo.shop 0 0 Demo.opened
           Demo.opened_modal Demo.color_row Demo.white_button Demo.tee);
    vm_compute; reflexivity.
Defined.

Lemma empty_product_keeps_session_witness :
  exists m',
    modal (snd (exec Demo.shop (buildVariantPickers Demo.shop Demo.ghost)
                  (Demo.page (Some "102")))) = Some m' /\
    variantId m' = variantId (Demo.session (Some "102")) /\
    cqv_price m' = cqv_price (Demo.session (Some "102")) /\
    cqv_variants m' = map bare_group (options Demo.ghost) /\
    selections m' = ∅ /\
    surroundings m' = surroundings (Demo.session (Some "102")) /\
    set_modal (modal (Demo.page (Some "102")))
      (snd (exec Demo.shop (buildVariantPickers Demo.shop Demo.ghost)
              (Demo.page (Some "102")))) = Demo.page (Some "102").
Proof.
  apply (empty_product_keeps_session Demo.shop Demo.ghost (Demo.page (Some "102"))
           (Demo.session (Some "102"))); reflexivity.
Defined.

Lemma lands_on_tile : lands_on (Demo.tile_click Demo.tile) Demo.tile "tee".
Proof. repeat split. discriminate. Qed.

Lemma quick_view_shows_product_witness :
  showing Demo.tee Demo.tile
    (step Demo.shop (initial_world None) (Click (Demo.tile_click Demo.tile))) /\
  effects_since (initial_world None)
    (step Demo.shop (initial_world None) (Click (Demo.tile_click Demo.tile))) =
    [product_request "tee"] /\
  fetches (step Demo.shop (initial_world None)
             (Click (Demo.tile_click Demo.tile))) = 1%nat.
Proof.
  apply (proj1 (quick_view_shows_product Demo.shop (Demo.tile_click Demo.tile)
                  Demo.tile "tee" Demo.tee lands_on_tile)).
  reflexivity.
Defined.

Lemma quick_view_keeps_quantity_and_message_witness :
  (cqv_qty <$> modal (step Demo.shop (initial_world None)
                        (Click (Demo.tile_click Demo.tile)))) = Some "1".
Proof.
  apply (proj2 (proj2 (proj2
    (quick_view_keeps_quantity_and_message Demo.shop (Demo.tile_click Demo.tile)
       Demo.tile "tee" Demo.tee (initial_world None) lands_on_tile eq_refl)))).
  reflexivity.
Defined.

Lemma quick_view_failure_witness :
  modal (step Demo.shop_down (initial_world None)
           (Click (Demo.tile_click Demo.tile))) = None /\
  no_scroll (step Demo.shop_down (initial_world None)
               (Click (Demo.tile_click Demo.tile))) = false /\
  effects_since (initial_world None)
    (step Demo.shop_down (initial_world None)
       (Click (Demo.tile_click Demo.tile))) =
    [product_request "tee"; ConsoleError "TypeError: Failed to fetch";
     Alert "Unable to load product."] /\
  fetches (step Demo.shop_down (initial_world None)
             (Click (Demo.tile_click Demo.tile))) = 1%nat.
Proof.
  apply (proj1 (quick_view_failure Demo.shop_down (Demo.tile_click Demo.tile)
                  Demo.tile "tee" lands_on_tile) (initial_world None)).
  reflexivity.
Defined.

Lemma unreadable_cart_reply_is_failure_witness :
  (cqv_msg <$> modal (snd (exec Demo.shop_garbled
                             (add_onclick Demo.tee Demo.tile)
                             (Demo.page (Some "102"))))) =
  Some "Could not add to cart. Try again.".
Proof.
  apply (unreadable_cart_reply_is_failure Demo.shop_garbled Demo.tee Demo.tile
           (Demo.page (Some "102")) (Demo.session (Some "102")) "102"
           eq_refl eq_refl ltac:(discriminate) eq_refl).
Defined.

Lemma modal_node_is_never_removed_witness :
  modal (the_world (play Demo.shop (initial_page None)
                      (Demo.shown_and_closed ++ Demo.crossed))) <> None.
Proof.
  apply (proj1 (modal_node_is_never_removed Demo.shop None
                  Demo.shown_and_closed Demo.crossed)).
  vm_compute. discriminate.
Defined.

Lemma modal_shows_one_product_witness :
  exists p quick, presents p quick Demo.crossed_modal.
Proof.
  apply (modal_shows_one_product Demo.shop None Demo.crossed).
  vm_compute. reflexivity.
Defined.

Lemma price_and_session_id_agree_witness :
  exists v, v ∈ variants Demo.tee /\
            variantId Demo.crossed_modal = Some (JS.toString (id v)) /\
            cqv_price Demo.crossed_modal = money Demo.shop (price v).
Proof.
  apply (price_and_session_id_agree Demo.shop None Demo.crossed).
  - vm_compute. reflexivity.
  - vm_compute. reflexivity.
  - discriminate.
Defined.

Lemma add_button_ignores_clicks_while_adding_witness :
  turn Demo.shop (turn Demo.shop Demo.opened_page (Ui ClickAdd)) (Ui ClickAdd) =
  turn Demo.shop Demo.opened_page (Ui ClickAdd).
Proof.
  apply (proj1 (add_button_ignores_clicks_while_adding Demo.shop Demo.opened_page)
           Demo.tee Demo.tile Demo.opened_modal "102");
    solve [vm_compute; reflexivity | discriminate].
Defined.

Lemma idle_events_change_nothing_witness :
  turn Demo.shop Demo.opened_page (Ui (KeyDown "Enter")) = Demo.opened_page.
Proof.
  apply (proj1 (idle_events_change_nothing Demo.shop Demo.opened_page)).
  discriminate.
Defined.



Lemma builder_starts_afresh_witness :
  exists m1' m2',
    modal (snd (exec Demo.shop (buildVariantPickers Demo.shop Demo.tee)
                  Demo.blank)) = Some m1' /\
    modal (snd (exec Demo.shop (buildVariantPickers Demo.shop Demo.tee)
                  Demo.tried)) = Some m2' /\
    pickers m1' = pickers m2' /\
    (variants Demo.tee <> [] ->
     variantId m1' = variantId m2' /\ cqv_price m1' = cqv_price m2').
Proof.
  apply (builder_starts_afresh Demo.shop Demo.tee Demo.blank Demo.tried
           fresh_modal Demo.tried_modal).
  - reflexivity.
  - vm_compute. reflexivity.
Defined.

Lemma session_id_round_trip_witness :
  (exists body k,
     until_await (add_onclick Demo.mug Demo.mug_tile) (Demo.page (Some "201")) =
       (AtCart body k,
        set_modal (Some (adding (Demo.session (Some "201")))) (Demo.page (Some "201"))) /\
     line_id body = JS.of_Z 201) /\
  (exists cv, chosenVariant Demo.mug "201" = Some cv /\ id cv = JS.of_Z 201).
Proof.
  refine (session_id_round_trip Demo.mug Demo.mug_tile (Demo.page (Some "201"))
            (Demo.session (Some "201"))
            {| id := JS.of_Z 201; title := Str "Large"; price := JS.of_Z 1250;
               available := true;
               option1 := Str "Large"; option2 := Null; option3 := Null |}
            201 _ _ _ _ _).
  - reflexivity.
  - vm_compute. reflexivity.
  - vm_compute. left.
  - reflexivity.
  - lia.
Defined.

Lemma decimal_upsell_id_witness :
  exec Demo.shop (getUpsellVariantIdFromSection Demo.tile) Demo.blank =
  (Ok (Some (JS.of_Z 999)), Demo.blank).
Proof.
  refine (decimal_upsell_id Demo.shop Demo.tile Demo.blank Demo.grid 999 _ _ _).
  - reflexivity.
  - reflexivity.
  - lia.
Defined.
